(** * Cognitive memory of the e-mail priority agent

    A shallow embedding of
    [email-priority-agent/src/memory/cognitive_memory.py]: the memory node,
    the tier stores (working deque, short-term dict), the association graph,
    the consolidation controller and the retrieval engine with spreading
    activation.

    Modelling conventions.
    - A Python [float] (and a NumPy [float64]) is a primitive binary64 float:
      [0.7], [>], [/], [sqrt] are the IEEE operations, so that a division by
      zero yields an infinity or a NaN exactly as it does for NumPy scalars.
      A [float32], which arises only where a row of the durable store is
      read back, is a float of the IEEE specification at precision 24.
    - A [datetime] is a number of microseconds; [datetime.utcnow()] is an
      input of every operation that reads the clock (one reading per call).
    - The embedding service hands out vectors of one dimension, as [float64]
      arrays; the operations are modelled on such inputs. [np.dot] raises on
      two arrays of different lengths: between vectors of the service the
      case does not arise; it does arise for a row read back from the durable
      store, and there the error is part of the model.
    - A Python [dict] whose order matters ([short_term_memory],
      [activation_scores]) is an association list with unique keys kept in
      insertion order; [memory_graph], which is only looked up by key, is a
      [gmap].
    - The embedding service and the database session are collaborators that
      live outside this file: the vector an embedding call returns (or its
      failure) and the availability of the database are inputs of the
      operations.
    - Each operation is one step of a state machine; the interleaving of
      coroutines at their [await] points is not modelled. The [filters]
      argument of retrieval, which the source never reads, is left out. *)

Set Warnings "-inexact-float".
From Stdlib Require Import Floats ZArith.
From stdpp Require Import gmap strings list pretty sorting relations.

(** ** Floats and vectors *)

Definition fgt (a b : float) : bool := PrimFloat.ltb b a.
Definition flt (a b : float) : bool := PrimFloat.ltb a b.

(** Python's [max(a, b)] keeps [a] unless [b > a]; [min(a, b)] keeps [a]
    unless [b < a]. *)
Definition py_max (a b : float) : float := if fgt b a then b else a.
Definition py_min (a b : float) : float := if flt b a then b else a.

(** The conversion of a Python [int] to a float (exact on the small values
    it is used for here: a number of seconds below 86400). *)
Definition float_of_Z (z : Z) : float := PrimFloat.of_uint63 (Uint63.of_Z z).

Definition vector := list float.

(** [np.dot] on two one-dimensional arrays of the same length: the sum of
    the products, accumulated from the left, starting from 0, as the loop of
    NumPy and of the reference BLAS does. An optimised BLAS kernel keeps
    several partial sums, so that on long vectors the last bits of its result
    can differ from the ones below; on the vectors of the scenarios, whose
    products and sums are exact, every order of summation gives the same
    float. On arrays of different lengths [np.dot] raises [ValueError]: where
    that can happen (see [long_term_candidates]) the lengths are compared
    before [dot] is used. *)
Definition dot (a b : vector) : float :=
  fold_left (fun acc xy => (acc + xy.1 * xy.2)%float) (zip a b) 0%float.

(** [np.linalg.norm] of a vector: the square root of its dot product with
    itself. *)
Definition norm (a : vector) : float := PrimFloat.sqrt (dot a a).

(** The expression [np.dot(a, b) / (norm(a) * norm(b))] that the source writes
    out at each of its uses. There is no test of the denominator. *)
Definition cosine_similarity (a b : vector) : float :=
  (dot a b / (norm a * norm b))%float.

(** ** Time *)

Definition datetime := Z.

(** [(later - earlier).seconds]: the seconds field of the normalised
    [timedelta], between 0 and 86399; whole days are a field of their own. *)
Definition timedelta_seconds (later earlier : datetime) : Z :=
  (((later - earlier) `div` 1000000) `mod` 86400)%Z.

(** ** Errors *)

Inductive exn := EmbeddingFailure | StoreUnavailable | MultipleResultsFound | ValueError.

Inductive result (A : Type) :=
| Ok (a : A)
| Raise (e : exn).
Arguments Ok {A} a.
Arguments Raise {A} e.

(** ** The memory node *)

(** The content and metadata dictionaries, with string values ([None] for a
    key whose value is absent). *)
Definition pydict := list (string * option string).

Fixpoint dict_get (d : pydict) (k : string) : option string :=
  match d with
  | [] => None
  | (k', v) :: d' => if decide (k' = k) then v else dict_get d' k
  end.

(** The dataclass [MemoryNode]; its field [id] is [node_id] here. *)
Record MemoryNode := mkNode {
  node_id : string;
  content : pydict;
  embedding : option vector;
  timestamp : datetime;
  access_count : Z;
  last_accessed : datetime;
  importance_score : float;
  decay_rate : float;
  connections : list (string * float);
  metadata : pydict
}.

Definition set_connections (m : MemoryNode) (c : list (string * float)) : MemoryNode :=
  mkNode (node_id m) (content m) (embedding m) (timestamp m) (access_count m)
         (last_accessed m) (importance_score m) (decay_rate m) c (metadata m).

(** [memory.access_count += 1; memory.last_accessed = now]. *)
Definition touch (now : datetime) (m : MemoryNode) : MemoryNode :=
  mkNode (node_id m) (content m) (embedding m) (timestamp m) (access_count m + 1)%Z
         now (importance_score m) (decay_rate m) (connections m) (metadata m).

(** ** Sorting

    [sorted(xs, key=f, reverse=True)]: a stable sort in descending order of
    the key, equal keys keeping their original order. The keys are compared
    with [<] only, as Python compares them. On keys that can be compared
    (none is a NaN) there is one stable descending order and the insertion
    sort below computes it. With a NaN among the keys [<] is not an order,
    and what Python's sort leaves depends on the runs and merges of its
    algorithm: [sorted([0.0, nan, 0.5], reverse=True)] is [[0.0, nan, 0.5]]
    there and [[0.5, 0.0, nan]] here. The properties that depend on the
    order are stated for keys that can be compared. *)

Section Sorted.
Context {A : Type} (key : A → float).

Fixpoint insert_desc (x : A) (l : list A) : list A :=
  match l with
  | [] => [x]
  | y :: l' => if flt (key y) (key x) then x :: y :: l' else y :: insert_desc x l'
  end.

Definition sorted_desc (l : list A) : list A :=
  fold_left (fun acc x => insert_desc x acc) l [].
End Sorted.

(** ** The consolidation controller *)

Record MemoryController := mkController {
  working_memory_size : nat;
  short_term_size : nat;
  consolidation_interval : Z;
  last_consolidation : datetime
}.

(** [MemoryController()] with its default arguments, created at time [now]. *)
Definition default_controller (now : datetime) : MemoryController :=
  mkController 20 100 300 now.

Definition should_consolidate (c : MemoryController) (now : datetime) : bool :=
  bool_decide (consolidation_interval c ≤ timedelta_seconds now (last_consolidation c))%Z.

(** The sort key of the working tier:
    [importance * 0.7 + (1.0 / (1 + seconds / 3600)) * 0.3]. *)
Definition working_rank (now : datetime) (m : MemoryNode) : float :=
  (importance_score m * 0.7
   + (1.0 / (1 + float_of_Z (timedelta_seconds now (timestamp m)) / 3600)) * 0.3)%float.

(** The sort key of the short-term tier: [importance * (1 - decay_rate)]. *)
Definition short_term_rank (m : MemoryNode) : float :=
  (importance_score m * (1 - decay_rate m))%float.

(** The test that sends a node to long-term storage. *)
Definition worth_persisting (m : MemoryNode) : bool :=
  fgt (importance_score m) 0.7 || bool_decide (5 < access_count m)%Z.

(** The loop over [short_term_sorted[short_term_size:]]. *)
Fixpoint partition_overflow (overflow : list MemoryNode)
  : list MemoryNode * list string :=
  match overflow with
  | [] => ([], [])
  | memory :: rest =>
      let '(to_persist, to_remove) := partition_overflow rest in
      if worth_persisting memory
      then (memory :: to_persist, to_remove)
      else (to_persist, node_id memory :: to_remove)
  end.

(** [MemoryController.consolidate_memories]: the controller with its
    [last_consolidation] updated, and the pair [(to_persist, to_remove)]. *)
Definition consolidate_memories (c : MemoryController) (now : datetime)
    (working short_term : list MemoryNode)
  : MemoryController * (list MemoryNode * list string) :=
  let working_sorted := sorted_desc (working_rank now) working in
  let to_short_term := drop (working_memory_size c) working_sorted in
  let all_short_term := short_term ++ to_short_term in
  let short_term_sorted := sorted_desc short_term_rank all_short_term in
  let c' := mkController (working_memory_size c) (short_term_size c)
                         (consolidation_interval c) now in
  (c', partition_overflow (drop (short_term_size c) short_term_sorted)).

(** ** Arrays as bytes

    The embedding column of the durable store holds bytes: a node's array is
    written with [ndarray.tobytes()] and read back with
    [np.frombuffer(..., dtype=np.float32)]. *)

Definition bytes := list Byte.byte.

Definition byte_of_Z (z : Z) : Byte.byte :=
  default Byte.x00 (Byte.of_N (Z.to_N (z `mod` 256))).

Definition Z_of_byte (b : Byte.byte) : Z := Z.of_N (Byte.to_N b).

(** The [n] low bytes of a number, the least significant first, and back. *)
Fixpoint le_bytes (n : nat) (z : Z) : bytes :=
  match n with
  | O => []
  | S n' => byte_of_Z z :: le_bytes n' (z `div` 256)
  end.

Fixpoint le_value (b : bytes) : Z :=
  match b with
  | [] => 0
  | x :: rest => Z_of_byte x + 256 * le_value rest
  end%Z.

(** The 64 bits of a [float64]: the sign, eleven bits of biased exponent and
    52 bits of fraction. A NaN is written as the quiet NaN of positive sign
    (the floats of the model have one NaN; the hardware may set the sign bit
    of the ones it produces). *)
Definition float64_bits (f : float) : Z :=
  match Prim2SF f with
  | S754_zero s => if s then 2 ^ 63 else 0
  | S754_infinity s => (if s then 2 ^ 63 else 0) + 2047 * 2 ^ 52
  | S754_nan => 2047 * 2 ^ 52 + 2 ^ 51
  | S754_finite s m e =>
      (if s then 2 ^ 63 else 0)
      + (if Z.pos m <? 2 ^ 52 then Z.pos m
         else (e + 1075) * 2 ^ 52 + (Z.pos m - 2 ^ 52))
  end%Z.

(** [ndarray.tobytes()] of a [float64] array: eight bytes for each item, in
    the little-endian order of the machines the agent runs on. *)
Definition tobytes (v : vector) : bytes :=
  v ≫= fun f => le_bytes 8 (float64_bits f).

(** A [float32] number, as a float of precision 24 and maximal exponent 128
    of the specification of IEEE arithmetic. *)
Definition float32 := spec_float.

(** The [float32] that 32 bits stand for: the sign, eight bits of biased
    exponent and 23 bits of fraction. *)
Definition float32_of_bits (w : Z) : float32 :=
  let sign := Z.testbit w 31 in
  let exponent := ((w `div` 2 ^ 23) `mod` 256)%Z in
  let fraction := (w `mod` 2 ^ 23)%Z in
  if (exponent =? 255)%Z then
    if (fraction =? 0)%Z then S754_infinity sign else S754_nan
  else if (exponent =? 0)%Z then
    match fraction with
    | Z.pos m => S754_finite sign m (-149)
    | _ => S754_zero sign
    end
  else
    match (2 ^ 23 + fraction)%Z with
    | Z.pos m => S754_finite sign m (exponent - 150)
    | _ => S754_zero sign
    end.

(** [np.frombuffer(b, dtype=np.float32)]: one item for every four bytes;
    [None] stands for the [ValueError] raised when the size of the buffer is
    not a multiple of four. *)
Fixpoint frombuffer_float32 (b : bytes) : option (list float32) :=
  match b with
  | [] => Some []
  | b0 :: b1 :: b2 :: b3 :: rest =>
      (fun v => float32_of_bits (le_value [b0; b1; b2; b3]) :: v)
        <$> frombuffer_float32 rest
  | _ => None
  end.

(** The conversion of a [float32] to [float64], which is exact. *)
Definition float64_of_float32 (x : float32) : float := SF2Prim x.

(** [np.linalg.norm] of a [float32] array, which NumPy computes in
    [float32]: each product, each sum and the square root are rounded to
    precision 24, the sum being accumulated as in [dot]. *)
Definition norm_float32 (a : list float32) : float32 :=
  SFsqrt 24 128
    (fold_left (fun acc x => SFadd 24 128 acc (SFmul 24 128 x x)) a (S754_zero false)).

(** ** The stores *)

(** The rows of the durable store that the memory system reads and writes:
    the [LongTermMemory] and [SenderProfile] tables. *)
Record LongTermMemory := mkLongTerm {
  ltm_id : string;
  ltm_content : pydict;
  ltm_embedding : option bytes;
  ltm_importance_score : float;
  ltm_access_count : Z;
  ltm_last_accessed : datetime;
  ltm_created_at : datetime;
  ltm_metadata : pydict
}.

Record SenderProfile := mkProfile {
  email : string;
  total_messages : Z;
  last_interaction : option datetime;
  profile_importance_score : float
}.

Record Database := mkDatabase {
  long_term_rows : list LongTermMemory;
  sender_profiles : list SenderProfile
}.

(** [defaultdict(list)] keyed by node id. *)
Definition graph_lookup (g : gmap string (list (string * float))) (k : string)
  : list (string * float) :=
  default [] (g !! k).

(** [memory_graph[k].append(e)]. *)
Definition graph_append (k : string) (e : string * float)
    (g : gmap string (list (string * float))) : gmap string (list (string * float)) :=
  <[k := graph_lookup g k ++ [e]]> g.

(** The attributes of [CognitiveMemorySystem], and the database that its
    sessions reach. *)
Record CognitiveMemorySystem := mkSystem {
  memory_controller : MemoryController;
  working_memory : list MemoryNode;
  short_term_memory : list (string * MemoryNode);
  memory_graph : gmap string (list (string * float));
  database : Database
}.

(** [deque(maxlen=20)]. *)
Definition working_maxlen : nat := 20.

(** [deque.append] on a bounded deque: the new item goes to the right end and
    the items in excess of [maxlen] fall off the left end. *)
Definition deque_append {A : Type} (maxlen : nat) (d : list A) (x : A) : list A :=
  let d' := d ++ [x] in
  drop (length d' - maxlen) d'.

(** [CognitiveMemorySystem()], created at time [now] over a database [db]. *)
Definition new_system (now : datetime) (db : Database) : CognitiveMemorySystem :=
  mkSystem (default_controller now) [] [] ∅ db.

(** ** Association graph *)

(** The loop of [_update_memory_connections] over a list of resident nodes:
    the nodes (those linked have one more connection), the connections
    gathered for the new node, and the adjacency index. *)
Fixpoint connect_all (new_id : string) (new_embedding : vector)
    (memories : list MemoryNode) (new_connections : list (string * float))
    (g : gmap string (list (string * float)))
  : list MemoryNode * list (string * float) * gmap string (list (string * float)) :=
  match memories with
  | [] => ([], new_connections, g)
  | memory :: rest =>
      let skip :=
        let '(rest', c, g') := connect_all new_id new_embedding rest new_connections g in
        (memory :: rest', c, g') in
      if bool_decide (node_id memory = new_id) then skip else
      match embedding memory with
      | None => skip
      | Some e =>
          let similarity := cosine_similarity new_embedding e in
          if fgt similarity 0.7 then
            let memory' :=
              set_connections memory (connections memory ++ [(new_id, similarity)]) in
            let g1 := graph_append new_id (node_id memory, similarity) g in
            let g2 := graph_append (node_id memory) (new_id, similarity) g1 in
            let '(rest', c, g') :=
              connect_all new_id new_embedding rest
                          (new_connections ++ [(node_id memory, similarity)]) g2 in
            (memory' :: rest', c, g')
          else skip
      end
  end.

(** The new node is the object that [store_interaction] has just appended:
    the last item of the deque. *)
Definition replace_last {A : Type} (l : list A) (x : A) : list A :=
  match l with
  | [] => []
  | _ => take (length l - 1) l ++ [x]
  end.

(** [_update_memory_connections]. The nodes of [all_memories] are the objects
    of the two tiers, so a connection appended to one of them is a change of
    the tier; the new node itself is passed over by the test on ids and
    receives its connections through [new_node.connections]. *)
Definition _update_memory_connections (sys : CognitiveMemorySystem)
    (new_node : MemoryNode) : CognitiveMemorySystem * MemoryNode :=
  match embedding new_node with
  | None => (sys, new_node)
  | Some e =>
      let '(working', c1, g1) :=
        connect_all (node_id new_node) e (working_memory sys)
                    (connections new_node) (memory_graph sys) in
      let '(short_values', c2, g2) :=
        connect_all (node_id new_node) e (snd <$> short_term_memory sys) c1 g1 in
      let new_node' := set_connections new_node c2 in
      (mkSystem (memory_controller sys)
                (replace_last working' new_node')
                (zip (fst <$> short_term_memory sys) short_values')
                g2
                (database sys),
       new_node')
  end.

(** The node that [store_interaction] creates. *)
Definition fresh_node (message_id : string) (content : pydict) (importance : float)
    (embedding : option vector) (now : datetime) : MemoryNode :=
  mkNode ("mem_" +:+ message_id) content embedding now 0 now importance 0.1 []
         [("message_id", Some message_id);
          ("sender", dict_get content "sender_email");
          ("type", Some "interaction")].

(** [store_interaction]. [created] is what
    [embedding_service.create_embedding(text_content)] returned or raised. *)
Definition store_interaction (sys : CognitiveMemorySystem) (message_id : string)
    (content : pydict) (importance : float) (created : result (option vector))
    (now : datetime) : CognitiveMemorySystem * result MemoryNode :=
  match created with
  | Raise e => (sys, Raise e)
  | Ok embedding =>
      let node := fresh_node message_id content importance embedding now in
      let sys1 :=
        mkSystem (memory_controller sys)
                 (deque_append working_maxlen (working_memory sys) node)
                 (short_term_memory sys) (memory_graph sys) (database sys) in
      let '(sys2, node') := _update_memory_connections sys1 node in
      (sys2, Ok node')
  end.

(** ** Persistence and the consolidation pass *)

(** The [LongTermMemory] row built from a node; its embedding column is
    [memory.embedding.tobytes()], or [None] for a node without embedding. *)
Definition long_term_row (memory : MemoryNode) : LongTermMemory :=
  mkLongTerm (node_id memory) (content memory) (tobytes <$> embedding memory)
             (importance_score memory) (access_count memory)
             (last_accessed memory) (timestamp memory) (metadata memory).

(** [_persist_to_long_term]: the row is added to the session; the profile of
    the sender, when the metadata names one and the table has it, counts one
    more message and has its importance raised by 0.01, at most to 1.0.
    [scalar_one_or_none] raises when several rows match. *)
Definition _persist_to_long_term (db : Database) (now : datetime)
    (memory : MemoryNode) : result Database :=
  let ltm := long_term_row memory in
  let rows := long_term_rows db ++ [ltm] in
  match dict_get (metadata memory) "sender" with
  | None => Ok (mkDatabase rows (sender_profiles db))
  | Some sender_email =>
      if bool_decide (sender_email = "") then Ok (mkDatabase rows (sender_profiles db)) else
      match filter (fun p => email p = sender_email) (sender_profiles db) with
      | [] => Ok (mkDatabase rows (sender_profiles db))
      | [_] =>
          let update p :=
            if bool_decide (email p = sender_email)
            then mkProfile (email p) (total_messages p + 1)%Z (Some now)
                           (py_min 1.0 (profile_importance_score p + 0.01)%float)
            else p in
          Ok (mkDatabase rows (update <$> sender_profiles db))
      | _ => Raise MultipleResultsFound
      end
  end.

Fixpoint persist_all (db : Database) (now : datetime) (to_persist : list MemoryNode)
  : result Database :=
  match to_persist with
  | [] => Ok db
  | memory :: rest =>
      match _persist_to_long_term db now memory with
      | Ok db' => persist_all db' now rest
      | Raise e => Raise e
      end
  end.

(** [short_term_memory.pop(memory_id, None)]. *)
Definition dict_pop (memory_id : string) (d : list (string * MemoryNode))
  : list (string * MemoryNode) :=
  filter (fun kv => kv.1 ≠ memory_id) d.

(** [_consolidate_memories]. The session holds the rows added and the profile
    changes until [session.commit()]; [commit_ok] tells whether that commit
    goes through. An exception leaves the database as it was; the removals
    from the short-term dict come before the commit and are not undone. *)
Definition _consolidate_memories (sys : CognitiveMemorySystem) (now : datetime)
    (commit_ok : bool) : CognitiveMemorySystem * result unit :=
  let working_list := working_memory sys in
  let short_term_list := snd <$> short_term_memory sys in
  let '(controller', (to_persist, to_remove)) :=
    consolidate_memories (memory_controller sys) now working_list short_term_list in
  match persist_all (database sys) now to_persist with
  | Raise e =>
      (mkSystem controller' (working_memory sys) (short_term_memory sys)
                (memory_graph sys) (database sys), Raise e)
  | Ok db' =>
      let short_term' := foldl (fun d k => dict_pop k d) (short_term_memory sys) to_remove in
      if commit_ok
      then (mkSystem controller' (working_memory sys) short_term' (memory_graph sys) db',
            Ok tt)
      else (mkSystem controller' (working_memory sys) short_term' (memory_graph sys)
                     (database sys), Raise StoreUnavailable)
  end.

(** ** Retrieval *)

(** A Python dict with string keys, in insertion order. *)
Fixpoint assoc_get {V : Type} (k : string) (d : list (string * V)) : option V :=
  match d with
  | [] => None
  | (k', v) :: d' => if bool_decide (k' = k) then Some v else assoc_get k d'
  end.

(** [d[k] = v]: the value of an existing key is replaced where it stands, a
    new key goes to the end. *)
Fixpoint assoc_set {V : Type} (k : string) (v : V) (d : list (string * V))
  : list (string * V) :=
  match d with
  | [] => [(k, v)]
  | (k', v') :: d' =>
      if bool_decide (k' = k) then (k, v) :: d' else (k', v') :: assoc_set k v d'
  end.

(** Where the object behind a candidate lives: retrieval hands out the very
    objects of the tiers, and builds fresh ones for the long-term rows. *)
Inductive origin :=
| InWorking (i : nat)
| InShortTerm (key : string)
| Detached.

Definition candidate := (origin * MemoryNode)%type.

(** The inner loop of [_spreading_activation], over the connections of the
    node that was popped. *)
Fixpoint spread_links (short_term : list (string * MemoryNode))
    (current_activation decay_factor : float) (links : list (string * float))
    (activation_scores : list (string * float)) (queue : list (candidate * float))
  : list (string * float) * list (candidate * float) :=
  match links with
  | [] => (activation_scores, queue)
  | (connected_id, connection_strength) :: rest =>
      let spread_activation :=
        (current_activation * connection_strength * decay_factor)%float in
      if fgt spread_activation 0.1 then
        match assoc_get connected_id activation_scores with
        | Some existing =>
            spread_links short_term current_activation decay_factor rest
              (assoc_set connected_id (py_max existing spread_activation) activation_scores)
              queue
        | None =>
            let scores' := assoc_set connected_id spread_activation activation_scores in
            match assoc_get connected_id short_term with
            | Some node =>
                spread_links short_term current_activation decay_factor rest scores'
                  (queue ++ [((InShortTerm connected_id, node), spread_activation)])
            | None =>
                spread_links short_term current_activation decay_factor rest scores' queue
            end
        end
      else
        spread_links short_term current_activation decay_factor rest
                     activation_scores queue
  end.

(** One turn of [while queue:]: the head of the queue is popped; a node
    already visited is passed over, another one is marked and spreads. *)
Definition spread_step (short_term : list (string * MemoryNode)) (decay_factor : float)
    (current : candidate * float) (queue : list (candidate * float))
    (visited : gset string) (activation_scores : list (string * float))
  : list (candidate * float) * gset string * list (string * float) :=
  let '((_, current_memory), current_activation) := current in
  if bool_decide (node_id current_memory ∈ visited)
  then (queue, visited, activation_scores)
  else
    let '(scores', queue') :=
      spread_links short_term current_activation decay_factor
                   (connections current_memory) activation_scores queue in
    (queue', {[node_id current_memory]} ∪ visited, scores').

(** The [while] loop, with a bound on the number of turns. *)
Fixpoint spread_loop (fuel : nat) (short_term : list (string * MemoryNode))
    (decay_factor : float) (queue : list (candidate * float))
    (visited : gset string) (activation_scores : list (string * float))
  : option (list (string * float)) :=
  match queue with
  | [] => Some activation_scores
  | current :: queue' =>
      match fuel with
      | O => None
      | S fuel' =>
          let '(queue'', visited', scores') :=
            spread_step short_term decay_factor current queue' visited activation_scores in
          spread_loop fuel' short_term decay_factor queue'' visited' scores'
      end
  end.

(** [activation_scores[memory.id] = activation] for the seeds, in order. *)
Definition initial_scores (seeds : list (candidate * float)) : list (string * float) :=
  foldl (fun d '((_, m), a) => assoc_set (node_id m) a d) [] seeds.

(** A node enters the queue as a seed or, at most once, as a short-term
    resident that receives its first activation: this many turns suffice. *)
Definition spread_fuel (short_term : list (string * MemoryNode))
    (seeds : list (candidate * float)) : nat :=
  length seeds + length short_term.

(** The scores when the queue has run empty. *)
Definition final_scores (short_term : list (string * MemoryNode))
    (decay_factor : float) (seeds : list (candidate * float))
  : option (list (string * float)) :=
  spread_loop (spread_fuel short_term seeds) short_term decay_factor seeds ∅
              (initial_scores seeds).

(** [memory_map]: the seeds by id (the last one wins), overridden by the
    short-term dict. *)
Definition memory_map_get (short_term : list (string * MemoryNode))
    (seed_memories : list candidate) (memory_id : string) : option candidate :=
  match assoc_get memory_id short_term with
  | Some node => Some (InShortTerm memory_id, node)
  | None => find (fun c => bool_decide (node_id c.2 = memory_id)) (reverse seed_memories)
  end.

(** [_spreading_activation], with [decay_factor] at its default when called
    from retrieval. *)
Definition _spreading_activation (short_term : list (string * MemoryNode))
    (seed_memories : list candidate) (initial_activations : list float)
    (decay_factor : float) : list (candidate * float) :=
  let seeds := zip seed_memories initial_activations in
  let activation_scores := default [] (final_scores short_term decay_factor seeds) in
  let result :=
    omap (fun '(memory_id, score) =>
            (fun m => (m, score)) <$> memory_map_get short_term seed_memories memory_id)
         activation_scores in
  sorted_desc snd result.

(** The dictionaries returned to the caller. *)
Record RetrievedMemory := mkRetrieved {
  r_content : pydict;
  r_similarity : float;
  r_timestamp : datetime;
  r_importance : float;
  r_metadata : pydict
}.

(** [candidates.append((node, similarity))] for a node that has an embedding. *)
Definition candidate_of (query_embedding : vector) (c : candidate)
  : option (candidate * float) :=
  match embedding c.2 with
  | Some e => Some (c, cosine_similarity query_embedding e)
  | None => None
  end.

Definition working_candidates (sys : CognitiveMemorySystem) (query_embedding : vector)
  : list (candidate * float) :=
  omap (candidate_of query_embedding)
       (imap (fun i node => (InWorking i, node)) (working_memory sys)).

Definition short_term_candidates (sys : CognitiveMemorySystem) (query_embedding : vector)
  : list (candidate * float) :=
  omap (candidate_of query_embedding)
       ((fun kv => (InShortTerm kv.1, kv.2)) <$> short_term_memory sys).

(** The loop over the rows that the query of the durable store returned. A
    row whose embedding column is [None] or empty is passed over. The bytes
    of another row are read as [float32] items; [np.frombuffer] raises
    [ValueError] on a size that is not a multiple of four, and [np.dot]
    raises it when the array read has not the length of the query. Otherwise
    the row becomes a fresh node: the dot product is taken in [float64], the
    norm of the array read in [float32]. The result is the candidates
    gathered, and the exception that ended the loop, if any. *)
Fixpoint scan_long_term (query_embedding : vector) (now : datetime)
    (rows : list LongTermMemory) : list (candidate * float) * option exn :=
  match rows with
  | [] => ([], None)
  | ltm :: rest =>
      match ltm_embedding ltm with
      | Some (b :: bs) =>
          match frombuffer_float32 (b :: bs) with
          | None => ([], Some ValueError)
          | Some embedding =>
              let e := float64_of_float32 <$> embedding in
              if bool_decide (length e = length query_embedding) then
                let similarity :=
                  (dot query_embedding e
                   / (norm query_embedding
                      * float64_of_float32 (norm_float32 embedding)))%float in
                let node :=
                  mkNode (ltm_id ltm) (ltm_content ltm) (Some e) (ltm_created_at ltm)
                         (ltm_access_count ltm) now (ltm_importance_score ltm) 0.1 [] [] in
                let '(candidates, raised) := scan_long_term query_embedding now rest in
                (((Detached, node), similarity) :: candidates, raised)
              else ([], Some ValueError)
          end
      | _ => scan_long_term query_embedding now rest
      end
  end.

(** The rows of [select(LongTermMemory).limit(50)], scanned. *)
Definition long_term_candidates (sys : CognitiveMemorySystem) (query_embedding : vector)
    (now : datetime) : list (candidate * float) * option exn :=
  scan_long_term query_embedding now (take 50 (long_term_rows (database sys))).

(** The effect of [memory.access_count += 1; memory.last_accessed = now] on
    the tier that holds the object. *)
Definition touch_at (now : datetime) (sys : CognitiveMemorySystem) (o : origin)
  : CognitiveMemorySystem :=
  match o with
  | InWorking i =>
      mkSystem (memory_controller sys) (alter (touch now) i (working_memory sys))
               (short_term_memory sys) (memory_graph sys) (database sys)
  | InShortTerm key =>
      mkSystem (memory_controller sys) (working_memory sys)
               ((fun kv => if bool_decide (kv.1 = key) then (kv.1, touch now kv.2) else kv)
                  <$> short_term_memory sys)
               (memory_graph sys) (database sys)
  | Detached => sys
  end.

Section Retrieval.
(** [get_db_session] is defined in [utils/database.py], outside the sources
    at hand. The one thing retrieval depends on is whether the exit handler
    of that context manager swallows an exception raised inside the body of
    [async with]: it is a parameter. *)
Variable session_swallows : bool.

(** [retrieve_relevant_memories]. [query] is what [create_embedding(query)]
    returned or raised; [db_up] tells whether [session.execute] answers or
    raises. The function has no [try]: an exception raised inside
    [async with], by the query of the store or by the reading of a row, is
    seen by the caller unless the session manager itself swallows it; in
    that case the call goes on with the candidates gathered so far. *)
Definition retrieve_relevant_memories (sys : CognitiveMemorySystem)
    (query : result vector) (k : nat) (db_up : bool) (now : datetime)
  : CognitiveMemorySystem * result (list RetrievedMemory) :=
  match query with
  | Raise e => (sys, Raise e)
  | Ok query_embedding =>
      let tiers :=
        working_candidates sys query_embedding
        ++ short_term_candidates sys query_embedding in
      let '(from_rows, raised) :=
        if db_up then long_term_candidates sys query_embedding now
        else ([], Some StoreUnavailable) in
      let candidates :=
        match raised with
        | None => Ok (tiers ++ from_rows)
        | Some e => if session_swallows then Ok (tiers ++ from_rows) else Raise e
        end in
      match candidates with
      | Raise e => (sys, Raise e)
      | Ok candidates =>
          let top_candidates := take (k * 2) (sorted_desc snd candidates) in
          let activated_memories :=
            _spreading_activation (short_term_memory sys) (fst <$> top_candidates)
                                  (snd <$> top_candidates) 0.7 in
          let returned := take k activated_memories in
          let sys' := foldl (fun s '((o, _), _) => touch_at now s o) sys returned in
          (sys',
           Ok ((fun '((_, memory), score) =>
                  mkRetrieved (content memory) score (timestamp memory)
                              (importance_score memory) (metadata memory))
                 <$> returned))
      end
  end.

(** ** The system as a state machine *)

Inductive operation :=
| StoreInteraction (message_id : string) (content : pydict) (importance : float)
                   (created : result (option vector)) (now : datetime)
| RetrieveRelevantMemories (query : result vector) (k : nat) (db_up : bool)
                           (now : datetime)
| RunConsolidation (now : datetime) (commit_ok : bool).

Definition step (sys : CognitiveMemorySystem) (op : operation) : CognitiveMemorySystem :=
  match op with
  | StoreInteraction message_id content importance created now =>
      (store_interaction sys message_id content importance created now).1
  | RetrieveRelevantMemories query k db_up now =>
      (retrieve_relevant_memories sys query k db_up now).1
  | RunConsolidation now commit_ok =>
      (_consolidate_memories sys now commit_ok).1
  end.

Definition run (sys : CognitiveMemorySystem) (ops : list operation)
  : CognitiveMemorySystem :=
  foldl step sys ops.

(** The states that the public operations can produce from a fresh system. *)
Inductive reachable : CognitiveMemorySystem → Prop :=
| reachable_new now db : reachable (new_system now db)
| reachable_step sys op : reachable sys → reachable (step sys op).

End Retrieval.

(** ** The background loop *)

(** What the loop of [_consolidation_loop] meets when its sleep of a minute
    ends: the time it reads, with the outcome of the commit should a pass
    run, or the cancellation of the task. *)
Inductive wakeup :=
| Wake (now : datetime) (commit_ok : bool)
| Cancelled.

(** [_consolidation_loop] over the wake-ups of a run: a pass runs when
    [should_consolidate] says so; an exception of the pass is logged and the
    loop goes on; the cancellation breaks the loop. The result is the system
    and the errors logged, the oldest first. *)
Fixpoint _consolidation_loop (sys : CognitiveMemorySystem) (wakeups : list wakeup)
  : CognitiveMemorySystem * list exn :=
  match wakeups with
  | [] => (sys, [])
  | Cancelled :: _ => (sys, [])
  | Wake now commit_ok :: rest =>
      if should_consolidate (memory_controller sys) now then
        let '(sys', outcome) := _consolidate_memories sys now commit_ok in
        let '(sys'', logged) := _consolidation_loop sys' rest in
        (sys'', match outcome with Raise e => e :: logged | Ok _ => logged end)
      else _consolidation_loop sys rest
  end.

(** * Vocabulary of the properties *)

(** ** A closed form of the connection loop *)

(** The link that the loop makes between the new node and a resident one:
    none for a node of the same id, a node without embedding, or a
    similarity that is not above 0.7. *)
Definition link_of (new_id : string) (new_embedding : vector) (memory : MemoryNode)
  : option (string * float) :=
  if bool_decide (node_id memory = new_id) then None else
  match embedding memory with
  | None => None
  | Some e =>
      let similarity := cosine_similarity new_embedding e in
      if fgt similarity 0.7 then Some (node_id memory, similarity) else None
  end.

(** The resident node after the loop has looked at it. *)
Definition linked (new_id : string) (new_embedding : vector) (memory : MemoryNode)
  : MemoryNode :=
  match link_of new_id new_embedding memory with
  | Some (_, similarity) =>
      set_connections memory (connections memory ++ [(new_id, similarity)])
  | None => memory
  end.

(** The two entries of the adjacency index for one link. *)
Definition index_link (new_id : string) (g : gmap string (list (string * float)))
    (l : string * float) : gmap string (list (string * float)) :=
  graph_append l.1 (new_id, l.2) (graph_append new_id l g).

(** The residents that are still in the deque once the new node is in. *)
Definition kept (sys : CognitiveMemorySystem) : list MemoryNode :=
  drop (S (length (working_memory sys)) - working_maxlen) (working_memory sys).

(** The nodes that a pass finds beyond the short-term cutoff. *)
Definition overflow (sys : CognitiveMemorySystem) (now : datetime) : list MemoryNode :=
  let c := memory_controller sys in
  drop (short_term_size c)
       (sorted_desc short_term_rank
          ((snd <$> short_term_memory sys)
           ++ drop (working_memory_size c)
                   (sorted_desc (working_rank now) (working_memory sys)))).

(** ** Invariants *)

(** The shape of the tiers in every state that the operations produce: the
    short-term dict is empty, the deque is within its bound, and the
    controller has the sizes of [MemoryController()]. *)
Definition tiers_shape (sys : CognitiveMemorySystem) : Prop :=
  short_term_memory sys = []
  ∧ length (working_memory sys) ≤ working_maxlen
  ∧ working_memory_size (memory_controller sys) = working_maxlen
  ∧ short_term_size (memory_controller sys) = 100.

(** A projection of the node that [touch] leaves alone: everything but the
    access count and the time of the last access. *)
Definition untouched {B : Type} (f : MemoryNode → B) : Prop :=
  ∀ now m, f (touch now m) = f m.

(** What the links of a node are: its id with its connections. *)
Definition links_view (m : MemoryNode) : string * list (string * float) :=
  (node_id m, connections m).

(** The strengths of all the links of the working tier are above the
    threshold that made them. *)
Definition links_above_threshold (sys : CognitiveMemorySystem) : Prop :=
  ∀ m l, m ∈ working_memory sys → l ∈ connections m → fgt l.2 0.7 = true.

(** A link from [a] to [b] of some strength has its mirror from [b] to [a],
    of the same strength, in the adjacency index. *)
Definition graph_symmetric (g : gmap string (list (string * float))) : Prop :=
  ∀ a b s, (b, s) ∈ graph_lookup g a → (a, s) ∈ graph_lookup g b.

(** The connections of each resident node are in the index, under its id. *)
Definition links_indexed (sys : CognitiveMemorySystem) : Prop :=
  ∀ m l, m ∈ working_memory sys → l ∈ connections m →
         l ∈ graph_lookup (memory_graph sys) (node_id m).

Definition has_key {V : Type} (k : string) (d : list (string * V)) : bool :=
  match assoc_get k d with Some _ => true | None => false end.

(** The short-term entries that have no activation score yet: each of them
    can still enter the queue, once. It bounds the turns of the loop of
    [_spreading_activation]. *)
Definition uncovered (short_term : list (string * MemoryNode))
    (scores : list (string * float)) : nat :=
  length (filter (λ kv, has_key kv.1 scores = false) short_term).

Definition in_unit_interval (x : float) : bool :=
  PrimFloat.leb 0 x && PrimFloat.leb x 1.

(** The system with an empty [LongTermMemory] table. *)
Definition without_long_term (sys : CognitiveMemorySystem) : CognitiveMemorySystem :=
  mkSystem (memory_controller sys) (working_memory sys) (short_term_memory sys)
           (memory_graph sys) (mkDatabase [] (sender_profiles (database sys))).

(** ** The order of a sorted list *)

(** [x] is not below [y]: the key of [x] is not less than the key of [y]. *)
Definition not_below {A : Type} (key : A → float) (x y : A) : Prop :=
  PrimFloat.ltb (key x) (key y) = false.

(** The keys of a list can be compared: none of them is a NaN. On such keys
    [<] is a total preorder and a stable sort has one result, the one of
    [sorted_desc]; with a NaN among the keys the order that Python's sort
    leaves depends on the runs and merges of its algorithm, which
    [sorted_desc] does not follow. *)
Definition comparable {A : Type} (key : A → float) (l : list A) : Prop :=
  Forall (λ x, PrimFloat.is_nan (key x) = false) l.

(** The two sort keys of a pass can be compared on the nodes it sorts. *)
Definition ranks_comparable (sys : CognitiveMemorySystem) (now : datetime) : Prop :=
  comparable (working_rank now) (working_memory sys)
  ∧ comparable short_term_rank ((snd <$> short_term_memory sys) ++ working_memory sys).

(** ** Persistence, as the specification words it *)

(** The test of the specification: an importance above 0.7, or more than
    five accesses. *)
Definition persist_condition (m : MemoryNode) : Prop :=
  PrimFloat.ltb 0.7 (importance_score m) = true ∨ (5 < access_count m)%Z.

#[global] Instance persist_condition_dec (m : MemoryNode) : Decision (persist_condition m) :=
  ltac:(unfold persist_condition; apply _).

(** The short-term dict holds each node under the id of the node, once. *)
Definition keyed_by_id (short_term : list (string * MemoryNode)) : Prop :=
  NoDup short_term.*1 ∧ Forall (λ kv, kv.1 = node_id kv.2) short_term.

(** The tiers as the system keeps them: the deque is within the working size
    of the controller, the short-term dict is keyed by id, and the ranks of
    its nodes can be compared. *)
Definition well_kept (sys : CognitiveMemorySystem) : Prop :=
  length (working_memory sys) ≤ working_memory_size (memory_controller sys)
  ∧ keyed_by_id (short_term_memory sys)
  ∧ comparable short_term_rank (snd <$> short_term_memory sys).

(** The pass gets as far as its commit: it returns when the commit goes
    through and ends with the failure of the commit otherwise; it is not cut
    short while it persists. *)
Definition reaches_commit (sys : CognitiveMemorySystem) (now : datetime)
    (commit_ok : bool) : Prop :=
  (_consolidate_memories sys now commit_ok).2
  = if commit_ok then Ok tt else Raise StoreUnavailable.

(** ** Spreading activation, as the specification words it *)

(** The state of the walk: the work queue, the ids visited and the
    activation scores. *)
Record walk := mkWalk {
  w_queue : list (candidate * float);
  w_visited : gset string;
  w_scores : list (string * float)
}.

(** What one link [(neighbor, strength)] of a node of activation [a] does to
    the scores and the queue. The value spread is [a * strength * d]. If it
    is not above 0.1, nothing changes. If it is and the neighbour has a
    score, the score becomes the greater of the two. If it is and the
    neighbour has no score, the value is its score, and the neighbour joins
    the queue with that value when it is a resident of the short-term tier,
    and only then. *)
Inductive link_effect (short_term : list (string * MemoryNode)) (a d : float)
    (neighbor : string) (strength : float)
  : list (string * float) * list (candidate * float)
    → list (string * float) * list (candidate * float) → Prop :=
| link_dropped scores queue :
    PrimFloat.ltb 0.1 (a * strength * d) = false →
    link_effect short_term a d neighbor strength (scores, queue) (scores, queue)
| link_updated scores queue existing :
    PrimFloat.ltb 0.1 (a * strength * d) = true →
    assoc_get neighbor scores = Some existing →
    link_effect short_term a d neighbor strength (scores, queue)
      (assoc_set neighbor
         (if PrimFloat.ltb existing (a * strength * d)
          then (a * strength * d)%float else existing) scores,
       queue)
| link_leaf scores queue :
    PrimFloat.ltb 0.1 (a * strength * d) = true →
    assoc_get neighbor scores = None →
    assoc_get neighbor short_term = None →
    link_effect short_term a d neighbor strength (scores, queue)
      (assoc_set neighbor (a * strength * d)%float scores, queue)
| link_resident scores queue node :
    PrimFloat.ltb 0.1 (a * strength * d) = true →
    assoc_get neighbor scores = None →
    assoc_get neighbor short_term = Some node →
    link_effect short_term a d neighbor strength (scores, queue)
      (assoc_set neighbor (a * strength * d)%float scores,
       queue ++ [((InShortTerm neighbor, node), (a * strength * d)%float)]).

(** The links of a node, one after the other. *)
Inductive links_effect (short_term : list (string * MemoryNode)) (a d : float)
  : list (string * float)
    → list (string * float) * list (candidate * float)
    → list (string * float) * list (candidate * float) → Prop :=
| links_done s : links_effect short_term a d [] s s
| links_next neighbor strength rest s s' s'' :
    link_effect short_term a d neighbor strength s s' →
    links_effect short_term a d rest s' s'' →
    links_effect short_term a d ((neighbor, strength) :: rest) s s''.

(** One turn of the walk: the head of the queue is popped; if its id is
    visited nothing else happens, otherwise the id is marked visited and
    each link of the node has its effect. *)
Inductive turn (short_term : list (string * MemoryNode)) (d : float) : walk → walk → Prop :=
| turn_visited o m a queue visited scores :
    node_id m ∈ visited →
    turn short_term d (mkWalk (((o, m), a) :: queue) visited scores)
                      (mkWalk queue visited scores)
| turn_spread o m a queue visited scores scores' queue' :
    node_id m ∉ visited →
    links_effect short_term a d (connections m) (scores, queue) (scores', queue') →
    turn short_term d (mkWalk (((o, m), a) :: queue) visited scores)
                      (mkWalk queue' ({[node_id m]} ∪ visited) scores').

(** ** Statements of the specification that the code does not meet *)

(** The eviction policy of the working tier: the node that leaves a full
    tier on a store is one that no resident ranks below, and it is found in
    the short-term tier afterwards; the tier ends at its capacity. *)
Definition evicts_lowest_ranked_into_short_term : Prop :=
  ∀ swallows (sys : CognitiveMemorySystem) message_id content importance emb now,
    reachable swallows sys →
    length (working_memory sys) = working_maxlen →
    let sys' := (store_interaction sys message_id content importance (Ok emb) now).1 in
    length (working_memory sys') = working_maxlen
    ∧ ∀ evicted,
        evicted ∈ working_memory sys →
        node_id evicted ∉ (node_id <$> working_memory sys') →
        (∀ m, m ∈ working_memory sys →
              flt (working_rank now m) (working_rank now evicted) = false)
        ∧ is_Some (assoc_get (node_id evicted) (short_term_memory sys')).

(** The handling of vectors of zero magnitude: no candidate of the tiers has
    an embedding of zero magnitude, and against a query of zero magnitude the
    similarity is 0. *)
Definition zero_magnitude_excluded : Prop :=
  ∀ (sys : CognitiveMemorySystem) q c s e,
    (c, s) ∈ working_candidates sys q ++ short_term_candidates sys q →
    embedding c.2 = Some e →
    PrimFloat.eqb (norm e) 0 = false
    ∧ (PrimFloat.eqb (norm q) 0 = true → PrimFloat.eqb s 0 = true).

(** The range of the scores: in every state that the operations produce, the
    importance of each resident node and the strength of each of its links
    are within [0, 1]. *)
Definition scores_stay_in_unit_interval : Prop :=
  ∀ swallows now0 db ops m,
    m ∈ working_memory (run swallows (new_system now0 db) ops) →
    in_unit_interval (importance_score m) = true
    ∧ ∀ l, l ∈ connections m → in_unit_interval l.2 = true.



(** Idempotence of the pass: the second of two passes in a row finds no
    node to persist and no id to remove, and leaves the tiers and the
    durable store as the first pass left them. *)
Definition second_pass_is_idle : Prop :=
  ∀ sys now1 commit1 now2 commit2,
    well_kept sys → reaches_commit sys now1 commit1 →
    let sys1 := (_consolidate_memories sys now1 commit1).1 in
    let sys2 := (_consolidate_memories sys1 now2 commit2).1 in
    (consolidate_memories (memory_controller sys1) now2 (working_memory sys1)
                          (snd <$> short_term_memory sys1)).2 = ([], [])
    ∧ working_memory sys2 = working_memory sys1
    ∧ short_term_memory sys2 = short_term_memory sys1
    ∧ database sys2 = database sys1.

(** ** Scenarios *)

Definition empty_db : Database := mkDatabase [] [].

(** The importance of the [i]-th of a run of stores: it falls by 0.01 from
    0.9. *)
Definition falling (i : nat) : float :=
  (0.9 - 0.01 * float_of_Z (Z.of_nat i))%float.

(** The [i]-th store of a run, one second after the one before, of a node
    without embedding. *)
Definition store_nth (importance : nat → float) (i : nat) : operation :=
  StoreInteraction (pretty i) [] (importance i) (Ok None) (Z.of_nat i * 1000000)%Z.

(** Twenty stored nodes: a full deque. *)
Definition twenty : CognitiveMemorySystem :=
  run false (new_system 0%Z empty_db) (store_nth falling <$> seq 0 20).

(** The two nodes of scenario 2, of cosine similarity 0.85, then a third node
    of similarity 0.5 to each of them. *)
Definition scenario_2 : CognitiveMemorySystem :=
  run false (new_system 0%Z empty_db)
      [StoreInteraction "a" [] 0.5 (Ok (Some [1; 0; 0; 0; 0]%float)) 0%Z;
       StoreInteraction "b" [] 0.5 (Ok (Some [17; 10; 3; 1; 1]%float)) 1000000%Z;
       StoreInteraction "c" [] 0.5 (Ok (Some [1; 0; 1; 1; -1]%float)) 2000000%Z].

(** A short-term entry under the id of its node. *)
Definition resident (name : string) (importance : float) (accesses : Z)
  : string * MemoryNode :=
  (name, mkNode name [] None 0%Z accesses 0%Z importance 0.1 []
                [("sender", Some "ann@example.org")]).

(** A short-term tier over its capacity: a hundred nodes of importance 0.9,
    then the node of scenario 3 (importance 0.8, one access) and the node of
    scenario 4 (importance 0.4, two accesses); the durable store has the
    profile of their sender, whose importance is 0.995. No sequence of
    operations builds this state; it is one in which the cutoff has
    something beyond it. *)
Definition crowded : CognitiveMemorySystem :=
  mkSystem (default_controller 0%Z) []
           (((λ i, resident ("top_" +:+ pretty i) 0.9 0%Z) <$> seq 0 100)
            ++ [resident "scenario_3" 0.8 1; resident "scenario_4" 0.4 2])
           ∅
           (mkDatabase [] [mkProfile "ann@example.org" 3 None 0.995]).

(** One stored node, with an embedding. *)
Definition one_node : CognitiveMemorySystem :=
  run false (new_system 0%Z empty_db)
      [StoreInteraction "a" [] 0.5 (Ok (Some [1; 0]%float)) 0%Z].

(** One stored node whose embedding is the zero vector. *)
Definition zero_node : CognitiveMemorySystem :=
  run false (new_system 0%Z empty_db)
      [StoreInteraction "z" [] 0.5 (Ok (Some [0; 0]%float)) 0%Z].

(** A store with an importance of 1.5. *)
Definition overstated : CognitiveMemorySystem :=
  run false (new_system 0%Z empty_db)
      [StoreInteraction "a" [] 1.5 (Ok None) 0%Z].

(** Two stores of the vector [[1; 1; 1]]: the quotient that links them is
    [3 / (sqrt 3 * sqrt 3)], which rounds above 1. *)
Definition twins : CognitiveMemorySystem :=
  run false (new_system 0%Z empty_db)
      [StoreInteraction "a" [] 0.5 (Ok (Some [1; 1; 1]%float)) 0%Z;
       StoreInteraction "b" [] 0.5 (Ok (Some [1; 1; 1]%float)) 1000000%Z].

(** A node that has only an id and links. *)
Definition node_with_links (name : string) (links : list (string * float)) : MemoryNode :=
  mkNode name [] None 0%Z 0 0%Z 0.5 0.1 links [].


(** ** Vocabulary of the further properties *)

(** One day, in microseconds. *)
Definition one_day : Z := 86400000000.

(** The passes among a list of operations. *)
Definition is_pass (op : operation) : Prop :=
  match op with RunConsolidation _ _ => True | _ => False end.

(** No entry of the adjacency index links an id to itself, and no resident
    node is connected to its own id. *)
Definition no_self_link (sys : CognitiveMemorySystem) : Prop :=
  (∀ a s, (a, s) ∉ graph_lookup (memory_graph sys) a)
  ∧ (∀ m s, m ∈ working_memory sys → (node_id m, s) ∉ connections m).

(** A durable store in which two profiles have the address of the sender of
    the node of scenario 3. *)
Definition two_profiles : CognitiveMemorySystem :=
  mkSystem (memory_controller crowded) (working_memory crowded)
           (short_term_memory crowded) (memory_graph crowded)
           (mkDatabase [] [mkProfile "ann@example.org" 3 None 0.5;
                           mkProfile "ann@example.org" 1 None 0.5]).

(** The ids of the nodes that a list of operations stores, in the order of
    the calls: one for each [store_interaction] whose embedding call
    returns. *)
Definition stored_ids (ops : list operation) : list string :=
  omap (λ op, match op with
              | StoreInteraction message_id _ _ (Ok _) _ => Some ("mem_" +:+ message_id)
              | _ => None
              end) ops.

(** The place in the working deque of the object behind a candidate, when
    it is an object of that tier. *)
Definition working_index (o : origin) : option nat :=
  match o with InWorking i => Some i | _ => None end.

(** The vector that a store receives from the embedding service, if any,
    has [n] items. *)
Definition of_dimension (n : nat) (op : operation) : Prop :=
  match op with
  | StoreInteraction _ _ _ (Ok (Some e)) _ => length e = n
  | _ => True
  end.

(** Every embedding of the two tiers has [n] items. *)
Definition uniform_dimension (n : nat) (sys : CognitiveMemorySystem) : Prop :=
  ∀ m e, m ∈ working_memory sys ++ (snd <$> short_term_memory sys) →
         embedding m = Some e → length e = n.

(** * Properties *)

(** ** Dictionaries and sorting *)

Lemma assoc_get_set {V : Type} (k k' : string) (v : V) (d : list (string * V)) :
  assoc_get k (assoc_set k' v d) = if bool_decide (k' = k) then Some v else assoc_get k d.
Proof.
  induction d as [|[k0 v0] d IH]; simpl.
  - done.
  - destruct (bool_decide_reflect (k0 = k')) as [->|Hne]; simpl.
    + destruct (bool_decide (k' = k)); done.
    + rewrite IH. destruct (bool_decide_reflect (k0 = k)) as [->|]; last done.
      rewrite bool_decide_false; done.
Qed.

Lemma length_insert_desc {A : Type} (key : A → float) (x : A) (l : list A) :
  length (insert_desc key x l) = S (length l).
Proof.
  induction l as [|y l IH]; simpl; first done.
  destruct (flt (key y) (key x)); simpl; by rewrite ?IH.
Qed.

Lemma length_sorted_desc {A : Type} (key : A → float) (l : list A) :
  length (sorted_desc key l) = length l.
Proof.
  unfold sorted_desc.
  assert (∀ acc, length (fold_left (λ acc x, insert_desc key x acc) l acc)
                 = length l + length acc) as H.
  { induction l as [|x l IH]; intros acc; simpl; first done.
    rewrite IH, length_insert_desc. lia. }
  rewrite H. simpl. lia.
Qed.

Lemma sorted_desc_nil {A : Type} (key : A → float) : sorted_desc key [] = [].
Proof. done. Qed.

(** The order of the floats, on numbers that are not NaN. *)

Lemma Prim2SF_not_nan (x : float) : PrimFloat.is_nan x = false → Prim2SF x ≠ S754_nan.
Proof.
  intros H. unfold Prim2SF. rewrite H.
  destruct (PrimFloat.is_zero x); first done.
  destruct (PrimFloat.is_infinity x); first done.
  destruct (Z.frexp x) as [r e].
  destruct (shr_fexp _ _ _ _ _) as [shr e'].
  by destruct (shr_m shr).
Qed.

Lemma SFltb_le_lt (y z x : spec_float) :
  y ≠ S754_nan → z ≠ S754_nan →
  SFltb y z = false → SFltb y x = true → SFltb z x = true.
Proof.
  intros Hy Hz. unfold SFltb, SFcompare.
  destruct y as [sy|sy| |sy my ey], z as [sz|sz| |sz mz ez], x as [sx|sx| |sx mx ex];
    try done;
    repeat match goal with s : bool |- _ => destruct s end; try done;
    change (Pos.compare_cont Eq ?a ?b) with (Pos.compare a b);
    repeat match goal with
      | |- context [Z.compare ?a ?b] => destruct (Z.compare_spec a b)
      | |- context [Pos.compare ?a ?b] => destruct (Pos.compare_spec a b)
      end; simpl; try done; try lia.
Qed.

Lemma ltb_le_lt (y z x : float) :
  PrimFloat.is_nan y = false → PrimFloat.is_nan z = false →
  PrimFloat.ltb y z = false → PrimFloat.ltb y x = true → PrimFloat.ltb z x = true.
Proof.
  intros Hy Hz. rewrite !FloatAxioms.ltb_spec.
  apply SFltb_le_lt; by apply Prim2SF_not_nan.
Qed.

Lemma ltb_asym (x y : float) : PrimFloat.ltb x y = true → PrimFloat.ltb y x = false.
Proof.
  rewrite !FloatAxioms.ltb_spec. unfold SFltb, SFcompare.
  destruct (Prim2SF x) as [sx|sx| |sx mx ex], (Prim2SF y) as [sy|sy| |sy my ey];
    try done;
    repeat match goal with s : bool |- _ => destruct s end; try done;
    change (Pos.compare_cont Eq ?a ?b) with (Pos.compare a b);
    repeat match goal with
      | |- context [Z.compare ?a ?b] => destruct (Z.compare_spec a b)
      | |- context [Pos.compare ?a ?b] => destruct (Pos.compare_spec a b)
      end; simpl; try done; try lia.
Qed.

Lemma SFeqb_not_below (a b k : spec_float) :
  SFeqb a k = true → SFeqb b k = true → SFltb a b = false.
Proof.
  unfold SFeqb, SFltb, SFcompare.
  destruct a as [sa|sa| |sa ma ea], b as [sb|sb| |sb mb eb], k as [sk|sk| |sk mk ek];
    try done;
    repeat match goal with s : bool |- _ => destruct s end; try done;
    change (Pos.compare_cont Eq ?a ?b) with (Pos.compare a b);
    repeat match goal with
      | |- context [Z.compare ?a ?b] => destruct (Z.compare_spec a b)
      | |- context [Pos.compare ?a ?b] => destruct (Pos.compare_spec a b)
      end; simpl; try done; try lia.
Qed.

Lemma eqb_not_below (a b k : float) :
  PrimFloat.eqb a k = true → PrimFloat.eqb b k = true → PrimFloat.ltb a b = false.
Proof. rewrite !FloatAxioms.eqb_spec, FloatAxioms.ltb_spec. apply SFeqb_not_below. Qed.

(** Lists: filters, and lists without duplicates. *)

Lemma filter_ext_in {A : Type} (P Q : A → Prop)
    `{!∀ x, Decision (P x), !∀ x, Decision (Q x)} (l : list A) :
  (∀ x, x ∈ l → (P x ↔ Q x)) → filter P l = filter Q l.
Proof.
  induction l as [|x l IH]; intros Hl; first done.
  rewrite !filter_cons, IH.
  - destruct (decide (P x)) as [Hp|Hp], (decide (Q x)) as [Hq|Hq]; try done;
      exfalso; [apply Hq | apply Hp]; by apply (Hl x); [apply elem_of_cons; left|].
  - intros y Hy. apply Hl, elem_of_cons. by right.
Qed.

Lemma filter_all {A : Type} (P : A → Prop) `{!∀ x, Decision (P x)} (l : list A) :
  Forall P l → filter P l = l.
Proof.
  induction 1 as [|x l Hx _ IH]; first done.
  by rewrite filter_cons_True, IH.
Qed.

Lemma filter_none {A : Type} (P : A → Prop) `{!∀ x, Decision (P x)} (l : list A) :
  Forall (λ x, ¬ P x) l → filter P l = [].
Proof.
  induction 1 as [|x l Hx _ IH]; first done.
  by rewrite filter_cons_False.
Qed.

Lemma NoDup_fmap_eq {A B : Type} (f : A → B) (l : list A) x y :
  NoDup (f <$> l) → x ∈ l → y ∈ l → f x = f y → x = y.
Proof.
  induction l as [|z l IH]; simpl.
  { intros _ Hx. by apply elem_of_nil in Hx. }
  rewrite NoDup_cons. intros [Hz Hnd] [->|Hx]%elem_of_cons [->|Hy]%elem_of_cons Hf.
  - done.
  - exfalso. apply Hz. rewrite Hf. by apply list_elem_of_fmap_2.
  - exfalso. apply Hz. rewrite <- Hf. by apply list_elem_of_fmap_2.
  - by apply IH.
Qed.

Lemma StronglySorted_lookup {A : Type} (R : A → A → Prop) (l : list A) i j x y :
  StronglySorted R l → i < j → l !! i = Some x → l !! j = Some y → R x y.
Proof.
  intros Hs Hij Hi Hj.
  rewrite <- (take_drop j l) in Hs.
  apply (StronglySorted_app_1_elem_of _ _ _ _ _ Hs).
  - apply list_elem_of_lookup. exists i. by rewrite lookup_take_lt.
  - apply list_elem_of_lookup. exists 0. by rewrite lookup_drop, Nat.add_0_r.
Qed.

(** The sort: a permutation, in descending order when the keys can be
    compared, and one that commutes with the removal of items. *)

Lemma insert_desc_perm {A : Type} (key : A → float) (x : A) (l : list A) :
  insert_desc key x l ≡ₚ x :: l.
Proof.
  induction l as [|y l IH]; simpl; first done.
  destruct (flt (key y) (key x)); first done.
  rewrite IH. apply Permutation_swap.
Qed.

Lemma sorted_desc_perm {A : Type} (key : A → float) (l : list A) :
  sorted_desc key l ≡ₚ l.
Proof.
  unfold sorted_desc.
  assert (∀ acc, fold_left (λ acc x, insert_desc key x acc) l acc ≡ₚ l ++ acc) as H.
  { induction l as [|x l IH]; intros acc; simpl; first done.
    rewrite IH, insert_desc_perm. by rewrite Permutation_middle. }
  rewrite H. by rewrite app_nil_r.
Qed.

Lemma insert_desc_elem_of {A : Type} (key : A → float) (x y : A) (l : list A) :
  y ∈ insert_desc key x l ↔ y = x ∨ y ∈ l.
Proof.
  induction l as [|z l IH]; simpl.
  - rewrite list_elem_of_singleton, elem_of_nil. tauto.
  - destruct (flt (key z) (key x)); rewrite !elem_of_cons; [tauto|].
    rewrite IH. tauto.
Qed.

Lemma insert_desc_sorted {A : Type} (key : A → float) (x : A) (l : list A) :
  PrimFloat.is_nan (key x) = false → comparable key l →
  StronglySorted (not_below key) l →
  StronglySorted (not_below key) (insert_desc key x l).
Proof.
  unfold comparable. rewrite Forall_forall.
  intros Hx Hl Hs. induction Hs as [|y l Hs IH Hy]; simpl.
  - repeat constructor.
  - destruct (flt (key y) (key x)) eqn:E.
    + constructor; first by constructor.
      assert (PrimFloat.is_nan (key y) = false) as Hny.
      { apply Hl, elem_of_cons. by left. }
      constructor.
      * by apply ltb_asym.
      * rewrite Forall_forall in Hy |- *. intros z Hz.
        apply ltb_asym.
        apply (ltb_le_lt (key y)); [done | | by apply Hy | done].
        apply Hl, elem_of_cons. by right.
    + constructor.
      * apply IH. intros z Hz. apply Hl, elem_of_cons. by right.
      * rewrite Forall_forall in Hy |- *. intros z [->|Hz]%insert_desc_elem_of.
        -- exact E.
        -- by apply Hy.
Qed.

Lemma comparable_insert_desc {A : Type} (key : A → float) (x : A) (l : list A) :
  PrimFloat.is_nan (key x) = false → comparable key l →
  comparable key (insert_desc key x l).
Proof.
  unfold comparable. rewrite !Forall_forall.
  intros Hx Hl y [->|Hy]%insert_desc_elem_of; [done | by apply Hl].
Qed.

Lemma sorted_desc_sorted {A : Type} (key : A → float) (l : list A) :
  comparable key l → StronglySorted (not_below key) (sorted_desc key l).
Proof.
  unfold sorted_desc.
  assert (∀ acc, comparable key l → comparable key acc →
                 StronglySorted (not_below key) acc →
                 StronglySorted (not_below key)
                   (fold_left (λ acc x, insert_desc key x acc) l acc)) as H.
  { induction l as [|x l IH]; intros acc Hl Hacc Hs; simpl; first done.
    apply Forall_cons in Hl as [Hx Hl].
    apply IH; [done | by apply comparable_insert_desc | by apply insert_desc_sorted]. }
  intros Hl. apply H; [done | apply Forall_nil_2 | constructor].
Qed.

Lemma insert_desc_filter_out {A : Type} (key : A → float) (P : A → Prop)
    `{!∀ x, Decision (P x)} (x : A) (l : list A) :
  ¬ P x → filter P (insert_desc key x l) = filter P l.
Proof.
  intros Hx. induction l as [|y l IH]; simpl.
  - by rewrite filter_cons_False.
  - destruct (flt (key y) (key x)).
    + by rewrite (filter_cons_False _ x).
    + rewrite !(filter_cons _ y), IH. done.
Qed.

Lemma insert_desc_front {A : Type} (key : A → float) (x : A) (l : list A) :
  Forall (λ z, PrimFloat.ltb (key z) (key x) = true) l →
  insert_desc key x l = x :: l.
Proof.
  destruct 1 as [|z l Hz _]; simpl; first done.
  unfold flt. by rewrite Hz.
Qed.

Lemma insert_desc_filter_in {A : Type} (key : A → float) (P : A → Prop)
    `{!∀ x, Decision (P x)} (x : A) (l : list A) :
  P x → comparable key l → StronglySorted (not_below key) l →
  filter P (insert_desc key x l) = insert_desc key x (filter P l).
Proof.
  intros Hx Hl Hs. induction Hs as [|y l Hs IH Hy]; simpl.
  - by rewrite filter_cons_True.
  - apply Forall_cons in Hl as [Hny Hl].
    destruct (flt (key y) (key x)) eqn:E.
    + rewrite (filter_cons_True _ x) by done.
      rewrite (filter_cons _ y). destruct (decide (P y)) as [Hpy|Hpy].
      * simpl. by rewrite E.
      * symmetry. apply insert_desc_front.
        apply Forall_forall. intros z Hz%list_elem_of_filter.
        destruct Hz as [_ Hz].
        rewrite Forall_forall in Hy, Hl.
        apply (ltb_le_lt (key y)); [done | by apply Hl | by apply Hy | done].
    + rewrite !(filter_cons _ y). destruct (decide (P y)); simpl.
      * rewrite E. f_equal. by apply IH.
      * by apply IH.
Qed.

Lemma sorted_desc_filter {A : Type} (key : A → float) (P : A → Prop)
    `{!∀ x, Decision (P x)} (l : list A) :
  comparable key l →
  sorted_desc key (filter P l) = filter P (sorted_desc key l).
Proof.
  unfold sorted_desc.
  assert (∀ acc, comparable key l → comparable key acc →
                 StronglySorted (not_below key) acc →
                 fold_left (λ acc x, insert_desc key x acc) (filter P l) (filter P acc)
                 = filter P (fold_left (λ acc x, insert_desc key x acc) l acc)) as Hgen.
  { induction l as [|x l IH]; intros acc Hl Hacc Hs; simpl; first done.
    apply Forall_cons in Hl as [Hx Hl].
    rewrite filter_cons. destruct (decide (P x)) as [Hpx|Hpx]; simpl.
    - rewrite <- (insert_desc_filter_in key P) by done.
      apply IH; [done | by apply comparable_insert_desc | by apply insert_desc_sorted].
    - rewrite <- (insert_desc_filter_out key P x acc) by done.
      apply IH; [done | by apply comparable_insert_desc | by apply insert_desc_sorted]. }
  intros Hl. apply (Hgen [] Hl); [apply Forall_nil_2 | constructor].
Qed.

Lemma insert_desc_back {A : Type} (key : A → float) (x : A) (l : list A) :
  Forall (λ z, not_below key z x) l → insert_desc key x l = l ++ [x].
Proof.
  induction 1 as [|z l Hz _ IH]; simpl; first done.
  unfold flt. unfold not_below in Hz. by rewrite Hz, IH.
Qed.

Lemma sorted_desc_of_sorted {A : Type} (key : A → float) (l : list A) :
  StronglySorted (not_below key) l → sorted_desc key l = l.
Proof.
  unfold sorted_desc.
  assert (∀ acc, StronglySorted (not_below key) (acc ++ l) →
                 fold_left (λ acc x, insert_desc key x acc) l acc = acc ++ l) as H.
  { induction l as [|x l IH]; intros acc Hs; simpl; first by rewrite app_nil_r.
    rewrite insert_desc_back.
    - rewrite IH; rewrite <- app_assoc; done.
    - apply Forall_forall. intros z Hz.
      apply (StronglySorted_app_1_elem_of _ acc (x :: l)); [done | done |].
      apply elem_of_cons. by left. }
  intros Hs. by apply (H []).
Qed.

(** ** The bounded deque *)

Lemma length_deque_append {A : Type} (maxlen : nat) (d : list A) (x : A) :
  length (deque_append maxlen d x) = min (S (length d)) maxlen.
Proof.
  unfold deque_append. rewrite length_drop, length_app. simpl length. lia.
Qed.

Lemma deque_append_full {A : Type} (d : list A) (x : A) :
  length d = working_maxlen →
  deque_append working_maxlen d x = drop 1 d ++ [x].
Proof.
  intros Hlen. unfold deque_append.
  replace (length (d ++ [x]) - working_maxlen) with 1
    by (rewrite length_app; simpl; lia).
  apply drop_app_le. rewrite Hlen. unfold working_maxlen. lia.
Qed.

Lemma deque_append_room {A : Type} (d : list A) (x : A) :
  length d < working_maxlen →
  deque_append working_maxlen d x = d ++ [x].
Proof.
  intros Hlen. unfold deque_append. rewrite length_app. simpl.
  replace (length d + 1 - working_maxlen) with 0 by lia. done.
Qed.

(** ** The connection loop *)

Lemma connect_all_spec new_id e memories c g :
  connect_all new_id e memories c g
  = (linked new_id e <$> memories,
     c ++ omap (link_of new_id e) memories,
     foldl (index_link new_id) g (omap (link_of new_id e) memories)).
Proof.
  revert c g. induction memories as [|m ms IH]; intros c g; simpl.
  - by rewrite app_nil_r.
  - unfold linked, link_of.
    destruct (bool_decide (node_id m = new_id)); simpl.
    { by rewrite IH. }
    destruct (embedding m) as [e'|]; simpl; last by rewrite IH.
    destruct (fgt (cosine_similarity e e') 0.7); simpl; rewrite IH; last done.
    by rewrite <- app_assoc.
Qed.

(** ** What the public operations keep true *)

Lemma length_replace_last {A : Type} (l : list A) (x : A) :
  length (replace_last l x) = length l.
Proof.
  destruct l as [|y l]; first done.
  unfold replace_last. rewrite length_app, length_take. simpl. lia.
Qed.

Lemma update_memory_connections_fields sys new_node :
  let sys' := (_update_memory_connections sys new_node).1 in
  memory_controller sys' = memory_controller sys
  ∧ database sys' = database sys
  ∧ length (working_memory sys') = length (working_memory sys)
  ∧ fst <$> short_term_memory sys' = fst <$> short_term_memory sys.
Proof.
  unfold _update_memory_connections.
  destruct (embedding new_node) as [e|]; simpl; last done.
  rewrite !connect_all_spec. simpl.
  rewrite length_replace_last, length_fmap. repeat split.
  apply fst_zip. rewrite !length_fmap. done.
Qed.

Lemma store_interaction_fields sys message_id content importance created now :
  let sys' := (store_interaction sys message_id content importance created now).1 in
  memory_controller sys' = memory_controller sys
  ∧ database sys' = database sys
  ∧ fst <$> short_term_memory sys' = fst <$> short_term_memory sys
  ∧ length (working_memory sys') ≤ max (length (working_memory sys)) working_maxlen.
Proof.
  unfold store_interaction. destruct created as [emb|err]; simpl.
  2:{ repeat split. lia. }
  match goal with |- context [_update_memory_connections ?s ?n] =>
    pose proof (update_memory_connections_fields s n) as H;
    destruct (_update_memory_connections s n) as [sys2 node'] end.
  simpl in *. destruct H as (-> & -> & -> & ->).
  repeat split. rewrite length_deque_append. lia.
Qed.

Lemma store_interaction_shape sys message_id content importance created now :
  tiers_shape sys →
  tiers_shape (store_interaction sys message_id content importance created now).1.
Proof.
  intros (Hshort & Hlen & Hw & Hs).
  pose proof (store_interaction_fields sys message_id content importance created now)
    as (Hc & _ & Hkeys & Hlen').
  simpl in *. unfold tiers_shape. rewrite Hc. repeat split; try done.
  - rewrite Hshort in Hkeys. by apply fmap_nil_inv in Hkeys.
  - lia.
Qed.

Lemma fmap_alter_same {A B : Type} (f : A → B) (g : A → A) (i : nat) (l : list A) :
  (∀ x, f (g x) = f x) → f <$> alter g i l = f <$> l.
Proof.
  intros Hfg. revert i. induction l as [|x l IH]; intros [|i]; simpl; try done.
  - by rewrite Hfg.
  - f_equal. apply IH.
Qed.

Lemma touch_at_fields now sys o :
  let sys' := touch_at now sys o in
  memory_controller sys' = memory_controller sys
  ∧ database sys' = database sys
  ∧ memory_graph sys' = memory_graph sys
  ∧ fst <$> short_term_memory sys' = fst <$> short_term_memory sys
  ∧ (∀ (B : Type) (f : MemoryNode → B), untouched f →
       f <$> working_memory sys' = f <$> working_memory sys).
Proof.
  destruct o as [i|key|]; simpl; repeat split; try done.
  - intros B f Hf. by apply fmap_alter_same.
  - rewrite <- list_fmap_compose. apply list_fmap_ext. intros _ [k v] _. simpl.
    by destruct (bool_decide (k = key)).
Qed.

Lemma touch_all_fields now returned sys :
  let sys' :=
    foldl (fun s '((o, _), _) => touch_at now s o) sys
          (returned : list (candidate * float)) in
  memory_controller sys' = memory_controller sys
  ∧ database sys' = database sys
  ∧ memory_graph sys' = memory_graph sys
  ∧ fst <$> short_term_memory sys' = fst <$> short_term_memory sys
  ∧ (∀ (B : Type) (f : MemoryNode → B), untouched f →
       f <$> working_memory sys' = f <$> working_memory sys).
Proof.
  revert sys. induction returned as [|[[o m] a] returned IH]; intros sys; simpl.
  - done.
  - specialize (IH (touch_at now sys o)). simpl in IH.
    pose proof (touch_at_fields now sys o) as H. simpl in H.
    destruct IH as (-> & -> & -> & -> & IH), H as (-> & -> & -> & -> & H).
    repeat split. intros B f Hf. rewrite (IH B f Hf). by apply H.
Qed.

(** The candidates that come from the rows of the durable store are fresh
    objects. *)
Lemma scan_long_term_detached q now rows c :
  c ∈ (scan_long_term q now rows).1 → c.1.1 = Detached.
Proof.
  induction rows as [|ltm rows IH]; cbn [scan_long_term].
  { intros H. by apply elem_of_nil in H. }
  destruct (ltm_embedding ltm) as [[|b bs]|]; try done.
  destruct (frombuffer_float32 (b :: bs)) as [embedding|].
  2:{ intros H. by apply elem_of_nil in H. }
  destruct (bool_decide _).
  2:{ intros H. by apply elem_of_nil in H. }
  destruct (scan_long_term q now rows) as [candidates raised]. cbn [fst snd] in *.
  intros [->|H]%elem_of_cons; [done | by apply IH].
Qed.

(** The two ways a retrieval ends: with an exception and the system as it
    was, or with the [k] first of the memories that spreading activation
    ranks, each of them touched, the candidates being those of the tiers and
    fresh nodes. *)
Lemma retrieve_cases swallows sys query k db_up now :
  (∃ e, retrieve_relevant_memories swallows sys query k db_up now = (sys, Raise e))
  ∨ (∃ q candidates,
       query = Ok q
       ∧ (∀ c, c ∈ candidates →
               c ∈ working_candidates sys q ++ short_term_candidates sys q
               ∨ c.1.1 = Detached)
       ∧ let top_candidates := take (k * 2) (sorted_desc snd candidates) in
         let returned :=
           take k (_spreading_activation (short_term_memory sys) (fst <$> top_candidates)
                                         (snd <$> top_candidates) 0.7) in
         retrieve_relevant_memories swallows sys query k db_up now
         = (foldl (fun s '((o, _), _) => touch_at now s o) sys returned,
            Ok ((fun '((_, memory), score) =>
                   mkRetrieved (content memory) score (timestamp memory)
                               (importance_score memory) (metadata memory))
                  <$> returned))).
Proof.
  unfold retrieve_relevant_memories.
  destruct query as [q|err]; last by left; eexists.
  set (tiers := working_candidates sys q ++ short_term_candidates sys q).
  assert (∀ from_rows,
            (∀ c, c ∈ from_rows → c.1.1 = Detached) →
            ∀ c, c ∈ tiers ++ from_rows → c ∈ tiers ∨ c.1.1 = Detached) as Hfrom.
  { intros from_rows H c [?|?]%elem_of_app; [by left | right; by apply H]. }
  destruct db_up.
  - unfold long_term_candidates.
    pose proof (scan_long_term_detached q now
                  (take 50 (long_term_rows (database sys)))) as Hdet.
    destruct (scan_long_term q now (take 50 (long_term_rows (database sys))))
      as [from_rows [e|]]; simpl in Hdet.
    + destruct swallows; [right | left; by eexists].
      exists q, (tiers ++ from_rows). split; [done | split; [by apply Hfrom | done]].
    + right. exists q, (tiers ++ from_rows).
      split; [done | split; [by apply Hfrom | done]].
  - destruct swallows; [right | left; by eexists].
    exists q, (tiers ++ []). split; [done | split; [|done]].
    apply Hfrom. intros c H. by apply elem_of_nil in H.
Qed.

Lemma retrieve_fields swallows sys query k db_up now :
  let sys' := (retrieve_relevant_memories swallows sys query k db_up now).1 in
  memory_controller sys' = memory_controller sys
  ∧ database sys' = database sys
  ∧ memory_graph sys' = memory_graph sys
  ∧ fst <$> short_term_memory sys' = fst <$> short_term_memory sys
  ∧ (∀ (B : Type) (f : MemoryNode → B), untouched f →
       f <$> working_memory sys' = f <$> working_memory sys).
Proof.
  destruct (retrieve_cases swallows sys query k db_up now)
    as [[e ->]|(q & candidates & _ & _ & ->)]; simpl; [done|].
  apply touch_all_fields.
Qed.

Lemma retrieve_shape swallows sys query k db_up now :
  tiers_shape sys →
  tiers_shape (retrieve_relevant_memories swallows sys query k db_up now).1.
Proof.
  intros (Hshort & Hlen & Hw & Hs).
  pose proof (retrieve_fields swallows sys query k db_up now)
    as (Hc & _ & _ & Hkeys & Hsame).
  simpl in *. unfold tiers_shape. rewrite Hc. repeat split; try done.
  - rewrite Hshort in Hkeys. by apply fmap_nil_inv in Hkeys.
  - specialize (Hsame _ node_id (λ _ _, eq_refl)).
    apply (f_equal length) in Hsame. rewrite !length_fmap in Hsame. lia.
Qed.

(** A pass over tiers of that shape finds nothing to move: the slice
    [working_sorted[working_memory_size:]] is empty, and so is the list that
    is sorted and cut for the short-term tier. *)
Lemma consolidate_memories_shape sys now :
  tiers_shape sys →
  drop (working_memory_size (memory_controller sys))
       (sorted_desc (working_rank now) (working_memory sys)) = []
  ∧ (consolidate_memories (memory_controller sys) now (working_memory sys)
                          (snd <$> short_term_memory sys)).2 = ([], []).
Proof.
  intros (Hshort & Hlen & Hw & Hs).
  assert (drop (working_memory_size (memory_controller sys))
               (sorted_desc (working_rank now) (working_memory sys)) = []) as Hdrop.
  { apply drop_ge. rewrite length_sorted_desc, Hw. done. }
  split; first done.
  unfold consolidate_memories. simpl. rewrite Hdrop, Hshort. simpl.
  rewrite sorted_desc_nil, drop_nil. done.
Qed.

Lemma consolidate_shape sys now commit_ok :
  tiers_shape sys →
  let sys' := (_consolidate_memories sys now commit_ok).1 in
  tiers_shape sys'
  ∧ working_memory sys' = working_memory sys
  ∧ short_term_memory sys' = short_term_memory sys
  ∧ memory_graph sys' = memory_graph sys
  ∧ database sys' = database sys.
Proof.
  intros Hshape.
  pose proof (consolidate_memories_shape sys now Hshape) as [_ Hnone].
  destruct Hshape as (Hshort & Hlen & Hw & Hs).
  unfold _consolidate_memories.
  unfold consolidate_memories in *. simpl in *. rewrite Hnone. simpl.
  destruct commit_ok; simpl; unfold tiers_shape; simpl; done.
Qed.

Lemma step_shape swallows sys op :
  tiers_shape sys → tiers_shape (step swallows sys op).
Proof.
  intros H. destruct op; simpl.
  - by apply store_interaction_shape.
  - by apply retrieve_shape.
  - by apply consolidate_shape.
Qed.

Lemma reachable_run swallows now db ops :
  reachable swallows (run swallows (new_system now db) ops).
Proof.
  unfold run. induction ops as [|op ops IH] using rev_ind; simpl.
  - constructor.
  - rewrite foldl_app. simpl. by constructor.
Qed.

Lemma reachable_shape swallows sys :
  reachable swallows sys → tiers_shape sys.
Proof.
  induction 1 as [now db|sys op _ IH].
  - unfold tiers_shape, working_maxlen. simpl. repeat split; lia.
  - by apply step_shape.
Qed.



(** ** What one call of [store_interaction] does *)

Lemma replace_last_snoc {A : Type} (l : list A) (y x : A) :
  replace_last (l ++ [y]) x = l ++ [x].
Proof.
  unfold replace_last. destruct (l ++ [y]) as [|z l'] eqn:E.
  { by destruct l. }
  rewrite <- E. f_equal.
  replace (length (l ++ [y]) - 1) with (length l) by (rewrite length_app; simpl; lia).
  by rewrite take_app_length.
Qed.

Lemma deque_append_snoc {A : Type} (d : list A) (x : A) :
  deque_append working_maxlen d x
  = drop (S (length d) - working_maxlen) d ++ [x].
Proof.
  unfold deque_append.
  replace (length (d ++ [x])) with (S (length d)) by (rewrite length_app; simpl; lia).
  apply drop_app_le. unfold working_maxlen. lia.
Qed.

Lemma link_of_same_id new_id e m : node_id m = new_id → link_of new_id e m = None.
Proof. intros H. unfold link_of. by rewrite bool_decide_true. Qed.

Lemma linked_same_id new_id e m : node_id m = new_id → linked new_id e m = m.
Proof. intros H. unfold linked. by rewrite link_of_same_id. Qed.

Lemma node_id_linked new_id e m : node_id (linked new_id e m) = node_id m.
Proof. unfold linked. by destruct (link_of new_id e m) as [[? ?]|]. Qed.

Lemma store_interaction_spec sys message_id content importance emb now :
  let node := fresh_node message_id content importance emb now in
  store_interaction sys message_id content importance (Ok emb) now
  = match emb with
    | None =>
        (mkSystem (memory_controller sys) (kept sys ++ [node])
                  (short_term_memory sys) (memory_graph sys) (database sys),
         Ok node)
    | Some e =>
        let links :=
          omap (link_of (node_id node) e) (kept sys ++ (snd <$> short_term_memory sys)) in
        let node' := set_connections node links in
        (mkSystem (memory_controller sys)
                  ((linked (node_id node) e <$> kept sys) ++ [node'])
                  (zip (fst <$> short_term_memory sys)
                       (linked (node_id node) e <$> (snd <$> short_term_memory sys)))
                  (foldl (index_link (node_id node)) (memory_graph sys) links)
                  (database sys),
         Ok node')
    end.
Proof.
  unfold store_interaction, fresh_node, kept, _update_memory_connections. simpl.
  rewrite deque_append_snoc.
  destruct emb as [e|]; simpl; last done.
  rewrite !connect_all_spec. simpl.
  rewrite fmap_app, !omap_app. simpl.
  rewrite (link_of_same_id _ _ (mkNode _ _ _ _ _ _ _ _ _ _)) by done.
  rewrite (linked_same_id _ _ (mkNode _ _ _ _ _ _ _ _ _ _)) by done.
  simpl. rewrite app_nil_r, replace_last_snoc, foldl_app. done.
Qed.

(** ** The working tier on overflow (C1) *)

(** What the twenty-first call does to [twenty]: the node that leaves is
    ["mem_0"], the first stored; it out-ranks ["mem_19"], which stays; and the
    short-term tier is empty afterwards. *)
Lemma twenty_first_store :
  let now := 20000000%Z in
  let sys' :=
    (store_interaction twenty (pretty 20) [] (falling 20) (Ok None) now).1 in
  (node_id <$> working_memory twenty) !! 0 = Some "mem_0"
  ∧ ("mem_0" ∉ (node_id <$> working_memory sys'))
  ∧ "mem_19" ∈ (node_id <$> working_memory sys')
  ∧ (∃ first last,
        working_memory twenty !! 0 = Some first ∧ node_id first = "mem_0"
        ∧ working_memory twenty !! 19 = Some last ∧ node_id last = "mem_19"
        ∧ flt (working_rank now last) (working_rank now first) = true)
  ∧ short_term_memory sys' = [].
Proof.
  split; [by vm_compute|].
  split; [apply (bool_decide_unpack _); by vm_compute|].
  split; [apply (bool_decide_unpack _); by vm_compute|].
  split; [|by vm_compute].
  eexists _, _.
  split; [by vm_compute|]. split; [by vm_compute|].
  split; [by vm_compute|]. split; by vm_compute.
Qed.

(** C1, counterexample: the specification's eviction policy fails on the code.
    After twenty stores of falling importance the twenty-first evicts
    ["mem_0"], the oldest node and the highest-ranked one, and the node is
    not in the short-term tier. *)
Lemma C1_counterexample : ¬ evicts_lowest_ranked_into_short_term.
Proof.
  intros claim.
  destruct (claim false twenty (pretty 20) [] (falling 20) None 20000000%Z) as [_ H].
  { apply reachable_run. }
  { by vm_compute. }
  destruct twenty_first_store as (_ & Hout & _ & (first & last & H0 & Hid & _) & Hshort).
  destruct (H first) as [_ Hsome].
  - by eapply list_elem_of_lookup_2.
  - rewrite Hid. exact Hout.
  - rewrite Hshort in Hsome. by destruct Hsome.
Qed.

(** C1, as the code has it: a store into a full working tier drops the node
    at the left end of the deque, the oldest one, whatever its rank; the
    ids that remain are the other residents in their order, then the new
    node; the tier stays at its capacity of 20; and no key is added to the
    short-term tier, so the dropped node is in no tier. *)
Theorem C1_full_deque_drops_oldest
    (sys : CognitiveMemorySystem) message_id content importance emb now :
  length (working_memory sys) = working_maxlen →
  let sys' := (store_interaction sys message_id content importance (Ok emb) now).1 in
  node_id <$> working_memory sys'
    = drop 1 (node_id <$> working_memory sys) ++ ["mem_" +:+ message_id]
  ∧ length (working_memory sys') = working_maxlen
  ∧ fst <$> short_term_memory sys' = fst <$> short_term_memory sys.
Proof.
  intros Hlen. cbv zeta.
  pose proof (store_interaction_fields sys message_id content importance (Ok emb) now)
    as (_ & _ & Hkeys & _).
  split; [|split]; [| |exact Hkeys].
  - rewrite store_interaction_spec. unfold kept. rewrite Hlen.
    change (S working_maxlen - working_maxlen) with 1.
    destruct emb as [e|]; simpl; rewrite fmap_app, <- fmap_drop; simpl; [|done].
    rewrite <- list_fmap_compose. f_equal. apply list_fmap_ext.
    intros _ m _. apply node_id_linked.
  - rewrite store_interaction_spec. unfold kept. rewrite Hlen.
    change (S working_maxlen - working_maxlen) with 1.
    destruct emb as [e|]; simpl; rewrite length_app, ?length_fmap, length_drop, Hlen;
      unfold working_maxlen; simpl; lia.
Qed.

Lemma C1_full_deque_drops_oldest_witness :
  let sys' := (store_interaction twenty (pretty 20) [] (falling 20) (Ok None)
                                 20000000%Z).1 in
  node_id <$> working_memory sys'
    = drop 1 (node_id <$> working_memory twenty) ++ ["mem_" +:+ pretty 20]
  ∧ length (working_memory sys') = working_maxlen
  ∧ fst <$> short_term_memory sys' = fst <$> short_term_memory twenty.
Proof.
  apply (C1_full_deque_drops_oldest twenty (pretty 20) [] (falling 20) None 20000000%Z).
  vm_compute. reflexivity.
Defined.

(** ** The short-term tier is never filled (C10) *)

(** C10: in every state that a sequence of stores, retrievals and
    consolidation passes produces from a fresh system, the short-term tier is
    empty. A store only appends to the working deque, which keeps its last 20
    items and lets the oldest fall off; the deque never exceeds the
    controller's [working_memory_size], so the slice
    [working_sorted[working_memory_size:]] of a pass is empty, and a pass
    finds nothing to persist and nothing to remove. *)
Theorem C10_short_term_always_empty swallows now0 db ops :
  let sys := run swallows (new_system now0 db) ops in
  short_term_memory sys = []
  ∧ length (working_memory sys) ≤ working_maxlen
  ∧ working_memory_size (memory_controller sys) = working_maxlen
  ∧ (∀ message_id content importance emb now,
       let sys' := (store_interaction sys message_id content importance (Ok emb) now).1 in
       node_id <$> working_memory sys'
         = drop (S (length (working_memory sys)) - working_maxlen)
                (node_id <$> working_memory sys) ++ ["mem_" +:+ message_id]
       ∧ short_term_memory sys' = [])
  ∧ (∀ now,
       drop (working_memory_size (memory_controller sys))
            (sorted_desc (working_rank now) (working_memory sys)) = []
       ∧ (consolidate_memories (memory_controller sys) now (working_memory sys)
                               (snd <$> short_term_memory sys)).2 = ([], [])).
Proof.
  cbv zeta.
  pose proof (reachable_shape swallows _ (reachable_run swallows now0 db ops)) as Hshape.
  pose proof Hshape as (Hshort & Hlen & Hw & Hs).
  split; [done|]. split; [done|]. split; [done|]. split.
  - intros message_id content importance emb now. split.
    + rewrite store_interaction_spec. unfold kept.
      destruct emb as [e|]; simpl; rewrite fmap_app, <- fmap_drop; simpl; [|done].
      rewrite <- list_fmap_compose. f_equal. apply list_fmap_ext.
      intros _ m _. apply node_id_linked.
    + apply (store_interaction_shape _ message_id content importance (Ok emb) now Hshape).
  - intros now. by apply consolidate_memories_shape.
Qed.

(** ** The nodes beyond the short-term cutoff (C3) *)

Lemma partition_overflow_spec overflow :
  partition_overflow overflow
  = (filter (λ m, worth_persisting m = true) overflow,
     node_id <$> filter (λ m, worth_persisting m = false) overflow).
Proof.
  induction overflow as [|m l IH]; simpl; first done.
  rewrite IH, !filter_cons.
  destruct (worth_persisting m) eqn:E; simpl; done.
Qed.

Lemma persist_to_long_term_rows db now memory db' :
  _persist_to_long_term db now memory = Ok db' →
  long_term_rows db' = long_term_rows db ++ [long_term_row memory].
Proof.
  unfold _persist_to_long_term.
  destruct (dict_get (metadata memory) "sender") as [sender|]; last by intros [= <-].
  destruct (bool_decide (sender = "")); first by intros [= <-].
  destruct (filter _ (sender_profiles db)) as [|p [|p' ps]]; by intros [= <-].
Qed.

Lemma persist_all_rows db now to_persist db' :
  persist_all db now to_persist = Ok db' →
  long_term_rows db' = long_term_rows db ++ (long_term_row <$> to_persist).
Proof.
  revert db. induction to_persist as [|m l IH]; intros db; simpl.
  - intros [= <-]. by rewrite app_nil_r.
  - destruct (_persist_to_long_term db now m) as [db1|e] eqn:E; last done.
    intros H. rewrite (IH _ H), (persist_to_long_term_rows _ _ _ _ E), <- app_assoc.
    done.
Qed.

Lemma dict_pop_all ids (d : list (string * MemoryNode)) :
  foldl (fun d k => dict_pop k d) d ids = filter (λ kv, kv.1 ∉ ids) d.
Proof.
  revert d. induction ids as [|k ids IH]; intros d; simpl.
  - induction d as [|kv d IHd]; first done.
    rewrite filter_cons_True; [by f_equal | apply not_elem_of_nil].
  - rewrite IH. unfold dict_pop.
    induction d as [|kv d IHd]; first done.
    rewrite (filter_cons (λ kv, kv.1 ≠ k)), (filter_cons (λ kv, kv.1 ∉ k :: ids)).
    destruct (decide (kv.1 ≠ k)) as [Hne|Heq].
    + rewrite filter_cons. destruct (decide (kv.1 ∉ ids)) as [Hout|Hin].
      * rewrite decide_True by (rewrite not_elem_of_cons; done). by f_equal.
      * rewrite decide_False by (rewrite not_elem_of_cons; tauto). done.
    + rewrite decide_False; first done.
      rewrite not_elem_of_cons. tauto.
Qed.

Lemma consolidate_memories_plan c now working short_term :
  (consolidate_memories c now working short_term).2
  = partition_overflow
      (drop (short_term_size c)
            (sorted_desc short_term_rank
               (short_term ++ drop (working_memory_size c)
                                   (sorted_desc (working_rank now) working)))).
Proof. done. Qed.

Lemma consolidate_cases sys now commit_ok :
  let plan := (consolidate_memories (memory_controller sys) now (working_memory sys)
                                    (snd <$> short_term_memory sys)).2 in
  let c' := mkController (working_memory_size (memory_controller sys))
                         (short_term_size (memory_controller sys))
                         (consolidation_interval (memory_controller sys)) now in
  _consolidate_memories sys now commit_ok
  = match persist_all (database sys) now plan.1 with
    | Raise e =>
        (mkSystem c' (working_memory sys) (short_term_memory sys) (memory_graph sys)
                  (database sys), Raise e)
    | Ok db' =>
        let short_term' := filter (λ kv, kv.1 ∉ plan.2) (short_term_memory sys) in
        if commit_ok
        then (mkSystem c' (working_memory sys) short_term' (memory_graph sys) db', Ok tt)
        else (mkSystem c' (working_memory sys) short_term' (memory_graph sys)
                       (database sys), Raise StoreUnavailable)
    end.
Proof.
  cbv zeta. unfold _consolidate_memories, consolidate_memories. simpl.
  destruct (partition_overflow _) as [to_persist to_remove]. simpl.
  destruct (persist_all _ _ _); last done.
  by rewrite dict_pop_all.
Qed.

Lemma worth_persisting_true m : worth_persisting m = true ↔ persist_condition m.
Proof.
  unfold worth_persisting, persist_condition, fgt.
  by rewrite orb_true_iff, bool_decide_eq_true.
Qed.

Lemma worth_persisting_false m : worth_persisting m = false ↔ ¬ persist_condition m.
Proof. rewrite <- worth_persisting_true. by destruct (worth_persisting m). Qed.

Lemma partition_overflow_condition nodes :
  partition_overflow nodes
  = (filter persist_condition nodes,
     node_id <$> filter (λ m, ¬ persist_condition m) nodes).
Proof.
  rewrite partition_overflow_spec.
  f_equal; [|f_equal]; apply list_filter_iff;
    [exact worth_persisting_true | exact worth_persisting_false].
Qed.

Lemma plan_spec sys now :
  (consolidate_memories (memory_controller sys) now (working_memory sys)
                        (snd <$> short_term_memory sys)).2
  = (filter persist_condition (overflow sys now),
     node_id <$> filter (λ m, ¬ persist_condition m) (overflow sys now)).
Proof.
  by rewrite consolidate_memories_plan, partition_overflow_condition.
Qed.

Lemma comparable_candidates sys now :
  ranks_comparable sys now →
  comparable short_term_rank
    ((snd <$> short_term_memory sys)
     ++ drop (working_memory_size (memory_controller sys))
             (sorted_desc (working_rank now) (working_memory sys))).
Proof.
  intros [_ H]. unfold comparable in *. rewrite Forall_forall in H |- *.
  intros m [Hm|Hm]%elem_of_app; apply H, elem_of_app; [by left | right].
  pose proof (elem_of_sublist _ _ _ Hm (sublist_drop _ _)) as Hm'.
  by rewrite sorted_desc_perm in Hm'.
Qed.

(** C3: the loop over the nodes beyond the cutoff sends to the durable store
    those that have [importance > 0.7] or [access_count > 5] and puts the ids
    of the others on the list of removals, whatever the list it is given.
    In a consolidation pass that completes, on nodes whose ranks can be
    compared: the nodes beyond the cutoff are what is left of the candidates
    when [short_term_size] of them are set aside, none of those set aside
    having a lower [importance * (1 - decay_rate)] than a node beyond the
    cutoff; the rows added to the durable store are the full copies (id,
    content, bytes of the embedding, importance, access count, times and
    metadata) of the nodes beyond the cutoff that meet the test, in their
    order, and of no other node; the ids of the nodes beyond the cutoff that
    do not meet it are removed from the short-term tier, and no row is
    written for them. A node of importance 0.8 with one access meets the
    test; a node of importance 0.4 with two accesses does not. *)
Theorem C3_persist_iff_important_or_accessed sys now sys' :
  ranks_comparable sys now →
  _consolidate_memories sys now true = (sys', Ok tt) →
  let c := memory_controller sys in
  let candidates :=
    (snd <$> short_term_memory sys)
    ++ drop (working_memory_size c) (sorted_desc (working_rank now) (working_memory sys)) in
  let beyond := overflow sys now in
  let row m :=
    mkLongTerm (node_id m) (content m) (tobytes <$> embedding m) (importance_score m)
               (access_count m) (last_accessed m) (timestamp m) (metadata m) in
  (∀ nodes,
     partition_overflow nodes
     = (filter persist_condition nodes,
        node_id <$> filter (λ m, ¬ persist_condition m) nodes))
  ∧ (∃ within,
       within ++ beyond ≡ₚ candidates
       ∧ length within = min (short_term_size c) (length candidates)
       ∧ ∀ m m', m ∈ within → m' ∈ beyond →
                 PrimFloat.ltb (importance_score m * (1 - decay_rate m))
                               (importance_score m' * (1 - decay_rate m')) = false)
  ∧ long_term_rows (database sys')
    = long_term_rows (database sys) ++ (row <$> filter persist_condition beyond)
  ∧ short_term_memory sys'
    = filter (λ kv, kv.1 ∉ (node_id <$> filter (λ m, ¬ persist_condition m) beyond))
             (short_term_memory sys)
  ∧ (∀ m, importance_score m = 0.8%float → access_count m = 1%Z → persist_condition m)
  ∧ (∀ m, importance_score m = 0.4%float → access_count m = 2%Z → ¬ persist_condition m).
Proof.
  intros Hcmp Hpass. cbv zeta.
  split; [apply partition_overflow_condition|].
  split; [|split; [|split; [|split]]].
  - set (candidates := _ ++ _).
    exists (take (short_term_size (memory_controller sys))
                 (sorted_desc short_term_rank candidates)).
    change (overflow sys now)
      with (drop (short_term_size (memory_controller sys))
                 (sorted_desc short_term_rank candidates)).
    split; [by rewrite take_drop, sorted_desc_perm|].
    split; [by rewrite length_take, length_sorted_desc|].
    intros m m' Hm Hm'.
    pose proof (sorted_desc_sorted short_term_rank candidates
                  (comparable_candidates sys now Hcmp)) as Hs.
    rewrite <- (take_drop (short_term_size (memory_controller sys))) in Hs.
    apply (StronglySorted_app_1_elem_of _ _ _ _ _ Hs Hm Hm').
  - rewrite consolidate_cases in Hpass. cbv zeta in Hpass.
    rewrite plan_spec in Hpass. cbn [fst snd] in Hpass.
    destruct (persist_all _ _ _) as [db'|e] eqn:Hpersist; last done.
    injection Hpass as <-. cbn [database].
    by apply (persist_all_rows _ now).
  - rewrite consolidate_cases in Hpass. cbv zeta in Hpass.
    rewrite plan_spec in Hpass. cbn [fst snd] in Hpass.
    destruct (persist_all _ _ _) as [db'|e] eqn:Hpersist; last done.
    by injection Hpass as <-.
  - intros m Himp Hacc. left. rewrite Himp. by vm_compute.
  - intros m Himp Hacc [H|H]; [rewrite Himp in H; by vm_compute in H | lia].
Qed.

Lemma crowded_ranks_comparable now : ranks_comparable crowded now.
Proof.
  split; [apply Forall_nil_2|].
  unfold comparable. apply (bool_decide_unpack _). by vm_compute.
Qed.

Lemma C3_persist_iff_important_or_accessed_witness :
  let sys := crowded in
  let now := 1000000%Z in
  let sys' := (_consolidate_memories sys now true).1 in
  ranks_comparable sys now
  ∧ _consolidate_memories sys now true = (sys', Ok tt)
  ∧ overflow sys now = [(resident "scenario_3" 0.8 1).2; (resident "scenario_4" 0.4 2).2]
  ∧ long_term_rows (database sys')
    = [mkLongTerm "scenario_3" [] None 0.8 1 0%Z 0%Z [("sender", Some "ann@example.org")]]
  ∧ short_term_memory sys' = filter (λ kv, kv.1 ≠ "scenario_4") (short_term_memory sys).
Proof.
  cbv zeta.
  assert (_consolidate_memories crowded 1000000%Z true
          = ((_consolidate_memories crowded 1000000%Z true).1, Ok tt)) as Hpass
    by (by vm_compute).
  assert (overflow crowded 1000000%Z
          = [(resident "scenario_3" 0.8 1).2; (resident "scenario_4" 0.4 2).2]) as Hbeyond
    by (by vm_compute).
  destruct (C3_persist_iff_important_or_accessed crowded 1000000%Z _
              (crowded_ranks_comparable _) Hpass) as (_ & _ & Hrows & Hshort & _).
  cbv zeta in *.
  split; [apply crowded_ranks_comparable|]. split; [done|]. split; [done|]. split.
  - rewrite Hrows, Hbeyond. by vm_compute.
  - rewrite Hshort, Hbeyond. by vm_compute.
Defined.

(** The pass over [crowded]: the node of scenario 3 gets a row in the durable
    store, the node of scenario 4 gets none and leaves the short-term tier.
    The persisted node is not removed from the tier, since the pass pops the
    ids of [to_remove] only, and a second pass writes a second row for it. *)
Lemma crowded_pass :
  let sys1 := (_consolidate_memories crowded 1000000%Z true).1 in
  let sys2 := (_consolidate_memories sys1 2000000%Z true).1 in
  ltm_id <$> long_term_rows (database sys1) = ["scenario_3"]
  ∧ assoc_get "scenario_4" (short_term_memory sys1) = None
  ∧ is_Some (assoc_get "scenario_3" (short_term_memory sys1))
  ∧ length (short_term_memory sys1) = 101
  ∧ ltm_id <$> long_term_rows (database sys2) = ["scenario_3"; "scenario_3"].
Proof.
  split; [by vm_compute|]. split; [by vm_compute|].
  split; [eexists; by vm_compute|]. split; by vm_compute.
Qed.

(** ** Residency across tiers and the durable store (C4) *)

Lemma keyed_by_id_ids short_term :
  keyed_by_id short_term → node_id <$> short_term.*2 = short_term.*1.
Proof.
  intros [_ H]. induction H as [|[k m] l Hk _ IH]; first done.
  rewrite !fmap_cons. cbn [fst snd] in *. by f_equal.
Qed.

Lemma keyed_by_id_filter short_term (ids : list string) :
  keyed_by_id short_term →
  (filter (λ kv, kv.1 ∉ ids) short_term).*2
  = filter (λ m, node_id m ∉ ids) short_term.*2.
Proof.
  intros [_ H]. induction H as [|[k m] l Hk _ IH]; first done.
  cbn [fst snd] in Hk. subst k.
  rewrite fmap_cons. cbn [snd]. rewrite !filter_cons. cbn [fst].
  destruct (decide (node_id m ∉ ids)); [rewrite fmap_cons; cbn [snd]; by f_equal | done].
Qed.

Lemma keyed_by_id_elem short_term m :
  keyed_by_id short_term → m ∈ short_term.*2 → (node_id m, m) ∈ short_term.
Proof.
  intros [_ H] ([k m'] & -> & Hin)%list_elem_of_fmap.
  rewrite Forall_forall in H. specialize (H _ Hin). simpl in *. by subst k.
Qed.

Lemma overflow_well_kept sys now :
  length (working_memory sys) ≤ working_memory_size (memory_controller sys) →
  overflow sys now
  = drop (short_term_size (memory_controller sys))
         (sorted_desc short_term_rank (short_term_memory sys).*2).
Proof.
  intros Hw. unfold overflow. cbv zeta.
  rewrite (drop_ge (sorted_desc (working_rank now) _))
    by (by rewrite length_sorted_desc).
  by rewrite app_nil_r.
Qed.

Lemma persist_all_raise db now to_persist e :
  persist_all db now to_persist = Raise e → e = MultipleResultsFound.
Proof.
  revert db. induction to_persist as [|m l IH]; intros db; simpl; first done.
  destruct (_persist_to_long_term db now m) as [db1|e1] eqn:E1; first apply IH.
  intros [= ->]. revert E1. unfold _persist_to_long_term.
  destruct (dict_get _ _); last done.
  destruct (bool_decide _); first done.
  destruct (filter _ _) as [|? [|? ?]]; try done. by intros [= <-].
Qed.

Lemma reaches_commit_cases sys now commit_ok :
  reaches_commit sys now commit_ok →
  ∃ db',
    persist_all (database sys) now
      (consolidate_memories (memory_controller sys) now (working_memory sys)
                            (snd <$> short_term_memory sys)).2.1 = Ok db'
    ∧ _consolidate_memories sys now commit_ok
      = (mkSystem (mkController (working_memory_size (memory_controller sys))
                                (short_term_size (memory_controller sys))
                                (consolidation_interval (memory_controller sys)) now)
                  (working_memory sys)
                  (filter (λ kv, kv.1 ∉ (consolidate_memories (memory_controller sys) now
                                           (working_memory sys)
                                           (snd <$> short_term_memory sys)).2.2)
                          (short_term_memory sys))
                  (memory_graph sys)
                  (if commit_ok then db' else database sys),
         if commit_ok then Ok tt else Raise StoreUnavailable).
Proof.
  unfold reaches_commit. rewrite consolidate_cases. cbv zeta.
  destruct (persist_all _ _ _) as [db'|e] eqn:Hp.
  - intros _. exists db'. split; first done. by destruct commit_ok.
  - apply persist_all_raise in Hp as ->. by destruct commit_ok.
Qed.


Lemma persisted_stay sys now :
  well_kept sys →
  let plan :=
    (consolidate_memories (memory_controller sys) now (working_memory sys)
                          (snd <$> short_term_memory sys)).2 in
  ∀ m, m ∈ plan.1 →
       (node_id m, m) ∈ filter (λ kv, kv.1 ∉ plan.2) (short_term_memory sys).
Proof.
  intros (Hw & Hkeys & _). cbv zeta. rewrite plan_spec. cbn [fst snd].
  rewrite (overflow_well_kept _ _ Hw).
  intros m [Hyes Hm]%list_elem_of_filter.
  assert (∀ m', m' ∈ drop (short_term_size (memory_controller sys))
                          (sorted_desc short_term_rank (short_term_memory sys).*2) →
                m' ∈ (short_term_memory sys).*2) as Hin.
  { intros m' Hm'. pose proof (elem_of_sublist _ _ _ Hm' (sublist_drop _ _)) as H.
    by rewrite sorted_desc_perm in H. }
  apply list_elem_of_filter. split.
  - cbn [fst].
    intros (m' & Hid & [Hno Hm']%list_elem_of_filter)%list_elem_of_fmap.
    apply Hno. assert (m = m') as <-; last done.
    apply (NoDup_fmap_eq node_id (short_term_memory sys).*2); [| | |done].
    + rewrite keyed_by_id_ids by done. apply Hkeys.
    + by apply Hin.
    + by apply Hin.
  - apply keyed_by_id_elem; [done | by apply Hin].
Qed.


Lemma crowded_well_kept : well_kept crowded.
Proof.
  split; [simpl; lia|].
  split; [split|]; apply (bool_decide_unpack _); by vm_compute.
Qed.

Lemma crowded_reaches_commit now commit_ok : reaches_commit crowded now commit_ok.
Proof. unfold reaches_commit. destruct commit_ok; by vm_compute. Qed.




(** ** Two passes in a row (C5) *)

Lemma second_plan sys now1 now2 :
  well_kept sys →
  let plan1 :=
    (consolidate_memories (memory_controller sys) now1 (working_memory sys)
                          (short_term_memory sys).*2).2 in
  let c1 := mkController (working_memory_size (memory_controller sys))
                         (short_term_size (memory_controller sys))
                         (consolidation_interval (memory_controller sys)) now1 in
  (consolidate_memories c1 now2 (working_memory sys)
     (filter (λ kv, kv.1 ∉ plan1.2) (short_term_memory sys)).*2).2
  = (plan1.1, []).
Proof.
  intros (Hw & Hkeys & Hcmp). cbv zeta.
  pose proof (plan_spec sys now1) as Hplan. rewrite Hplan. cbn [fst snd].
  rewrite consolidate_memories_plan. cbn [working_memory_size short_term_size].
  rewrite (drop_ge (sorted_desc (working_rank now2) _))
    by (by rewrite length_sorted_desc).
  rewrite app_nil_r, keyed_by_id_filter by done.
  rewrite sorted_desc_filter by done.
  rewrite (overflow_well_kept sys now1 Hw).
  set (n := short_term_size (memory_controller sys)).
  set (sorted := sorted_desc short_term_rank (short_term_memory sys).*2).
  set (beyond := drop n sorted).
  set (removed := node_id <$> filter (λ m, ¬ persist_condition m) beyond).
  assert (NoDup (node_id <$> sorted)) as Hnd.
  { unfold sorted. rewrite sorted_desc_perm, keyed_by_id_ids by done. apply Hkeys. }
  assert (filter (λ m, node_id m ∉ removed) sorted
          = take n sorted ++ filter persist_condition beyond) as ->.
  { rewrite <- (take_drop n sorted) at 1. rewrite filter_app. f_equal.
    - rewrite <- (take_drop n sorted), fmap_app in Hnd.
      apply NoDup_app in Hnd as (_ & Hdisj & _).
      apply filter_all. apply Forall_forall. intros m Hm Hin.
      apply (Hdisj (node_id m)); first by apply list_elem_of_fmap_2.
      apply list_elem_of_fmap in Hin as (m' & -> & Hm'%list_elem_of_filter).
      apply list_elem_of_fmap_2, Hm'.
    - fold beyond. apply filter_ext_in. intros m Hm. split.
      + intros Hout. destruct (decide (persist_condition m)) as [|Hno]; first done.
        exfalso. apply Hout, list_elem_of_fmap_2, list_elem_of_filter. done.
      + intros Hyes (m' & Hid & [Hno Hm']%list_elem_of_filter)%list_elem_of_fmap.
        apply Hno.
        assert (m = m') as <-; last done.
        apply (NoDup_fmap_eq node_id sorted); [done | | | done].
        * apply (elem_of_sublist _ _ _ Hm), sublist_drop.
        * apply (elem_of_sublist _ _ _ Hm'), sublist_drop. }
  assert (drop n (take n sorted ++ filter persist_condition beyond)
          = filter persist_condition beyond) as ->.
  { destruct (decide (n ≤ length sorted)) as [Hle|Hgt].
    - apply drop_app_length'. rewrite length_take. lia.
    - unfold beyond. rewrite (drop_ge sorted) by lia. simpl.
      rewrite app_nil_r. apply drop_ge. rewrite length_take. lia. }
  rewrite partition_overflow_spec. f_equal.
  - rewrite (list_filter_iff (λ m, worth_persisting m = true) persist_condition)
      by apply worth_persisting_true.
    apply filter_all, Forall_forall. by intros m [? _]%list_elem_of_filter.
  - rewrite (list_filter_iff (λ m, worth_persisting m = false)
                             (λ m, ¬ persist_condition m))
      by exact worth_persisting_false.
    rewrite (filter_none (λ m, ¬ persist_condition m)); first done.
    apply Forall_forall. intros m [? _]%list_elem_of_filter Hno. by apply Hno.
Qed.

(** Two passes in a row from a state that the operations produce: the second
    has nothing to persist and nothing to remove, and leaves both tiers, the
    adjacency index and the durable store as the first pass left them. *)
Lemma second_pass_from_reachable_state swallows now0 db ops now1 commit1 now2 commit2 :
  let sys := run swallows (new_system now0 db) ops in
  let sys1 := (_consolidate_memories sys now1 commit1).1 in
  let sys2 := (_consolidate_memories sys1 now2 commit2).1 in
  (consolidate_memories (memory_controller sys1) now2 (working_memory sys1)
                        (snd <$> short_term_memory sys1)).2 = ([], [])
  ∧ working_memory sys2 = working_memory sys1
  ∧ short_term_memory sys2 = short_term_memory sys1
  ∧ memory_graph sys2 = memory_graph sys1
  ∧ database sys2 = database sys1.
Proof.
  cbv zeta.
  pose proof (reachable_shape swallows _ (reachable_run swallows now0 db ops)) as Hshape.
  pose proof (consolidate_shape _ now1 commit1 Hshape) as (Hshape1 & _).
  cbv zeta in Hshape1.
  pose proof (consolidate_memories_shape _ now2 Hshape1) as [_ Hplan].
  pose proof (consolidate_shape _ now2 commit2 Hshape1) as (_ & Hw & Hst & Hg & Hdb).
  done.
Qed.

(** C5, counterexample. The first pass over [crowded] persists the node of
    scenario 3 and leaves it in the short-term tier; the second pass finds
    it beyond the cutoff again and persists it again. *)
Lemma C5_counterexample : ¬ second_pass_is_idle.
Proof.
  intros H.
  destruct (H crowded 1000000%Z true 2000000%Z true crowded_well_kept
              (crowded_reaches_commit _ _)) as (Hplan & _).
  vm_compute in Hplan. discriminate Hplan.
Qed.

(** C5, as the code has it. Two passes in a row over tiers kept as the
    system keeps them, the first pass getting as far as its commit: the second pass has no id to remove, and
    the nodes it selects for persistence are exactly those the first pass
    selected, all of which are still in the short-term tier. It leaves both
    tiers and the adjacency index as the first pass left them, and when it
    completes it has added to the durable store a row for each of these
    nodes once more. It does nothing when the first pass persisted nothing,
    as from a state with an empty short-term tier. *)
Theorem C5_second_pass_repeats_the_first sys now1 commit1 now2 commit2 :
  well_kept sys →
  reaches_commit sys now1 commit1 →
  let plan1 :=
    (consolidate_memories (memory_controller sys) now1 (working_memory sys)
                          (snd <$> short_term_memory sys)).2 in
  let sys1 := (_consolidate_memories sys now1 commit1).1 in
  let plan2 :=
    (consolidate_memories (memory_controller sys1) now2 (working_memory sys1)
                          (snd <$> short_term_memory sys1)).2 in
  let sys2 := (_consolidate_memories sys1 now2 commit2).1 in
  let row m :=
    mkLongTerm (node_id m) (content m) (tobytes <$> embedding m) (importance_score m)
               (access_count m) (last_accessed m) (timestamp m) (metadata m) in
  plan2 = (plan1.1, [])
  ∧ (∀ m, m ∈ plan1.1 → (node_id m, m) ∈ short_term_memory sys1)
  ∧ working_memory sys2 = working_memory sys1
  ∧ short_term_memory sys2 = short_term_memory sys1
  ∧ memory_graph sys2 = memory_graph sys1
  ∧ ((_consolidate_memories sys1 now2 commit2).2 = Ok tt →
     long_term_rows (database sys2)
     = long_term_rows (database sys1) ++ (row <$> plan1.1))
  ∧ (short_term_memory sys = [] → plan2 = ([], [])).
Proof.
  intros Hkept Hcommit. cbv zeta.
  destruct (reaches_commit_cases sys now1 commit1 Hcommit) as (db1 & Hp1 & Hpass1).
  rewrite Hpass1. cbn [fst snd memory_controller working_memory short_term_memory].
  pose proof (second_plan sys now1 now2 Hkept) as Hplan2. cbv zeta in Hplan2.
  split; [exact Hplan2|].
  split; [by apply persisted_stay|].
  rewrite consolidate_cases. cbv zeta.
  cbn [memory_controller working_memory short_term_memory database memory_graph
       working_memory_size short_term_size consolidation_interval].
  rewrite Hplan2. cbn [fst snd].
  assert (∀ l : list (string * MemoryNode), filter (λ kv, kv.1 ∉ @nil string) l = l) as Hnil.
  { intros l. apply filter_all, Forall_forall. intros kv _. apply not_elem_of_nil. }
  rewrite Hnil.
  match goal with
  | |- context [persist_all ?a ?b ?c] => destruct (persist_all a b c) as [db2|e] eqn:Hp2
  end.
  2:{ repeat split; try done. intros Hempty. rewrite plan_spec. cbn [fst].
      unfold overflow. rewrite Hempty. cbn [fmap list_fmap app].
      rewrite (drop_ge (sorted_desc (working_rank now1) _))
        by (rewrite length_sorted_desc; apply (proj1 Hkept)).
      cbn [app]. by rewrite sorted_desc_nil, drop_nil. }
  split; [|split; [|split; [|split]]].
  - by destruct commit2.
  - by destruct commit2.
  - by destruct commit2.
  - destruct commit2; last done.
    intros _. cbn [fst database]. rewrite (persist_all_rows _ _ _ _ Hp2). done.
  - intros Hempty. rewrite plan_spec. cbn [fst].
    unfold overflow. rewrite Hempty. cbn [fmap list_fmap app].
    rewrite (drop_ge (sorted_desc (working_rank now1) _))
      by (rewrite length_sorted_desc; apply (proj1 Hkept)).
    cbn [app]. by rewrite sorted_desc_nil, drop_nil.
Qed.

Lemma C5_second_pass_repeats_the_first_witness :
  let sys := crowded in
  let sys1 := (_consolidate_memories sys 1000000%Z true).1 in
  let sys2 := (_consolidate_memories sys1 2000000%Z true).1 in
  well_kept sys
  ∧ reaches_commit sys 1000000%Z true
  ∧ (consolidate_memories (memory_controller sys1) 2000000%Z (working_memory sys1)
                          (snd <$> short_term_memory sys1)).2
    = ([(resident "scenario_3" 0.8 1).2], [])
  ∧ short_term_memory sys2 = short_term_memory sys1
  ∧ ltm_id <$> long_term_rows (database sys2) = ["scenario_3"; "scenario_3"].
Proof.
  cbv zeta.
  destruct (C5_second_pass_repeats_the_first crowded 1000000%Z true 2000000%Z true
              crowded_well_kept (crowded_reaches_commit _ _))
    as (Hplan2 & _ & _ & Hshort & _ & Hrows & _).
  cbv zeta in *.
  assert ((consolidate_memories (memory_controller crowded) 1000000%Z
                                (working_memory crowded)
                                (snd <$> short_term_memory crowded)).2
          = ([(resident "scenario_3" 0.8 1).2], ["scenario_4"])) as Hplan
    by (by vm_compute).
  rewrite Hplan in Hplan2, Hrows. cbn [fst snd] in *.
  split; [apply crowded_well_kept|].
  split; [apply crowded_reaches_commit|].
  split; [done|]. split; [done|].
  rewrite Hrows by (by vm_compute). by vm_compute.
Defined.

(** ** A failing durable store during retrieval (C6) *)

(** C6, counterexample: with a session manager that lets exceptions through,
    a retrieval whose query of the durable store fails returns no list: the
    call ends with the exception, though the working tier holds a node that
    matches the query. *)
Lemma C6_counterexample :
  ¬ ∃ results,
      (retrieve_relevant_memories false one_node (Ok [1; 0]%float) 5 false 1000000%Z).2
      = Ok results.
Proof. intros [results H]. vm_compute in H. discriminate H. Qed.

(** C6, as the code has it: [retrieve_relevant_memories] has no handler
    around its use of the session. When the query of the durable store
    raises, the exception reaches the caller, no list is returned and the
    system is left as it was. Only a session manager that swallows the
    exception lets the call go on, and then the result is the one computed
    from the working and short-term candidates alone. *)
Theorem C6_store_failure_reaches_caller sys query_embedding k now :
  retrieve_relevant_memories false sys (Ok query_embedding) k false now
    = (sys, Raise StoreUnavailable)
  ∧ (retrieve_relevant_memories true sys (Ok query_embedding) k false now).2
    = (retrieve_relevant_memories true (without_long_term sys) (Ok query_embedding)
                                  k true now).2.
Proof.
  split; first done.
  unfold retrieve_relevant_memories, without_long_term, long_term_candidates,
    working_candidates, short_term_candidates.
  simpl. rewrite app_nil_r.
  set (returned := take k _). clearbody returned. done.
Qed.

(** ** Vectors of zero magnitude (C9) *)

Lemma working_candidates_spec sys q c s :
  (c, s) ∈ working_candidates sys q
  ↔ ∃ i m e, c = (InWorking i, m) ∧ working_memory sys !! i = Some m
             ∧ embedding m = Some e ∧ s = cosine_similarity q e.
Proof.
  unfold working_candidates. rewrite list_elem_of_omap. split.
  - intros ([o m] & Hin & Hc). apply elem_of_lookup_imap in Hin as (i & m' & [= -> ->] & Hi).
    unfold candidate_of in Hc. simpl in Hc.
    destruct (embedding m') as [e|] eqn:He; last done.
    injection Hc as <- <-. by exists i, m', e.
  - intros (i & m & e & -> & Hi & He & ->).
    exists (InWorking i, m). split.
    + apply elem_of_lookup_imap. by exists i, m.
    + unfold candidate_of. simpl. by rewrite He.
Qed.

Lemma short_term_candidates_spec sys q c s :
  (c, s) ∈ short_term_candidates sys q
  ↔ ∃ key m e, c = (InShortTerm key, m) ∧ (key, m) ∈ short_term_memory sys
               ∧ embedding m = Some e ∧ s = cosine_similarity q e.
Proof.
  unfold short_term_candidates. rewrite list_elem_of_omap. split.
  - intros ([o m] & Hin & Hc). apply list_elem_of_fmap in Hin as ([key m'] & [= -> ->] & Hin).
    unfold candidate_of in Hc. simpl in Hc.
    destruct (embedding m') as [e|] eqn:He; last done.
    injection Hc as <- <-. by exists key, m', e.
  - intros (key & m & e & -> & Hin & He & ->).
    exists (InShortTerm key, m). split.
    + apply list_elem_of_fmap. by exists (key, m).
    + unfold candidate_of. simpl. by rewrite He.
Qed.

(** The candidates that the query [[1; 1]] finds in [zero_node]: the node
    with the zero vector, with the similarity that [0 / 0] gives, a NaN. *)
Lemma zero_vector_is_a_candidate :
  ∃ m s,
    working_candidates zero_node [1; 1]%float = [((InWorking 0, m), s)]
    ∧ embedding m = Some [0; 0]%float
    ∧ PrimFloat.eqb (norm [0; 0]%float) 0 = true
    ∧ PrimFloat.is_nan s = true
    ∧ PrimFloat.eqb s 0 = false.
Proof. eexists _, _. repeat split; by vm_compute. Qed.

(** C9, counterexample: a node whose embedding has zero magnitude is a
    candidate of retrieval; its similarity is the NaN of a division of zero
    by zero, not 0. *)
Lemma C9_counterexample : ¬ zero_magnitude_excluded.
Proof.
  intros claim.
  destruct zero_vector_is_a_candidate as (m & s & Hc & He & Hzero & _).
  destruct (claim zero_node [1; 1]%float (InWorking 0, m) s [0; 0]%float) as [H _].
  - rewrite Hc. apply elem_of_app. left. apply list_elem_of_singleton. done.
  - exact He.
  - rewrite Hzero in H. discriminate H.
Qed.

(** C9, as the code has it: every node of the working tier and of the
    short-term tier that has an embedding is a candidate, whatever the
    magnitude of the vectors, and its similarity is the quotient
    [dot / (norm * norm)] taken without a test of the denominator; the
    division is the one of floats, which yields a NaN or an infinity on a
    zero denominator and raises nothing. The nodes left out are those
    without embedding. *)
Theorem C9_every_embedded_node_is_a_candidate sys q :
  (∀ i m e, working_memory sys !! i = Some m → embedding m = Some e →
            ((InWorking i, m), (dot q e / (norm q * norm e))%float)
            ∈ working_candidates sys q)
  ∧ (∀ key m e, (key, m) ∈ short_term_memory sys → embedding m = Some e →
                ((InShortTerm key, m), (dot q e / (norm q * norm e))%float)
                ∈ short_term_candidates sys q)
  ∧ (∀ c s, (c, s) ∈ working_candidates sys q ++ short_term_candidates sys q →
            is_Some (embedding c.2)).
Proof.
  split; [|split].
  - intros i m e Hi He. apply working_candidates_spec. by exists i, m, e.
  - intros key m e Hin He. apply short_term_candidates_spec. by exists key, m, e.
  - intros c s [H|H]%elem_of_app.
    + apply working_candidates_spec in H as (i & m & e & -> & _ & He & _). by exists e.
    + apply short_term_candidates_spec in H as (k & m & e & -> & _ & He & _). by exists e.
Qed.

Lemma C9_every_embedded_node_is_a_candidate_witness :
  ∃ m, working_memory zero_node !! 0 = Some m
       ∧ ((InWorking 0, m), (dot [1; 1] [0; 0] / (norm [1; 1] * norm [0; 0]))%float)
         ∈ working_candidates zero_node [1; 1]%float.
Proof.
  eexists. split; [by vm_compute|].
  apply (C9_every_embedded_node_is_a_candidate zero_node [1; 1]%float);
    by vm_compute.
Defined.

(** ** The range of importance and of link strength (C8) *)

Lemma twins_link_strength :
  connections <$> working_memory twins
  = [[("mem_b", 1.0000000000000002%float)]; [("mem_a", 1.0000000000000002%float)]]
  ∧ in_unit_interval 1.0000000000000002 = false.
Proof. split; by vm_compute. Qed.

(** C8, counterexample: a store keeps the importance it is given; the node
    stored with 1.5 has an importance outside [0, 1]. *)
Lemma C8_counterexample : ¬ scores_stay_in_unit_interval.
Proof.
  intros claim.
  assert (∃ m, working_memory overstated !! 0 = Some m
               ∧ in_unit_interval (importance_score m) = false) as (m & Hm & Hout).
  { eexists. split; by vm_compute. }
  destruct (claim false 0%Z empty_db
                  [StoreInteraction "a" [] 1.5 (Ok None) 0%Z] m) as [Hin _].
  - by eapply list_elem_of_lookup_2.
  - rewrite Hout in Hin. discriminate Hin.
Qed.

Lemma link_of_Some new_id e m l :
  link_of new_id e m = Some l
  ↔ node_id m ≠ new_id
    ∧ ∃ e', embedding m = Some e'
            ∧ fgt (cosine_similarity e e') 0.7 = true
            ∧ l = (node_id m, cosine_similarity e e').
Proof.
  unfold link_of. destruct (bool_decide_reflect (node_id m = new_id)) as [Heq|Hne].
  { split; [done | by intros [? _]]. }
  destruct (embedding m) as [e'|].
  2:{ split; [done | by intros (_ & ? & ? & _)]. }
  simpl. destruct (fgt (cosine_similarity e e') 0.7) eqn:Hgt.
  - split.
    + intros [= <-]. split; first done. by exists e'.
    + intros (_ & e'' & [= <-] & _ & ->). done.
  - split; first done. intros (_ & e'' & [= <-] & Habs & _). congruence.
Qed.

Lemma store_links_above_threshold sys message_id content importance created now :
  short_term_memory sys = [] →
  links_above_threshold sys →
  links_above_threshold
    (store_interaction sys message_id content importance created now).1.
Proof.
  intros Hshort Hinv. destruct created as [emb|err]; last done.
  rewrite store_interaction_spec. rewrite Hshort.
  assert (∀ m, m ∈ kept sys → m ∈ working_memory sys) as Hkept.
  { intros m Hm. unfold kept in Hm.
    eapply elem_of_sublist; [exact Hm | apply sublist_drop]. }
  destruct emb as [e|]; simpl; intros m l Hm Hl.
  - apply elem_of_app in Hm as [Hm|Hm].
    + apply list_elem_of_fmap in Hm as (m0 & -> & Hm0).
      unfold linked in Hl.
      destruct (link_of _ e m0) as [[k s]|] eqn:Hlink; last by eapply Hinv; eauto.
      simpl in Hl. apply elem_of_app in Hl as [Hl|Hl]; first by eapply Hinv; eauto.
      apply list_elem_of_singleton in Hl as ->. simpl.
      apply link_of_Some in Hlink as (_ & e' & _ & Hgt & [= _ ->]). done.
    + apply list_elem_of_singleton in Hm as ->. simpl in Hl.
      rewrite app_nil_r in Hl.
      apply list_elem_of_omap in Hl as (m0 & _ & Hlink).
      apply link_of_Some in Hlink as (_ & e' & _ & Hgt & ->). done.
  - apply elem_of_app in Hm as [Hm|Hm]; first by eapply Hinv; eauto.
    apply list_elem_of_singleton in Hm as ->. simpl in Hl. by apply elem_of_nil in Hl.
Qed.

Lemma same_links_view sys sys' m :
  links_view <$> working_memory sys' = links_view <$> working_memory sys →
  m ∈ working_memory sys' →
  ∃ m0, m0 ∈ working_memory sys ∧ node_id m0 = node_id m
        ∧ connections m0 = connections m.
Proof.
  intros Heq Hm.
  assert (links_view m ∈ links_view <$> working_memory sys) as Hc.
  { rewrite <- Heq. apply list_elem_of_fmap. by exists m. }
  apply list_elem_of_fmap in Hc as (m0 & [= Hid Hc] & Hm0). by exists m0.
Qed.

Lemma same_connections_above_threshold sys sys' :
  links_view <$> working_memory sys' = links_view <$> working_memory sys →
  links_above_threshold sys → links_above_threshold sys'.
Proof.
  intros Heq Hinv m l Hm Hl.
  destruct (same_links_view _ _ _ Heq Hm) as (m0 & Hm0 & _ & Hc).
  apply (Hinv m0 l Hm0). by rewrite Hc.
Qed.

Lemma reachable_links_above_threshold swallows sys :
  reachable swallows sys → links_above_threshold sys.
Proof.
  induction 1 as [now db|sys op Hreach IH].
  - intros m l Hm. by apply elem_of_nil in Hm.
  - pose proof (reachable_shape _ _ Hreach) as Hshape.
    destruct op; simpl.
    + apply store_links_above_threshold; [apply Hshape | done].
    + eapply same_connections_above_threshold; [|exact IH].
      by apply retrieve_fields.
    + eapply same_connections_above_threshold; [|exact IH].
      by destruct (consolidate_shape sys now commit_ok Hshape) as (_ & -> & _).
Qed.

(** C8, as the code has it: the importance of a sender profile, raised by
    0.01 when a node of that sender is persisted, is capped at 1.0: it is 1.0
    or below it. The importance of a node is the value that the caller gave
    to [store_interaction], kept as it is, with no clamp. The strength of a
    link is the similarity that made it, a value above 0.7, with no clamp
    either. *)
Theorem C8_only_the_profile_nudge_is_capped :
  (∀ db now memory db' p,
     _persist_to_long_term db now memory = Ok db' →
     p ∈ sender_profiles db' →
     p ∈ sender_profiles db
     ∨ (∃ p0, p0 ∈ sender_profiles db
              ∧ profile_importance_score p
                = py_min 1.0 (profile_importance_score p0 + 0.01)%float
              ∧ (profile_importance_score p = 1.0%float
                 ∨ flt (profile_importance_score p) 1.0 = true)))
  ∧ (∀ sys message_id content importance emb now,
       ∃ node,
         store_interaction sys message_id content importance (Ok emb) now
           = ((store_interaction sys message_id content importance (Ok emb) now).1,
              Ok node)
         ∧ importance_score node = importance
         ∧ last (working_memory
                   (store_interaction sys message_id content importance (Ok emb) now).1)
           = Some node)
  ∧ (∀ swallows now0 db ops m l,
       m ∈ working_memory (run swallows (new_system now0 db) ops) →
       l ∈ connections m → fgt l.2 0.7 = true).
Proof.
  split; [|split].
  - intros db now memory db' p Hok Hp. unfold _persist_to_long_term in Hok.
    destruct (dict_get (metadata memory) "sender") as [sender|];
      last by (injection Hok as <-; left).
    destruct (bool_decide (sender = "")); first by (injection Hok as <-; left).
    destruct (filter _ (sender_profiles db)) as [|q [|q' qs]];
      [by (injection Hok as <-; left) | | done].
    injection Hok as <-. simpl in Hp.
    apply list_elem_of_fmap in Hp as (p0 & -> & Hp0).
    destruct (bool_decide (email p0 = sender)); last by left.
    right. exists p0. split; [done|]. split; [done|]. simpl.
    unfold py_min. destruct (flt _ 1.0) eqn:E; [by right | by left].
  - intros sys message_id content importance emb now.
    rewrite store_interaction_spec. destruct emb as [e|]; simpl.
    + eexists. split; [done|]. split; [done|]. by rewrite last_snoc.
    + eexists. split; [done|]. split; [done|]. by rewrite last_snoc.
  - intros swallows now0 db ops m l.
    apply (reachable_links_above_threshold swallows), reachable_run.
Qed.

Lemma C8_only_the_profile_nudge_is_capped_witness :
  let p := mkProfile "ann@example.org" 4 (Some 1000000%Z) 1.0 in
  p ∈ sender_profiles (database crowded)
  ∨ (∃ p0, p0 ∈ sender_profiles (database crowded)
           ∧ profile_importance_score p
             = py_min 1.0 (profile_importance_score p0 + 0.01)%float
           ∧ (profile_importance_score p = 1.0%float
              ∨ flt (profile_importance_score p) 1.0 = true)).
Proof.
  apply (proj1 C8_only_the_profile_nudge_is_capped
               (database crowded) 1000000%Z (resident "scenario_3" 0.8 1).2
               (mkDatabase [long_term_row (resident "scenario_3" 0.8 1).2]
                           [mkProfile "ann@example.org" 4 (Some 1000000%Z) 1.0])).
  - vm_compute. reflexivity.
  - apply list_elem_of_singleton. reflexivity.
Defined.

(** ** Links made on insertion, and their symmetry (C7) *)

Lemma elem_of_graph_append k e g k' x :
  x ∈ graph_lookup (graph_append k e g) k'
  ↔ x ∈ graph_lookup g k' ∨ (k' = k ∧ x = e).
Proof.
  unfold graph_append, graph_lookup.
  destruct (decide (k = k')) as [->|Hne].
  - rewrite lookup_insert_eq. simpl.
    rewrite elem_of_app, list_elem_of_singleton. tauto.
  - rewrite lookup_insert_ne by done. split; [by left|].
    intros [H|[Heq _]]; [done | congruence].
Qed.

Lemma elem_of_index_link new_id g l a x :
  x ∈ graph_lookup (index_link new_id g l) a
  ↔ x ∈ graph_lookup g a
    ∨ (a = new_id ∧ x = l)
    ∨ (a = l.1 ∧ x = (new_id, l.2)).
Proof.
  unfold index_link. rewrite !elem_of_graph_append. tauto.
Qed.

Lemma elem_of_index_links new_id links g a x :
  x ∈ graph_lookup (foldl (index_link new_id) g links) a
  ↔ x ∈ graph_lookup g a
    ∨ ∃ l, l ∈ links ∧ ((a = new_id ∧ x = l) ∨ (a = l.1 ∧ x = (new_id, l.2))).
Proof.
  revert g. induction links as [|l links IH]; intros g; simpl.
  - split; [by left|]. intros [H|(l & Hl & _)]; [done | by apply elem_of_nil in Hl].
  - rewrite IH, elem_of_index_link. split.
    + intros [[H|H]|(l' & Hl' & H)].
      * by left.
      * right. exists l. split; [left|]; done.
      * right. exists l'. split; [by right | done].
    + intros [H|(l' & [->|Hl']%elem_of_cons & H)].
      * left. by left.
      * left. by right.
      * right. by exists l'.
Qed.

Lemma index_links_symmetric new_id links g :
  graph_symmetric g → graph_symmetric (foldl (index_link new_id) g links).
Proof.
  intros Hsym a b s. rewrite !elem_of_index_links.
  intros [H|(l & Hl & [[-> <-]|[-> [= -> ->]]])].
  - left. by apply Hsym.
  - right. exists (b, s). split; [done|]. by right.
  - right. exists l. split; [done|]. left. by destruct l.
Qed.

Lemma store_graph_symmetric sys message_id content importance created now :
  graph_symmetric (memory_graph sys) →
  graph_symmetric
    (memory_graph (store_interaction sys message_id content importance created now).1).
Proof.
  intros Hsym. destruct created as [emb|err]; last done.
  rewrite store_interaction_spec. destruct emb as [e|]; simpl; last done.
  by apply index_links_symmetric.
Qed.

Lemma store_links_indexed sys message_id content importance created now :
  short_term_memory sys = [] →
  links_indexed sys →
  links_indexed (store_interaction sys message_id content importance created now).1.
Proof.
  intros Hshort Hinv. destruct created as [emb|err]; last done.
  rewrite store_interaction_spec. rewrite Hshort.
  assert (∀ m, m ∈ kept sys → m ∈ working_memory sys) as Hkept.
  { intros m Hm. unfold kept in Hm.
    eapply elem_of_sublist; [exact Hm | apply sublist_drop]. }
  destruct emb as [e|]; unfold links_indexed;
    cbn [fst working_memory memory_graph fmap list_fmap]; intros m l Hm Hl.
  - rewrite app_nil_r in *. rewrite elem_of_index_links.
    apply elem_of_app in Hm as [Hm|Hm].
    + apply list_elem_of_fmap in Hm as (m0 & -> & Hm0).
      rewrite node_id_linked. unfold linked in Hl.
      destruct (link_of _ e m0) as [[k s]|] eqn:Hlink; last by (left; eauto).
      simpl in Hl. apply elem_of_app in Hl as [Hl|Hl]; first by (left; eauto).
      apply list_elem_of_singleton in Hl as ->.
      right. exists (k, s). split.
      * apply list_elem_of_omap. by exists m0.
      * right. simpl. apply link_of_Some in Hlink as (_ & e' & _ & _ & [= -> _]). done.
    + apply list_elem_of_singleton in Hm as ->. simpl in Hl |- *.
      right. exists l. split; [done | by left].
  - apply elem_of_app in Hm as [Hm|Hm]; first by eauto.
    apply list_elem_of_singleton in Hm as ->. simpl in Hl. by apply elem_of_nil in Hl.
Qed.

Lemma reachable_links swallows sys :
  reachable swallows sys → graph_symmetric (memory_graph sys) ∧ links_indexed sys.
Proof.
  induction 1 as [now db|sys op Hreach [IHsym IHidx]].
  - split.
    + intros a b s H. unfold graph_lookup in H. simpl in H.
      rewrite lookup_empty in H. by apply elem_of_nil in H.
    + intros m l Hm. by apply elem_of_nil in Hm.
  - pose proof (reachable_shape _ _ Hreach) as Hshape.
    destruct op; simpl.
    + split; [by apply store_graph_symmetric|].
      apply store_links_indexed; [apply Hshape | done].
    + pose proof (retrieve_fields swallows sys query k db_up now)
        as (_ & _ & Hg & _ & Hsame).
      simpl in Hg. rewrite Hg. split; [done|].
      intros m l Hm Hl. rewrite Hg.
      destruct (same_links_view _ _ _ (Hsame _ links_view (λ _ _, eq_refl)) Hm)
        as (m0 & Hm0 & <- & Hc).
      apply IHidx; [done | by rewrite Hc].
    + destruct (consolidate_shape sys now commit_ok Hshape) as (_ & Hw & _ & Hg & _).
      simpl in Hw, Hg. split; [by rewrite Hg|].
      intros m l. rewrite Hw, Hg. apply IHidx.
Qed.

(** C7: a store of a node with an embedding looks at the residents of the
    working tier that are still there and at those of the short-term tier. A
    resident of another id that has an embedding is linked when, and only
    when, its cosine similarity with the new node is above 0.7. Each link
    appends the similarity, as strength, to the connections of both nodes and
    to the adjacency index under both ids. In every state that the operations
    produce, the index holds the mirror of each of its links with the same
    strength, and it holds the connections of every resident node. In
    scenario 2 the two similar nodes are linked to each other with strength
    0.85 and the third node, of similarity 0.5 to both, has no link. *)
Theorem C7_links_on_store_are_symmetric :
  (∀ sys message_id content importance e now,
     let new_id := "mem_" +:+ message_id in
     let residents := kept sys ++ (snd <$> short_term_memory sys) in
     let links := omap (link_of new_id e) residents in
     ∃ node,
       store_interaction sys message_id content importance (Ok (Some e)) now
         = ((store_interaction sys message_id content importance (Ok (Some e)) now).1,
            Ok node)
       ∧ node_id node = new_id
       ∧ connections node = links
       ∧ working_memory
           (store_interaction sys message_id content importance (Ok (Some e)) now).1
         = (linked new_id e <$> kept sys) ++ [node]
       ∧ snd <$> short_term_memory
                   (store_interaction sys message_id content importance
                                      (Ok (Some e)) now).1
         = linked new_id e <$> (snd <$> short_term_memory sys)
       ∧ memory_graph
           (store_interaction sys message_id content importance (Ok (Some e)) now).1
         = foldl (index_link new_id) (memory_graph sys) links)
  ∧ (∀ new_id e m l,
       link_of new_id e m = Some l
       ↔ node_id m ≠ new_id
         ∧ ∃ e', embedding m = Some e'
                 ∧ fgt (cosine_similarity e e') 0.7 = true
                 ∧ l = (node_id m, cosine_similarity e e'))
  ∧ (∀ new_id e m,
       match link_of new_id e m with
       | Some (_, strength) =>
           connections (linked new_id e m) = connections m ++ [(new_id, strength)]
       | None => linked new_id e m = m
       end)
  ∧ (∀ new_id g l a x,
       x ∈ graph_lookup (index_link new_id g l) a
       ↔ x ∈ graph_lookup g a ∨ (a = new_id ∧ x = l) ∨ (a = l.1 ∧ x = (new_id, l.2)))
  ∧ (∀ swallows now0 db ops,
       let sys := run swallows (new_system now0 db) ops in
       (∀ a b s, (b, s) ∈ graph_lookup (memory_graph sys) a →
                 (a, s) ∈ graph_lookup (memory_graph sys) b)
       ∧ (∀ m b s, m ∈ working_memory sys → (b, s) ∈ connections m →
                   (b, s) ∈ graph_lookup (memory_graph sys) (node_id m)
                   ∧ (node_id m, s) ∈ graph_lookup (memory_graph sys) b))
  ∧ (links_view <$> working_memory scenario_2
     = [("mem_a", [("mem_b", 0.85%float)]);
        ("mem_b", [("mem_a", 0.85%float)]);
        ("mem_c", [])]
     ∧ graph_lookup (memory_graph scenario_2) "mem_a" = [("mem_b", 0.85%float)]
     ∧ graph_lookup (memory_graph scenario_2) "mem_b" = [("mem_a", 0.85%float)]
     ∧ graph_lookup (memory_graph scenario_2) "mem_c" = []
     ∧ (cosine_similarity [1; 0; 1; 1; -1] [1; 0; 0; 0; 0] = 0.5)%float
     ∧ (cosine_similarity [1; 0; 1; 1; -1] [17; 10; 3; 1; 1] = 0.5)%float).
Proof.
  split; [|split; [|split; [|split; [|split]]]].
  - intros sys message_id content importance e now. cbv zeta.
    rewrite store_interaction_spec. cbv zeta. simpl.
    eexists. split; [done|]. split; [done|]. split; [done|]. split; [done|].
    split; [|done].
    apply snd_zip. rewrite !length_fmap. done.
  - apply link_of_Some.
  - intros new_id e m. unfold linked.
    by destruct (link_of new_id e m) as [[k s]|].
  - apply elem_of_index_link.
  - intros swallows now0 db ops. cbv zeta.
    destruct (reachable_links swallows _ (reachable_run swallows now0 db ops))
      as [Hsym Hidx].
    split; [exact Hsym|]. intros m b s Hm Hl.
    pose proof (Hidx m (b, s) Hm Hl) as H. split; [done | by apply Hsym].
  - repeat split; by vm_compute.
Qed.

(** ** Spreading activation (C2) *)

Lemma has_key_set {V : Type} (k k' : string) (v : V) (d : list (string * V)) :
  has_key k (assoc_set k' v d) = bool_decide (k' = k) || has_key k d.
Proof.
  unfold has_key. rewrite assoc_get_set. by destruct (bool_decide (k' = k)).
Qed.

Lemma uncovered_set_le short_term k v scores :
  uncovered short_term (assoc_set k v scores) ≤ uncovered short_term scores.
Proof.
  unfold uncovered. induction short_term as [|[k0 n0] st IH]; first done.
  rewrite !filter_cons. simpl. rewrite has_key_set.
  destruct (bool_decide (k = k0)); simpl.
  - destruct (has_key k0 scores); simpl; lia.
  - destruct (has_key k0 scores); simpl; lia.
Qed.

Lemma uncovered_set_lt short_term k v scores :
  has_key k scores = false →
  is_Some (assoc_get k short_term) →
  uncovered short_term (assoc_set k v scores) < uncovered short_term scores.
Proof.
  intros Hnew. unfold uncovered.
  induction short_term as [|[k0 n0] st IH]; simpl.
  { by intros [? ?]. }
  intros Hin. rewrite !filter_cons. simpl. rewrite has_key_set.
  destruct (bool_decide_reflect (k0 = k)) as [->|Hne].
  - rewrite bool_decide_true by done. simpl. rewrite Hnew. simpl.
    pose proof (uncovered_set_le st k v scores). unfold uncovered in *. lia.
  - rewrite bool_decide_false by done. simpl.
    specialize (IH Hin). destruct (has_key k0 scores); simpl; lia.
Qed.

Lemma spread_links_cons short_term a d cid strength rest scores queue :
  let spread := (a * strength * d)%float in
  spread_links short_term a d ((cid, strength) :: rest) scores queue
  = if fgt spread 0.1 then
      spread_links short_term a d rest
        (assoc_set cid
                   match assoc_get cid scores with
                   | Some existing => py_max existing spread
                   | None => spread
                   end scores)
        match assoc_get cid scores, assoc_get cid short_term with
        | None, Some node => queue ++ [((InShortTerm cid, node), spread)]
        | _, _ => queue
        end
    else spread_links short_term a d rest scores queue.
Proof.
  simpl. destruct (fgt _ 0.1); last done.
  destruct (assoc_get cid scores); first done.
  by destruct (assoc_get cid short_term).
Qed.

Lemma spread_links_measure short_term a d links scores queue :
  length (spread_links short_term a d links scores queue).2
  + uncovered short_term (spread_links short_term a d links scores queue).1
  ≤ length queue + uncovered short_term scores.
Proof.
  revert scores queue.
  induction links as [|[cid strength] rest IH]; intros scores queue; first done.
  rewrite spread_links_cons. cbv zeta.
  destruct (fgt _ 0.1); last apply IH.
  etransitivity; first apply IH.
  destruct (assoc_get cid scores) as [existing|] eqn:Hscore.
  { pose proof (uncovered_set_le short_term cid
                  (py_max existing (a * strength * d)%float) scores). lia. }
  destruct (assoc_get cid short_term) as [node|] eqn:Hshort.
  - rewrite length_app. simpl.
    pose proof (uncovered_set_lt short_term cid (a * strength * d)%float scores) as Hlt.
    unfold has_key in Hlt at 1. rewrite Hscore, Hshort in Hlt.
    specialize (Hlt eq_refl (ex_intro _ node eq_refl)). lia.
  - pose proof (uncovered_set_le short_term cid (a * strength * d)%float scores). lia.
Qed.

(** The queue only grows by residents of the short-term tier. *)
Lemma spread_links_queue short_term a d links scores queue :
  ∃ extra,
    (spread_links short_term a d links scores queue).2 = queue ++ extra
    ∧ ∀ x, x ∈ extra →
           ∃ key node s, x = ((InShortTerm key, node), s)
                         ∧ assoc_get key short_term = Some node.
Proof.
  revert scores queue.
  induction links as [|[cid strength] rest IH]; intros scores queue.
  { exists []. split; [by rewrite app_nil_r|]. intros x Hx. by apply elem_of_nil in Hx. }
  rewrite spread_links_cons. cbv zeta.
  destruct (fgt _ 0.1); last apply IH.
  destruct (assoc_get cid scores) as [existing|]; first apply IH.
  destruct (assoc_get cid short_term) as [node|] eqn:Hshort; last apply IH.
  edestruct IH as (extra & -> & Hextra).
  eexists (_ :: extra). split; [by rewrite <- app_assoc|].
  intros x [->|Hx]%elem_of_cons; [by eexists _, _, _ | by apply Hextra].
Qed.

Lemma spread_loop_total fuel short_term d queue visited scores :
  length queue + uncovered short_term scores ≤ fuel →
  is_Some (spread_loop fuel short_term d queue visited scores).
Proof.
  revert queue visited scores.
  induction fuel as [|fuel IH]; intros queue visited scores Hfuel.
  { destruct queue; [by eexists | simpl in Hfuel; lia]. }
  destruct queue as [|[[o m] a] queue]; first by eexists.
  simpl in *. destruct (bool_decide (node_id m ∈ visited)).
  - apply IH. lia.
  - pose proof (spread_links_measure short_term a d (connections m) scores queue) as H.
    destruct (spread_links short_term a d (connections m) scores queue)
      as [scores' queue'].
    apply IH. simpl in H. lia.
Qed.

Lemma final_scores_total short_term d seeds :
  is_Some (final_scores short_term d seeds).
Proof.
  apply spread_loop_total. unfold spread_fuel, uncovered.
  pose proof (length_filter (λ kv : string * MemoryNode,
                               has_key kv.1 (initial_scores seeds) = false) short_term).
  lia.
Qed.

Lemma spread_step_eq short_term d o m a queue visited scores :
  spread_step short_term d ((o, m), a) queue visited scores
  = if bool_decide (node_id m ∈ visited) then (queue, visited, scores)
    else ((spread_links short_term a d (connections m) scores queue).2,
          {[node_id m]} ∪ visited,
          (spread_links short_term a d (connections m) scores queue).1).
Proof.
  unfold spread_step.
  destruct (bool_decide (node_id m ∈ visited)); first done.
  by destruct (spread_links short_term a d (connections m) scores queue).
Qed.

Lemma spread_loop_done fuel short_term d visited scores :
  spread_loop fuel short_term d [] visited scores = Some scores.
Proof. by destruct fuel. Qed.

Lemma link_effect_spec short_term a d neighbor strength scores queue s :
  link_effect short_term a d neighbor strength (scores, queue) s
  ↔ s = spread_links short_term a d [(neighbor, strength)] scores queue.
Proof.
  rewrite spread_links_cons. cbv zeta. cbn [spread_links]. unfold fgt, py_max, fgt.
  split.
  - inversion 1 as [? ? Hlow|? ? existing Hhigh Hscore|? ? Hhigh Hscore Hshort
                    |? ? node Hhigh Hscore Hshort]; subst;
      rewrite ?Hlow, ?Hhigh, ?Hscore, ?Hshort; done.
  - intros ->. destruct (PrimFloat.ltb 0.1 _) eqn:Hspread; first last.
    { by constructor. }
    destruct (assoc_get neighbor scores) as [existing|] eqn:Hscore.
    { by constructor. }
    destruct (assoc_get neighbor short_term) as [node|] eqn:Hshort; by constructor.
Qed.

Lemma spread_links_app short_term a d links1 links2 scores queue :
  spread_links short_term a d (links1 ++ links2) scores queue
  = spread_links short_term a d links2
      (spread_links short_term a d links1 scores queue).1
      (spread_links short_term a d links1 scores queue).2.
Proof.
  revert scores queue. induction links1 as [|[n s] links1 IH]; intros scores queue.
  { done. }
  rewrite <- app_comm_cons, !spread_links_cons. cbv zeta.
  destruct (fgt _ 0.1); apply IH.
Qed.

Lemma links_effect_spec short_term a d links scores queue s :
  links_effect short_term a d links (scores, queue) s
  ↔ s = spread_links short_term a d links scores queue.
Proof.
  revert scores queue. induction links as [|[n str] links IH]; intros scores queue.
  { split; [by inversion 1 | intros ->; constructor]. }
  change ((n, str) :: links) with ([(n, str)] ++ links).
  rewrite spread_links_app. split.
  - inversion 1 as [|? ? ? ? [scores1 queue1] ? Hlink Hrest]; subst.
    apply link_effect_spec in Hlink. apply IH in Hrest. by rewrite <- Hlink.
  - intros ->.
    destruct (spread_links short_term a d [(n, str)] scores queue)
      as [scores1 queue1] eqn:E.
    apply (links_next _ _ _ _ _ _ _ (scores1, queue1)).
    + apply link_effect_spec. by rewrite E.
    + by apply IH.
Qed.

Lemma turn_spec short_term d w w' :
  turn short_term d w w'
  ↔ ∃ current queue,
      w_queue w = current :: queue
      ∧ w' = let '(queue', visited', scores') :=
               spread_step short_term d current queue (w_visited w) (w_scores w) in
             mkWalk queue' visited' scores'.
Proof.
  split.
  - inversion 1 as [o m a queue visited scores Hin
                   |o m a queue visited scores scores' queue' Hout Hlinks]; subst;
      exists ((o, m), a), queue; (split; [done|]);
      cbn [w_queue w_visited w_scores]; rewrite spread_step_eq.
    + by rewrite bool_decide_true.
    + rewrite bool_decide_false by done.
      apply links_effect_spec in Hlinks. by rewrite <- Hlinks.
  - destruct w as [queue0 visited scores].
    intros ([[o m] a] & queue & Hq & ->). cbn [w_queue w_visited w_scores] in *.
    subst queue0.
    rewrite spread_step_eq.
    destruct (bool_decide_reflect (node_id m ∈ visited)); first by constructor.
    constructor; first done. apply links_effect_spec.
    by destruct (spread_links short_term a d (connections m) scores queue).
Qed.

Lemma spread_loop_turns fuel short_term d queue visited scores result :
  spread_loop fuel short_term d queue visited scores = Some result →
  ∃ visited',
    rtc (turn short_term d) (mkWalk queue visited scores) (mkWalk [] visited' result).
Proof.
  revert queue visited scores.
  induction fuel as [|fuel IH]; intros queue visited scores.
  { destruct queue; [|done]. intros [= <-]. by exists visited. }
  destruct queue as [|current queue].
  { intros [= <-]. by exists visited. }
  cbn [spread_loop].
  destruct (spread_step short_term d current queue visited scores)
    as [[queue1 visited1] scores1] eqn:Hstep.
  intros Hloop. destruct (IH _ _ _ Hloop) as [visited' Hrtc].
  exists visited'. eapply rtc_l; last exact Hrtc.
  apply turn_spec. exists current, queue. split; first done.
  cbn [w_queue w_visited w_scores]. by rewrite Hstep.
Qed.

Lemma turn_deterministic short_term d w w1 w2 :
  turn short_term d w w1 → turn short_term d w w2 → w1 = w2.
Proof.
  intros (c1 & q1 & Hq1 & ->)%turn_spec (c2 & q2 & Hq2 & ->)%turn_spec.
  rewrite Hq1 in Hq2. by injection Hq2 as -> ->.
Qed.

Lemma turns_end_once short_term d w f1 f2 :
  rtc (turn short_term d) w f1 → rtc (turn short_term d) w f2 →
  w_queue f1 = [] → w_queue f2 = [] → f1 = f2.
Proof.
  intros H1. revert f2. induction H1 as [w|w w1 f1 Hstep _ IH]; intros f2 H2 Hf1 Hf2.
  - inversion H2 as [|? w2 ? Hstep2 _]; subst; first done.
    apply turn_spec in Hstep2 as (? & ? & Hq & _). by rewrite Hf1 in Hq.
  - inversion H2 as [|? w2 ? Hstep2 Hrest]; subst.
    + apply turn_spec in Hstep as (? & ? & Hq & _). by rewrite Hf2 in Hq.
    + rewrite (turn_deterministic _ _ _ _ _ Hstep2 Hstep) in Hrest. by apply IH.
Qed.

(** C2: the loop of [_spreading_activation] is the walk of the
    specification. One turn pops the head of the queue; a node already
    visited is passed over, another one is marked visited and each of its
    links [(neighbor, strength)] is taken in order with the value
    [current_activation * strength * decay_factor], the factor being 0.7.
    A value that is not above 0.1 is dropped. A value above 0.1 becomes the
    score of a neighbour that had none, and the greater of the two for a
    neighbour that had one; the neighbour joins the queue only when it gets
    its first score and is a resident of the short-term tier, so a node that
    is not resident there is a leaf. The turns go on until the queue is
    empty, which always happens, and the scores are then those of the walk.
    A single seed of activation 0.9 with one link of strength 0.8 to a node
    that is not a short-term resident leaves that node with the score
    0.504, which is [0.9 * 0.8 * 0.7] exactly; through a short-term
    resident the activation goes one link further; a score of 0.3 is raised
    to 0.504 and a score of 0.9 is kept against 0.168; a value of 0.07 is
    not recorded. *)
Theorem C2_spreading_activation :
  (∀ short_term a d links scores queue s,
     links_effect short_term a d links (scores, queue) s
     ↔ s = spread_links short_term a d links scores queue)
  ∧ (∀ short_term d w w',
       turn short_term d w w'
       ↔ ∃ current queue,
           w_queue w = current :: queue
           ∧ w' = let '(queue', visited', scores') :=
                    spread_step short_term d current queue (w_visited w) (w_scores w) in
                  mkWalk queue' visited' scores')
  ∧ (∀ short_term d seeds,
       ∃ scores visited,
         final_scores short_term d seeds = Some scores
         ∧ rtc (turn short_term d) (mkWalk seeds ∅ (initial_scores seeds))
               (mkWalk [] visited scores))
  ∧ (∀ short_term d seeds visited scores,
       rtc (turn short_term d) (mkWalk seeds ∅ (initial_scores seeds))
           (mkWalk [] visited scores) →
       final_scores short_term d seeds = Some scores)
  ∧ (∀ short_term a d links scores queue,
       ∃ extra,
         (spread_links short_term a d links scores queue).2 = queue ++ extra
         ∧ ∀ x, x ∈ extra →
                ∃ key node s, x = ((InShortTerm key, node), s)
                              ∧ assoc_get key short_term = Some node)
  ∧ (∀ short_term o seed neighbor,
       connections seed = [(neighbor, 0.8%float)] →
       node_id seed ≠ neighbor →
       assoc_get neighbor short_term = None →
       final_scores short_term 0.7 [((o, seed), 0.9%float)]
       = Some [(node_id seed, 0.9%float); (neighbor, 0.504%float)])
  ∧ final_scores [("b", node_with_links "b" [("c", 0.9%float)])] 0.7
      [((InWorking 0, node_with_links "a" [("b", 0.8%float)]), 0.9%float)]
    = Some [("a", 0.9%float); ("b", 0.504%float); ("c", (0.504 * 0.9 * 0.7)%float)]
  ∧ final_scores [] 0.7
      [((InWorking 0, node_with_links "a" [("b", 0.8%float)]), 0.9%float);
       ((InWorking 1, node_with_links "b" [("a", 0.8%float)]), 0.3%float)]
    = Some [("a", 0.9%float); ("b", 0.504%float)]
  ∧ final_scores [] 0.7
      [((InWorking 0, node_with_links "a" [("b", 0.2%float)]), 0.5%float)]
    = Some [("a", 0.5%float)]
  ∧ (0.9 * 0.8 * 0.7 = 0.504)%float.
Proof.
  split; [apply links_effect_spec|].
  split; [apply turn_spec|].
  split.
  { intros short_term d seeds.
    destruct (final_scores_total short_term d seeds) as [scores Hscores].
    destruct (spread_loop_turns _ _ _ _ _ _ _ Hscores) as [visited Hturns].
    by exists scores, visited. }
  split.
  { intros short_term d seeds visited scores Hturns.
    destruct (final_scores_total short_term d seeds) as [scores' Hscores].
    destruct (spread_loop_turns _ _ _ _ _ _ _ Hscores) as [visited' Hturns'].
    rewrite Hscores. f_equal.
    by injection (turns_end_once _ _ _ _ _ Hturns' Hturns eq_refl eq_refl). }
  split; [apply spread_links_queue|].
  split.
  { intros short_term o seed neighbor Hlinks Hne Hleaf.
    unfold final_scores, spread_fuel.
    change (length [((o, seed), 0.9%float)] + length short_term)
      with (S (length short_term)).
    change (initial_scores [((o, seed), 0.9%float)]) with [(node_id seed, 0.9%float)].
    cbn [spread_loop]. rewrite spread_step_eq.
    rewrite bool_decide_false by set_solver.
    rewrite Hlinks, spread_links_cons. cbv zeta.
    change (0.9 * 0.8 * 0.7)%float with 0.504%float.
    change (fgt 0.504 0.1) with true. cbv iota.
    assert (assoc_get neighbor [(node_id seed, 0.9%float)] = None) as ->.
    { simpl. by rewrite bool_decide_false. }
    rewrite Hleaf. cbn [spread_links assoc_set fst snd].
    rewrite bool_decide_false by done.
    apply spread_loop_done. }
  split; [by vm_compute|]. split; [by vm_compute|]. split; [by vm_compute|].
  reflexivity.
Qed.

(** * Further properties of the code *)

(** ** Elapsed time is read through the seconds field *)

Lemma timedelta_seconds_days (later earlier n : Z) :
  timedelta_seconds (later + n * one_day)%Z earlier = timedelta_seconds later earlier.
Proof.
  unfold timedelta_seconds, one_day.
  replace (later + n * 86400000000 - earlier)%Z
    with ((later - earlier) + (n * 86400) * 1000000)%Z by lia.
  rewrite Z.div_add by lia. rewrite Z.mod_add by lia. done.
Qed.

Lemma timedelta_seconds_first_day (later earlier : Z) :
  (0 ≤ later - earlier < one_day)%Z →
  timedelta_seconds later earlier = ((later - earlier) `div` 1000000)%Z.
Proof.
  unfold timedelta_seconds, one_day. intros H.
  apply Z.mod_small. split.
  - apply Z.div_pos; lia.
  - apply Z.div_lt_upper_bound; lia.
Qed.

(** X1: [should_consolidate] reads the elapsed time through the seconds
    field of the time difference, which leaves whole days out: its answer is
    the same any number of whole days later. With the interval of
    [MemoryController()], a controller whose last pass is exactly [n] days
    old (300 seconds are long past for n > 0) is told that no pass is due. *)
Theorem X1_should_consolidate_ignores_whole_days c (now n : Z) :
  should_consolidate c (now + n * one_day)%Z = should_consolidate c now
  ∧ should_consolidate (default_controller now) (now + n * one_day)%Z = false.
Proof.
  unfold should_consolidate. rewrite !timedelta_seconds_days. split; first done.
  simpl. unfold timedelta_seconds. rewrite Z.sub_diag. done.
Qed.

Lemma should_consolidate_first_day c (now : Z) :
  (0 ≤ now - last_consolidation c < one_day)%Z →
  should_consolidate c now = true
  ↔ (consolidation_interval c * 1000000 ≤ now - last_consolidation c)%Z.
Proof.
  intros H. unfold should_consolidate.
  rewrite bool_decide_eq_true, timedelta_seconds_first_day by done.
  unfold one_day in H. split; intros Hle.
  - pose proof (Z.mul_div_le (now - last_consolidation c) 1000000). nia.
  - apply Z.div_le_lower_bound; lia.
Qed.

Lemma should_consolidate_too_soon c (now : Z) :
  (0 ≤ now - last_consolidation c < consolidation_interval c * 1000000)%Z →
  should_consolidate c now = false.
Proof.
  intros H. unfold should_consolidate. apply bool_decide_eq_false.
  unfold timedelta_seconds.
  assert (0 ≤ (now - last_consolidation c) `div` 1000000
          < consolidation_interval c)%Z as Hq.
  { split; [apply Z.div_pos; lia | apply Z.div_lt_upper_bound; lia]. }
  pose proof (Z.mod_le ((now - last_consolidation c) `div` 1000000) 86400). lia.
Qed.

(** X2: within the first day after the last pass, a pass is due exactly when
    at least [consolidation_interval] seconds have elapsed. *)
Theorem X2_should_consolidate_first_day c (now : Z) :
  (0 ≤ now - last_consolidation c < one_day)%Z →
  should_consolidate c now = true
  ↔ (consolidation_interval c * 1000000 ≤ now - last_consolidation c)%Z.
Proof. apply should_consolidate_first_day. Qed.

Lemma X2_should_consolidate_first_day_witness :
  should_consolidate (default_controller 0%Z) 300000000%Z = true
  ↔ (consolidation_interval (default_controller 0) * 1000000
     ≤ 300000000 - last_consolidation (default_controller 0))%Z.
Proof.
  apply (X2_should_consolidate_first_day (default_controller 0%Z) 300000000%Z).
  simpl. unfold one_day. lia.
Defined.

(** X3: the rank of the working tier takes the age of a node through the
    same seconds field: a node ranks the same any number of whole days
    later, so a node that is exactly a day old ranks as one just stored. *)
Theorem X3_working_rank_ignores_whole_days (now n : Z) m :
  working_rank (now + n * one_day)%Z m = working_rank now m
  ∧ working_rank (timestamp m + one_day)%Z m = working_rank (timestamp m) m.
Proof.
  unfold working_rank. split.
  - by rewrite timedelta_seconds_days.
  - replace (timestamp m + one_day)%Z with (timestamp m + 1 * one_day)%Z by lia.
    by rewrite timedelta_seconds_days.
Qed.

(** ** The order that the sort leaves *)

(** X26: on keys that can be compared, the sort that the pass and the
    retrieval use leaves a permutation of its list in which no item has a
    lower key than an item after it, and in which the items of equal key
    are in the order they had: the stable sort in descending order. *)
Theorem X26_sorted_is_the_stable_descending_order {A : Type} (key : A → float)
    (l : list A) :
  comparable key l →
  sorted_desc key l ≡ₚ l
  ∧ (∀ i j x y, i < j → sorted_desc key l !! i = Some x → sorted_desc key l !! j = Some y →
                PrimFloat.ltb (key x) (key y) = false)
  ∧ (∀ k, filter (λ x, PrimFloat.eqb (key x) k = true) (sorted_desc key l)
          = filter (λ x, PrimFloat.eqb (key x) k = true) l).
Proof.
  intros Hcmp. split; [apply sorted_desc_perm|]. split.
  - intros i j x y Hij Hi Hj.
    apply (StronglySorted_lookup (not_below key) _ i j x y
             (sorted_desc_sorted key l Hcmp) Hij Hi Hj).
  - intros k. rewrite <- sorted_desc_filter by done.
    apply sorted_desc_of_sorted.
    induction l as [|x l IH]; first constructor.
    apply Forall_cons in Hcmp as [_ Hcmp].
    rewrite filter_cons. destruct (decide _) as [Hx|_]; last by apply IH.
    constructor; first by apply IH.
    apply Forall_forall. intros y [Hy _]%list_elem_of_filter.
    by apply (eqb_not_below _ _ k).
Qed.

Lemma X26_sorted_is_the_stable_descending_order_witness :
  let l := [("a", 0.5); ("b", 0.9); ("c", 0.5); ("d", 0.7)]%float in
  comparable snd l
  ∧ sorted_desc (snd : string * float → float) l
    = [("b", 0.9); ("d", 0.7); ("a", 0.5); ("c", 0.5)]%float
  ∧ filter (λ x, PrimFloat.eqb x.2 0.5 = true) (sorted_desc snd l)
    = [("a", 0.5); ("c", 0.5)]%float.
Proof.
  cbv zeta.
  assert (comparable snd [("a", 0.5); ("b", 0.9); ("c", 0.5); ("d", 0.7)]%float) as Hcmp.
  { apply (bool_decide_unpack _). by vm_compute. }
  destruct (X26_sorted_is_the_stable_descending_order
              snd [("a", 0.5); ("b", 0.9); ("c", 0.5); ("d", 0.7)]%float Hcmp)
    as (_ & _ & Hstable).
  split; [done|]. split; [by vm_compute|].
  rewrite Hstable. by vm_compute.
Defined.

(** ** What a consolidation pass selects *)

(** The list that a pass cuts at the short-term capacity. *)
(** X4: a pass over tiers within their capacities selects nothing: when the
    short-term nodes and the working nodes in excess of [working_memory_size]
    are together no more than [short_term_size], no node is persisted and no
    id is removed, whatever the importance and the access counts. *)
Theorem X4_pass_within_capacity_selects_nothing c now working short_term :
  length short_term + (length working - working_memory_size c) ≤ short_term_size c →
  (consolidate_memories c now working short_term).2 = ([], []).
Proof.
  intros Hcap. rewrite consolidate_memories_plan.
  rewrite drop_ge; first done.
  rewrite length_sorted_desc, length_app, length_drop, length_sorted_desc. lia.
Qed.

Lemma X4_pass_within_capacity_selects_nothing_witness :
  (consolidate_memories (default_controller 0%Z) 1000000%Z (working_memory twenty)
                        (snd <$> take 100 (short_term_memory crowded))).2 = ([], []).
Proof.
  apply (X4_pass_within_capacity_selects_nothing (default_controller 0%Z) 1000000%Z).
  vm_compute. lia.
Defined.

(** X5: a pass disposes of exactly the nodes in excess: the nodes it
    persists and the ids it removes are together as many as the short-term
    nodes, with the working nodes in excess of [working_memory_size], exceed
    [short_term_size]. *)
Theorem X5_pass_disposes_of_the_excess c now working short_term :
  let plan := (consolidate_memories c now working short_term).2 in
  length plan.1 + length plan.2
  = length short_term + (length working - working_memory_size c) - short_term_size c.
Proof.
  cbv zeta. rewrite consolidate_memories_plan, partition_overflow_spec. simpl.
  rewrite length_fmap.
  set (l := drop _ _).
  assert (length l
          = length short_term + (length working - working_memory_size c)
            - short_term_size c) as <-.
  { unfold l. rewrite length_drop, length_sorted_desc, length_app, length_drop,
      length_sorted_desc. done. }
  clear. induction l as [|m l IH]; first done.
  rewrite !filter_cons. destruct (worth_persisting m); simpl; lia.
Qed.

(** X6: a pass selects among the nodes it is given: each node it persists
    is one of the short-term or working nodes and passes the test of
    importance or access count; each id it removes is the id of such a node
    that fails the test. *)
Theorem X6_pass_selects_among_its_nodes c now working short_term :
  let plan := (consolidate_memories c now working short_term).2 in
  (∀ m, m ∈ plan.1 → m ∈ short_term ++ working ∧ worth_persisting m = true)
  ∧ (∀ i, i ∈ plan.2 →
          ∃ m, m ∈ short_term ++ working ∧ node_id m = i
               ∧ worth_persisting m = false).
Proof.
  cbv zeta. rewrite consolidate_memories_plan, partition_overflow_spec. simpl.
  assert (∀ m,
            m ∈ drop (short_term_size c)
                     (sorted_desc short_term_rank
                        (short_term ++ drop (working_memory_size c)
                                            (sorted_desc (working_rank now) working))) →
            m ∈ short_term ++ working) as Hfrom.
  { intros m Hm.
    pose proof (elem_of_sublist _ _ _ Hm (sublist_drop _ _)) as Hm'.
    rewrite sorted_desc_perm in Hm'.
    apply elem_of_app in Hm' as [?|Hw]; apply elem_of_app; first by left.
    right. pose proof (elem_of_sublist _ _ _ Hw (sublist_drop _ _)) as Hw'.
    by rewrite sorted_desc_perm in Hw'. }
  split.
  - intros m [Hworth Hm]%list_elem_of_filter. split; [by apply Hfrom | done].
  - intros i (m & -> & [Hworth Hm]%list_elem_of_filter)%list_elem_of_fmap.
    exists m. split; [by apply Hfrom | done].
Qed.

(** ** What a consolidation pass does to the system, in any state *)

Lemma consolidate_frame sys now commit_ok :
  let sys' := (_consolidate_memories sys now commit_ok).1 in
  working_memory sys' = working_memory sys
  ∧ memory_graph sys' = memory_graph sys
  ∧ short_term_memory sys' `sublist_of` short_term_memory sys
  ∧ last_consolidation (memory_controller sys') = now
  ∧ working_memory_size (memory_controller sys')
    = working_memory_size (memory_controller sys)
  ∧ short_term_size (memory_controller sys') = short_term_size (memory_controller sys)
  ∧ consolidation_interval (memory_controller sys')
    = consolidation_interval (memory_controller sys).
Proof.
  cbv zeta. rewrite consolidate_cases. cbv zeta.
  destruct (persist_all _ _ _) as [db'|e]; [destruct commit_ok|]; simpl;
    repeat split; try done; apply sublist_filter.
Qed.

(** X7: in any state, a consolidation pass leaves the working deque and the
    adjacency index as they are, keeps the sizes and the interval of the
    controller and records its own time as the time of the last pass, also
    when it ends with an exception. It adds no entry to the short-term tier:
    the entries afterwards are entries from before, in their order, so the
    working nodes that the pass ranks beyond [working_memory_size] are put in
    no tier by it. *)
Theorem X7_pass_frame sys now commit_ok :
  let sys' := (_consolidate_memories sys now commit_ok).1 in
  working_memory sys' = working_memory sys
  ∧ memory_graph sys' = memory_graph sys
  ∧ short_term_memory sys' `sublist_of` short_term_memory sys
  ∧ last_consolidation (memory_controller sys') = now
  ∧ working_memory_size (memory_controller sys')
    = working_memory_size (memory_controller sys)
  ∧ short_term_size (memory_controller sys') = short_term_size (memory_controller sys)
  ∧ consolidation_interval (memory_controller sys')
    = consolidation_interval (memory_controller sys).
Proof. apply consolidate_frame. Qed.

(** X8: the removals of a pass are not tied to its commit. When the commit
    fails the pass ends with an exception and the durable store is as it was,
    but the tiers are the same as after a pass whose commit went through: the
    ids selected for removal are gone from the short-term tier. *)
Theorem X8_failed_commit_keeps_the_removals sys now :
  let failed := _consolidate_memories sys now false in
  let passed := _consolidate_memories sys now true in
  short_term_memory failed.1 = short_term_memory passed.1
  ∧ working_memory failed.1 = working_memory passed.1
  ∧ database failed.1 = database sys
  ∧ failed.2 ≠ Ok tt.
Proof.
  cbv zeta. rewrite !consolidate_cases. cbv zeta.
  destruct (persist_all _ _ _) as [db'|e]; simpl; done.
Qed.

(** X9: a pass that ends with [MultipleResultsFound], because two profiles
    of the durable store have the address of the sender of a node to
    persist, has removed nothing and written nothing: both tiers and the
    durable store are as they were, whatever else the pass had selected. *)
Theorem X9_ambiguous_profile_aborts_the_pass sys now commit_ok :
  (_consolidate_memories sys now commit_ok).2 = Raise MultipleResultsFound →
  let sys' := (_consolidate_memories sys now commit_ok).1 in
  short_term_memory sys' = short_term_memory sys
  ∧ working_memory sys' = working_memory sys
  ∧ database sys' = database sys.
Proof.
  cbv zeta. rewrite consolidate_cases. cbv zeta.
  destruct (persist_all _ _ _) as [db'|e]; last done.
  by destruct commit_ok.
Qed.

Lemma X9_ambiguous_profile_aborts_the_pass_witness :
  let sys' := (_consolidate_memories two_profiles 1000000%Z true).1 in
  short_term_memory sys' = short_term_memory two_profiles
  ∧ working_memory sys' = working_memory two_profiles
  ∧ database sys' = database two_profiles.
Proof.
  apply (X9_ambiguous_profile_aborts_the_pass two_profiles 1000000%Z true).
  vm_compute. reflexivity.
Defined.

(** ** The background loop *)

Lemma reachable_run_from swallows sys ops :
  reachable swallows sys → reachable swallows (run swallows sys ops).
Proof.
  intros H. unfold run. induction ops as [|op ops IH] using rev_ind; first done.
  rewrite foldl_app. simpl. by constructor.
Qed.

(** What the loop does is what the passes it runs do. *)
Lemma consolidation_loop_run swallows sys wakeups :
  ∃ ops, Forall is_pass ops
         ∧ length ops ≤ length wakeups
         ∧ (_consolidation_loop sys wakeups).1 = run swallows sys ops.
Proof.
  revert sys. induction wakeups as [|[now commit_ok|] rest IH]; intros sys; simpl.
  - exists []. by repeat split.
  - destruct (should_consolidate (memory_controller sys) now).
    + destruct (_consolidate_memories sys now commit_ok) as [sys' outcome] eqn:E.
      destruct (IH sys') as (ops & Hops & Hlen & Hrun).
      destruct (_consolidation_loop sys' rest) as [sys'' logged].
      exists (RunConsolidation now commit_ok :: ops). simpl in *.
      split; [by constructor|]. split; [lia|]. by rewrite E.
    + destruct (IH sys) as (ops & Hops & Hlen & Hrun).
      exists ops. split; [done|]. split; [lia | done].
  - exists []. repeat split; [done | simpl; lia].
Qed.

(** X10: in every state that the operations produce, the background loop,
    however many times it wakes up, produces such a state again and changes
    neither tier, nor the adjacency index, nor the durable store: all it
    leaves behind is the time of the last pass. *)
Theorem X10_background_loop_changes_no_tier swallows now0 db ops wakeups :
  let sys := run swallows (new_system now0 db) ops in
  let sys' := (_consolidation_loop sys wakeups).1 in
  reachable swallows sys'
  ∧ working_memory sys' = working_memory sys
  ∧ short_term_memory sys' = []
  ∧ memory_graph sys' = memory_graph sys
  ∧ database sys' = database sys.
Proof.
  cbv zeta.
  pose proof (reachable_run swallows now0 db ops) as Hreach.
  revert Hreach. generalize (run swallows (new_system now0 db) ops). intros sys Hreach.
  destruct (consolidation_loop_run swallows sys wakeups) as (passes & Hpasses & _ & ->).
  split; [by apply reachable_run_from|].
  unfold run. induction passes as [|op passes IH] using rev_ind.
  { simpl. repeat split. by apply (reachable_shape swallows). }
  apply Forall_app in Hpasses as [Hpasses Hop].
  apply Forall_inv in Hop.
  destruct (IH Hpasses) as (Hw & Hst & Hg & Hdb).
  rewrite foldl_app.
  change (foldl (step swallows) (foldl (step swallows) sys passes) [op])
    with (step swallows (foldl (step swallows) sys passes) op).
  destruct op as [? ? ? ? ?|? ? ? ?|now commit_ok]; simpl in Hop; try done.
  assert (tiers_shape (foldl (step swallows) sys passes)) as Hshape.
  { apply (reachable_shape swallows).
    by apply (reachable_run_from swallows sys passes). }
  destruct (consolidate_shape _ now commit_ok Hshape) as (_ & Hw' & Hst' & Hg' & Hdb').
  cbv zeta in *.
  change (step swallows (foldl (step swallows) sys passes)
               (RunConsolidation now commit_ok))
    with (_consolidate_memories (foldl (step swallows) sys passes) now commit_ok).1.
  by rewrite Hw', Hst', Hg', Hdb'.
Qed.

(** X11: a pass is not run again too soon. When a wake-up at [now1] runs a
    pass, a wake-up that follows it by less than [consolidation_interval]
    seconds does nothing, whatever the tiers hold: the loop goes on as if that
    wake-up had not happened. *)
Theorem X11_no_second_pass_within_the_interval sys now1 commit1 now2 commit2 rest :
  should_consolidate (memory_controller sys) now1 = true →
  (0 ≤ now2 - now1 < consolidation_interval (memory_controller sys) * 1000000)%Z →
  _consolidation_loop sys (Wake now1 commit1 :: Wake now2 commit2 :: rest)
  = _consolidation_loop sys (Wake now1 commit1 :: rest).
Proof.
  intros Hdue Hsoon. simpl. rewrite Hdue.
  pose proof (consolidate_frame sys now1 commit1) as (_ & _ & _ & Hlast & _ & _ & Hint).
  destruct (_consolidate_memories sys now1 commit1) as [sys1 outcome].
  simpl in Hlast, Hint.
  rewrite should_consolidate_too_soon; first done.
  rewrite Hlast, Hint. done.
Qed.

Lemma X11_no_second_pass_within_the_interval_witness :
  _consolidation_loop twenty
    [Wake 400000000%Z true; Wake 460000000%Z true; Wake 800000000%Z true]
  = _consolidation_loop twenty [Wake 400000000%Z true; Wake 800000000%Z true].
Proof.
  apply (X11_no_second_pass_within_the_interval
           twenty 400000000%Z true 460000000%Z true [Wake 800000000%Z true]).
  - vm_compute. reflexivity.
  - vm_compute. split; [discriminate | reflexivity].
Defined.

(** X12: the cancellation of the task ends the loop: no wake-up that comes
    after it runs a pass or logs an error. *)
Theorem X12_nothing_runs_after_cancellation sys before after :
  _consolidation_loop sys (before ++ Cancelled :: after)
  = _consolidation_loop sys before.
Proof.
  revert sys. induction before as [|[now commit_ok|] before IH]; intros sys; simpl.
  - done.
  - destruct (should_consolidate (memory_controller sys) now); last apply IH.
    destruct (_consolidate_memories sys now commit_ok) as [sys' outcome].
    by rewrite IH.
  - done.
Qed.

(** ** The adjacency index and the links of a stored node *)

Lemma step_keeps_index swallows sys op a x :
  x ∈ graph_lookup (memory_graph sys) a →
  x ∈ graph_lookup (memory_graph (step swallows sys op)) a.
Proof.
  intros Hx. destruct op as [message_id content0 importance created now| |]; simpl.
  - destruct created as [emb|err]; last done.
    rewrite store_interaction_spec. destruct emb as [e|]; simpl; last done.
    apply elem_of_index_links. by left.
  - pose proof (retrieve_fields swallows sys query k db_up now) as (_ & _ & Hg & _).
    simpl in Hg. by rewrite Hg.
  - pose proof (consolidate_frame sys now commit_ok) as (_ & Hg & _).
    simpl in Hg. by rewrite Hg.
Qed.

(** X13: the adjacency index is never pruned. An entry of [memory_graph]
    stays under its id through every store, retrieval and consolidation pass
    that follows, from any state, also once the node of that id has left
    the working tier. *)
Theorem X13_index_is_never_pruned swallows sys ops a x :
  x ∈ graph_lookup (memory_graph sys) a →
  x ∈ graph_lookup (memory_graph (run swallows sys ops)) a.
Proof.
  intros Hx. unfold run. induction ops as [|op ops IH] using rev_ind; first done.
  rewrite foldl_app. simpl. by apply step_keeps_index.
Qed.

Lemma X13_index_is_never_pruned_witness :
  ("mem_b", 0.85%float)
  ∈ graph_lookup (memory_graph (run false scenario_2 (store_nth falling <$> seq 0 20)))
                 "mem_a".
Proof.
  apply (X13_index_is_never_pruned false scenario_2).
  vm_compute. apply list_elem_of_singleton. reflexivity.
Defined.

(** After the twenty stores of the witness no node of id ["mem_a"] or
    ["mem_b"] is resident. *)
Lemma scenario_2_evicted :
  node_id <$> working_memory (run false scenario_2 (store_nth falling <$> seq 0 20))
  = (λ i, "mem_" +:+ pretty i) <$> seq 0 20.
Proof. by vm_compute. Qed.

Lemma index_links_no_self new_id links g :
  (∀ l, l ∈ links → l.1 ≠ new_id) →
  (∀ a s, (a, s) ∉ graph_lookup g a) →
  ∀ a s, (a, s) ∉ graph_lookup (foldl (index_link new_id) g links) a.
Proof.
  intros Hlinks Hold a s. rewrite elem_of_index_links.
  intros [H|(l & Hl & [[-> <-]|[-> [= Heq _]]])].
  - by apply (Hold a s).
  - by apply (Hlinks _ Hl).
  - by apply (Hlinks _ Hl).
Qed.

Lemma link_of_other_id new_id e (memories : list MemoryNode) l :
  l ∈ omap (link_of new_id e) memories →
  l.1 ≠ new_id ∧ l.1 ∈ (node_id <$> memories) ∧ fgt l.2 0.7 = true.
Proof.
  intros (m & Hm & Hlink)%list_elem_of_omap.
  apply link_of_Some in Hlink as (Hne & e' & _ & Hgt & ->). simpl.
  split; [done|]. split; [|done]. apply list_elem_of_fmap. by exists m.
Qed.

Lemma store_no_self_link sys message_id content importance created now :
  no_self_link sys →
  no_self_link (store_interaction sys message_id content importance created now).1.
Proof.
  intros [Hgraph Hnodes]. destruct created as [emb|err]; last done.
  rewrite store_interaction_spec.
  assert (∀ m, m ∈ kept sys → m ∈ working_memory sys) as Hkept.
  { intros m Hm. unfold kept in Hm.
    eapply elem_of_sublist; [exact Hm | apply sublist_drop]. }
  destruct emb as [e|]; unfold no_self_link;
    cbn [fst working_memory memory_graph]; split.
  - apply index_links_no_self; [|done].
    intros l Hl. by apply link_of_other_id in Hl as [? _].
  - intros m s [Hm|Hm]%elem_of_app.
    + apply list_elem_of_fmap in Hm as (m0 & -> & Hm0).
      rewrite node_id_linked. unfold linked.
      destruct (link_of _ e m0) as [[k s']|] eqn:Hlink; last by apply Hnodes, Hkept.
      simpl. intros [Hin|Hin]%elem_of_app; first by apply (Hnodes m0 s (Hkept _ Hm0)).
      apply list_elem_of_singleton in Hin as [= Heq _].
      by apply link_of_Some in Hlink as (Hne & _).
    + apply list_elem_of_singleton in Hm as ->. simpl. intros Hin.
      by apply link_of_other_id in Hin as [? _].
  - done.
  - intros m s [Hm|Hm]%elem_of_app; first by apply Hnodes, Hkept.
    apply list_elem_of_singleton in Hm as ->. simpl. apply not_elem_of_nil.
Qed.

Lemma step_no_self_link swallows sys op :
  no_self_link sys → no_self_link (step swallows sys op).
Proof.
  intros Hinv. destruct op as [| |now commit_ok]; simpl.
  - by apply store_no_self_link.
  - destruct Hinv as [Hgraph Hnodes].
    pose proof (retrieve_fields swallows sys query k db_up now)
      as (_ & _ & Hg & _ & Hsame).
    simpl in Hg. split; rewrite ?Hg; first done.
    intros m s Hm Hl.
    destruct (same_links_view _ _ _ (Hsame _ links_view (λ _ _, eq_refl)) Hm)
      as (m0 & Hm0 & Hid & Hc).
    apply (Hnodes m0 s Hm0). by rewrite Hid, Hc.
  - destruct Hinv as [Hgraph Hnodes].
    pose proof (consolidate_frame sys now commit_ok) as (Hw & Hg & _).
    simpl in Hw, Hg. split; rewrite ?Hg, ?Hw; done.
Qed.

(** X14: no node is linked to itself. In every state that the operations
    produce, no entry of the adjacency index links an id to itself and no
    resident node has a connection to its own id; two nodes stored under the
    same message id are never linked to one another, however similar. *)
Theorem X14_no_self_link swallows now0 db ops :
  let sys := run swallows (new_system now0 db) ops in
  (∀ a s, (a, s) ∉ graph_lookup (memory_graph sys) a)
  ∧ (∀ m s, m ∈ working_memory sys → (node_id m, s) ∉ connections m).
Proof.
  cbv zeta. unfold run. induction ops as [|op ops IH] using rev_ind.
  - split.
    + intros a s. unfold graph_lookup. simpl. rewrite lookup_empty. apply not_elem_of_nil.
    + intros m s Hm. by apply elem_of_nil in Hm.
  - rewrite foldl_app. simpl. by apply step_no_self_link.
Qed.

Lemma length_omap_le {A B : Type} (f : A → option B) (l : list A) :
  length (omap f l) ≤ length l.
Proof.
  induction l as [|x l IH]; first done.
  change (omap f (x :: l))
    with (match f x with Some y => y :: omap f l | None => omap f l end).
  destruct (f x); simpl; lia.
Qed.

(** X15: what a store links the new node to. From any state that the
    operations produce, the node that [store_interaction] returns has at
    most 19 connections; each of them names a node that was resident in the
    working tier before the call, of another id than its own, with a
    strength above 0.7. *)
Theorem X15_links_of_a_stored_node swallows now0 db ops
    message_id content importance emb now :
  let sys := run swallows (new_system now0 db) ops in
  ∃ node,
    (store_interaction sys message_id content importance (Ok emb) now).2 = Ok node
    ∧ length (connections node) ≤ 19
    ∧ ∀ l, l ∈ connections node →
           l.1 ∈ (node_id <$> working_memory sys)
           ∧ l.1 ≠ node_id node
           ∧ fgt l.2 0.7 = true.
Proof.
  cbv zeta.
  pose proof (reachable_shape swallows _ (reachable_run swallows now0 db ops))
    as (Hshort & Hlen & _).
  rewrite store_interaction_spec. cbv zeta. rewrite Hshort.
  destruct emb as [e|]; simpl.
  2:{ eexists. split; [done|]. split; [simpl; lia|].
      intros l Hl. by apply elem_of_nil in Hl. }
  eexists. split; [done|]. rewrite app_nil_r. simpl. split.
  - etransitivity; [apply length_omap_le|].
    unfold kept. rewrite length_drop. unfold working_maxlen in *. lia.
  - intros l Hl. apply link_of_other_id in Hl as (Hne & Hin & Hgt).
    repeat split; try done.
    apply list_elem_of_fmap in Hin as (m & -> & Hm).
    apply list_elem_of_fmap. exists m. split; [done|].
    unfold kept in Hm. eapply elem_of_sublist; [exact Hm | apply sublist_drop].
Qed.

(** ** The working tier as a window on the stores *)

Lemma store_interaction_ids sys message_id content importance emb now :
  node_id <$> working_memory
                (store_interaction sys message_id content importance (Ok emb) now).1
  = drop (S (length (working_memory sys)) - working_maxlen)
         (node_id <$> working_memory sys) ++ ["mem_" +:+ message_id].
Proof.
  rewrite store_interaction_spec. unfold kept.
  destruct emb as [e|]; simpl; rewrite fmap_app, <- fmap_drop; simpl; [|done].
  rewrite <- list_fmap_compose. f_equal. apply list_fmap_ext.
  intros _ m _. apply node_id_linked.
Qed.

Lemma window_snoc (all : list string) (x : string) :
  drop (S (length (drop (length all - 20) all)) - working_maxlen)
       (drop (length all - 20) all) ++ [x]
  = drop (length (all ++ [x]) - 20) (all ++ [x]).
Proof.
  rewrite length_drop, length_app, drop_drop. unfold working_maxlen. simpl.
  rewrite drop_app_le by lia. do 2 f_equal. lia.
Qed.

(** X16: the working tier is the window of the last 20 stores. After any
    sequence of operations on a fresh system the ids of the working tier, from
    the left end of the deque to the right, are the ids of the last 20 nodes
    stored, in the order of the calls, whatever their importance, their
    access counts and the retrievals and passes that came in between; an
    id stored twice within the window is there twice. *)
Theorem X16_working_tier_is_the_last_twenty_stores swallows now0 db ops :
  node_id <$> working_memory (run swallows (new_system now0 db) ops)
  = drop (length (stored_ids ops) - 20) (stored_ids ops).
Proof.
  unfold run. induction ops as [|op ops IH] using rev_ind; first done.
  rewrite foldl_app. unfold stored_ids in *. rewrite omap_app.
  change (foldl (step swallows) (foldl (step swallows) (new_system now0 db) ops) [op])
    with (step swallows (foldl (step swallows) (new_system now0 db) ops) op).
  set (sys := foldl (step swallows) (new_system now0 db) ops) in *.
  destruct op as [message_id content0 importance [emb|err] now|query k db_up now
                 |now commit_ok]; unfold step; cbn [omap list_omap].
  - rewrite store_interaction_ids, IH, <- (length_fmap node_id), IH.
    apply window_snoc.
  - by rewrite app_nil_r.
  - rewrite app_nil_r.
    pose proof (retrieve_fields swallows sys query k db_up now)
      as (_ & _ & _ & _ & Hsame).
    simpl in Hsame. by rewrite (Hsame _ node_id (λ _ _, eq_refl)).
  - rewrite app_nil_r.
    pose proof (consolidate_frame sys now commit_ok) as (Hw & _).
    simpl in Hw. by rewrite Hw.
Qed.

(** ** Retrieval *)


Lemma access_le_refl (l : list MemoryNode) :
  Forall2 (λ m m', (access_count m ≤ access_count m')%Z) l l.
Proof. induction l; constructor; [lia | done]. Qed.

Lemma access_le_trans (l1 l2 l3 : list MemoryNode) :
  Forall2 (λ m m', (access_count m ≤ access_count m')%Z) l1 l2 →
  Forall2 (λ m m', (access_count m ≤ access_count m')%Z) l2 l3 →
  Forall2 (λ m m', (access_count m ≤ access_count m')%Z) l1 l3.
Proof.
  intros H12. revert l3. induction H12 as [|x y l1 l2 Hxy _ IH]; intros l3 H23.
  - by inversion H23.
  - inversion H23 as [|? z ? l3' Hyz H23']; subst. constructor; [lia | by apply IH].
Qed.

Lemma alter_touch_access now i (l : list MemoryNode) :
  Forall2 (λ m m', (access_count m ≤ access_count m')%Z) l (alter (touch now) i l).
Proof.
  revert i. induction l as [|m l IH]; intros [|i]; simpl; constructor.
  - simpl. lia.
  - apply access_le_refl.
  - lia.
  - apply IH.
Qed.

Lemma touch_all_access now (returned : list (candidate * float)) sys :
  Forall2 (λ m m', (access_count m ≤ access_count m')%Z)
          (working_memory sys)
          (working_memory (foldl (fun s '((o, _), _) => touch_at now s o) sys returned)).
Proof.
  revert sys. induction returned as [|[[o m] a] returned IH]; intros sys; simpl.
  - apply access_le_refl.
  - eapply access_le_trans; last apply IH.
    destruct o as [i|key|]; simpl;
      [apply alter_touch_access | apply access_le_refl | apply access_le_refl].
Qed.

(** X18: a retrieval is a read but for the access statistics. In any state
    it leaves the controller, the adjacency index, the durable store and the
    keys of the short-term tier as they are; the working tier keeps its nodes
    in their places with their ids, contents, embeddings, times of creation,
    importance, decay rates, connections and metadata; no access count is
    lowered. *)
Theorem X18_retrieval_only_touches_access_statistics swallows sys query k db_up now :
  let sys' := (retrieve_relevant_memories swallows sys query k db_up now).1 in
  let view m :=
    (node_id m, content m, embedding m, timestamp m, importance_score m,
     decay_rate m, connections m, metadata m) in
  memory_controller sys' = memory_controller sys
  ∧ memory_graph sys' = memory_graph sys
  ∧ database sys' = database sys
  ∧ fst <$> short_term_memory sys' = fst <$> short_term_memory sys
  ∧ view <$> working_memory sys' = view <$> working_memory sys
  ∧ Forall2 (λ m m', (access_count m ≤ access_count m')%Z)
            (working_memory sys) (working_memory sys').
Proof.
  cbv zeta.
  pose proof (retrieve_fields swallows sys query k db_up now)
    as (Hc & Hdb & Hg & Hkeys & Hsame).
  simpl in *. repeat split; try done.
  - by apply Hsame.
  - destruct (retrieve_cases swallows sys query k db_up now)
      as [[e ->]|(q & candidates & _ & _ & ->)]; simpl.
    + apply access_le_refl.
    + apply touch_all_access.
Qed.

(** ** The bytes of an embedding, written and read back *)







(** ** Spreading activation beyond its single step *)

Lemma spread_loop_no_links fuel short_term d (queue : list (candidate * float))
    visited scores :
  (∀ c a, (c, a) ∈ queue → connections c.2 = []) →
  length queue ≤ fuel →
  spread_loop fuel short_term d queue visited scores = Some scores.
Proof.
  revert fuel visited. induction queue as [|[[o m] a] queue IH];
    intros fuel visited Hfree Hfuel.
  { by destruct fuel. }
  destruct fuel as [|fuel]; simpl in Hfuel; first lia.
  cbn [spread_loop]. rewrite spread_step_eq.
  assert (connections m = []) as ->.
  { apply (Hfree (o, m) a), elem_of_cons. by left. }
  cbn [spread_links fst snd].
  destruct (bool_decide (node_id m ∈ visited));
    (apply IH; [intros c a' Hin; apply (Hfree c a'), elem_of_cons; by right | lia]).
Qed.

(** X19: without links there is nothing to spread. When no seed has a
    connection, the activation scores at the end of the loop are the ones
    it started from: each seed id with the similarity of the last seed of
    that id, in the order the ids first came. *)
Theorem X19_no_links_no_spreading short_term d (seeds : list (candidate * float)) :
  (∀ c a, (c, a) ∈ seeds → connections c.2 = []) →
  final_scores short_term d seeds = Some (initial_scores seeds).
Proof.
  intros Hfree. unfold final_scores, spread_fuel.
  apply spread_loop_no_links; [done | lia].
Qed.

Lemma X19_no_links_no_spreading_witness :
  final_scores (short_term_memory crowded) 0.7
    [((InWorking 0, fresh_node "a" [] 0.5 None 0%Z), 0.9%float);
     ((InWorking 1, fresh_node "b" [] 0.5 None 0%Z), 0.8%float)]
  = Some (initial_scores
            [((InWorking 0, fresh_node "a" [] 0.5 None 0%Z), 0.9%float);
             ((InWorking 1, fresh_node "b" [] 0.5 None 0%Z), 0.8%float)]).
Proof.
  apply (X19_no_links_no_spreading (short_term_memory crowded) 0.7%float).
  intros c a [Hin|Hin%list_elem_of_singleton]%elem_of_cons;
    injection Hin as -> _; reflexivity.
Defined.

Lemma has_key_spread_links short_term a d links scores queue k :
  has_key k scores = true →
  has_key k (spread_links short_term a d links scores queue).1 = true.
Proof.
  revert scores queue.
  induction links as [|[cid strength] rest IH]; intros scores queue Hk; first done.
  rewrite spread_links_cons. cbv zeta.
  destruct (fgt _ 0.1); last by apply IH.
  apply IH. rewrite has_key_set, Hk. apply orb_true_r.
Qed.

Lemma has_key_spread_loop fuel short_term d queue visited scores scores' k :
  spread_loop fuel short_term d queue visited scores = Some scores' →
  has_key k scores = true → has_key k scores' = true.
Proof.
  revert queue visited scores.
  induction fuel as [|fuel IH]; intros queue visited scores Hloop Hk.
  { destruct queue; [by injection Hloop as <- | done]. }
  destruct queue as [|[[o m] a] queue]; first by injection Hloop as <-.
  simpl in Hloop. destruct (bool_decide (node_id m ∈ visited)).
  - by eapply IH.
  - pose proof (has_key_spread_links short_term a d (connections m) scores queue k Hk).
    destruct (spread_links short_term a d (connections m) scores queue)
      as [scores1 queue1].
    by eapply IH.
Qed.

Lemma has_key_initial_scores (seeds : list (candidate * float)) c a :
  (c, a) ∈ seeds → has_key (node_id c.2) (initial_scores seeds) = true.
Proof.
  unfold initial_scores.
  assert (∀ acc k,
            has_key k acc = true ∨ (∃ c a, (c, a) ∈ seeds ∧ node_id c.2 = k) →
            has_key k (foldl (fun d '((_, m), a) => assoc_set (node_id m) a d)
                             acc seeds) = true) as H.
  { induction seeds as [|[[o m] a0] seeds IH]; intros acc k; simpl.
    - intros [?|(? & ? & Hin & _)]; [done | by apply elem_of_nil in Hin].
    - intros [Hacc|(c' & a' & [Heq|Hin]%elem_of_cons & Hid)]; apply IH.
      + left. rewrite has_key_set, Hacc. apply orb_true_r.
      + left. injection Heq as -> _. simpl in Hid. rewrite has_key_set.
        by rewrite bool_decide_true.
      + right. by exists c', a'. }
  intros Hin. apply H. right. by exists c, a.
Qed.

Lemma assoc_get_elem_of {V : Type} (k : string) (v : V) (d : list (string * V)) :
  assoc_get k d = Some v → (k, v) ∈ d.
Proof.
  induction d as [|[k0 v0] d IH]; simpl; first done.
  destruct (bool_decide_reflect (k0 = k)) as [->|_].
  - intros [= ->]. apply elem_of_cons. by left.
  - intros H. apply elem_of_cons. right. by apply IH.
Qed.

Lemma memory_map_get_seed short_term (seed_memories : list candidate) c :
  c ∈ seed_memories →
  is_Some (memory_map_get short_term seed_memories (node_id c.2)).
Proof.
  intros Hin. unfold memory_map_get.
  destruct (assoc_get (node_id c.2) short_term); first by eexists.
  match goal with
  | |- context [find ?f ?l] => destruct (find f l) as [c'|] eqn:Hfind
  end; first by eexists.
  exfalso.
  pose proof (find_none _ _ Hfind c) as Hnone. cbv beta in Hnone.
  assert (bool_decide (node_id c.2 = node_id c.2) = false) as Habs.
  { apply Hnone, list_elem_of_In, elem_of_reverse, Hin. }
  by rewrite bool_decide_true in Habs.
Qed.

(** X20: spreading activation never loses a seed. Every seed keeps an
    activation score to the end of the loop, and the list that
    [_spreading_activation] returns has an entry for the id of every seed:
    the short-term node under that id if there is one, else the last seed of
    that id. *)
Theorem X20_every_seed_is_in_the_result short_term seed_memories initial_activations
    d c a :
  (c, a) ∈ zip seed_memories initial_activations →
  (∃ scores v,
     final_scores short_term d (zip seed_memories initial_activations) = Some scores
     ∧ assoc_get (node_id c.2) scores = Some v)
  ∧ (∃ c' v,
       memory_map_get short_term seed_memories (node_id c.2) = Some c'
       ∧ (c', v) ∈ _spreading_activation short_term seed_memories
                                         initial_activations d).
Proof.
  intros Hin.
  destruct (final_scores_total short_term d (zip seed_memories initial_activations))
    as [scores Hscores].
  pose proof (has_key_spread_loop _ _ _ _ _ _ _ (node_id c.2) Hscores
                                  (has_key_initial_scores _ c a Hin)) as Hk.
  unfold has_key in Hk.
  destruct (assoc_get (node_id c.2) scores) as [v|] eqn:Hv; last done.
  split; first by exists scores, v.
  destruct (memory_map_get_seed short_term seed_memories c) as [c' Hc'].
  { by apply elem_of_zip_l in Hin. }
  exists c', v. split; first done.
  unfold _spreading_activation. rewrite Hscores. simpl.
  rewrite sorted_desc_perm. apply list_elem_of_omap.
  exists (node_id c.2, v). split; first by apply assoc_get_elem_of.
  by rewrite Hc'.
Qed.

Lemma X20_every_seed_is_in_the_result_witness :
  let a := (InWorking 0, fresh_node "a" [] 0.5 None 0%Z) in
  let b := (InWorking 1, fresh_node "b" [] 0.5 None 0%Z) in
  (∃ scores v,
     final_scores [] 0.7 (zip [a; b] [0.9; 0.8]%float) = Some scores
     ∧ assoc_get (node_id a.2) scores = Some v)
  ∧ (∃ c' v,
       memory_map_get [] [a; b] (node_id a.2) = Some c'
       ∧ (c', v) ∈ _spreading_activation [] [a; b] [0.9; 0.8]%float 0.7).
Proof.
  apply (X20_every_seed_is_in_the_result
           [] [(InWorking 0, fresh_node "a" [] 0.5 None 0%Z);
               (InWorking 1, fresh_node "b" [] 0.5 None 0%Z)]
           [0.9; 0.8]%float 0.7%float _ 0.9%float).
  apply elem_of_cons. by left.
Defined.

(** ** Persistence and the sender profiles *)

(** X21: persisting a node never creates and never deletes a sender
    profile. After [_persist_to_long_term] returns, the durable store has one
    more row, built from the node, and the same profiles in the same order:
    each is as it was or, if it has the address of the node's sender, counts
    one more message. A node whose sender has no profile leaves the profiles
    as they are. *)
Theorem X21_persisting_creates_no_profile db now memory db' :
  _persist_to_long_term db now memory = Ok db' →
  long_term_rows db' = long_term_rows db ++ [long_term_row memory]
  ∧ email <$> sender_profiles db' = email <$> sender_profiles db
  ∧ Forall2 (λ p p',
               p' = p
               ∨ (dict_get (metadata memory) "sender" = Some (email p)
                  ∧ total_messages p' = (total_messages p + 1)%Z
                  ∧ last_interaction p' = Some now))
            (sender_profiles db) (sender_profiles db')
  ∧ ((∀ p, p ∈ sender_profiles db →
           dict_get (metadata memory) "sender" ≠ Some (email p)) →
     sender_profiles db' = sender_profiles db).
Proof.
  intros Hok. split; first by apply (persist_to_long_term_rows _ now).
  assert (∀ (P : SenderProfile → SenderProfile → Prop) (l : list SenderProfile),
            Forall2 (λ p p', p' = p ∨ P p p') l l) as Hrefl.
  { intros P l. induction l; constructor; [by left | done]. }
  unfold _persist_to_long_term in Hok.
  destruct (dict_get (metadata memory) "sender") as [sender|] eqn:Hsender.
  2:{ injection Hok as <-. simpl. split; [done | split; [apply Hrefl | done]]. }
  destruct (bool_decide (sender = "")).
  { injection Hok as <-. simpl. split; [done | split; [apply Hrefl | done]]. }
  destruct (filter _ (sender_profiles db)) as [|q [|q' qs]] eqn:Hfilter; last done.
  { injection Hok as <-. simpl. split; [done | split; [apply Hrefl | done]]. }
  injection Hok as <-. simpl. split; [|split].
  - rewrite <- list_fmap_compose. apply list_fmap_ext. intros _ p _. simpl.
    by destruct (bool_decide (email p = sender)).
  - clear Hfilter. induction (sender_profiles db) as [|p l IH]; constructor; last done.
    destruct (bool_decide_reflect (email p = sender)) as [->|]; [right | by left].
    done.
  - intros Hnone. exfalso.
    assert (q ∈ filter (λ p, email p = sender) (sender_profiles db)) as Hq.
    { rewrite Hfilter. apply elem_of_cons. by left. }
    apply list_elem_of_filter in Hq as [Heq Hq].
    apply (Hnone q Hq). by rewrite Heq.
Qed.

Lemma X21_persisting_creates_no_profile_witness :
  let memory := (resident "scenario_3" 0.8 1).2 in
  let db := database crowded in
  let db' :=
    mkDatabase [long_term_row memory]
               [mkProfile "ann@example.org" 4 (Some 1000000%Z) 1.0] in
  long_term_rows db' = long_term_rows db ++ [long_term_row memory]
  ∧ email <$> sender_profiles db' = email <$> sender_profiles db
  ∧ Forall2 (λ p p',
               p' = p
               ∨ (dict_get (metadata memory) "sender" = Some (email p)
                  ∧ total_messages p' = (total_messages p + 1)%Z
                  ∧ last_interaction p' = Some 1000000%Z))
            (sender_profiles db) (sender_profiles db')
  ∧ ((∀ p, p ∈ sender_profiles db →
           dict_get (metadata memory) "sender" ≠ Some (email p)) →
     sender_profiles db' = sender_profiles db).
Proof.
  apply (X21_persisting_creates_no_profile
           (database crowded) 1000000%Z (resident "scenario_3" 0.8 1).2).
  vm_compute. reflexivity.
Defined.

(** X28: the nudge of a sender profile. When a node is persisted and one
    profile has the address of its sender, that profile counts one more
    message, has the time of the pass as its last interaction, and has its
    importance raised by 0.01 if the sum is below 1.0 and set to 1.0
    otherwise. *)
Theorem X28_profile_nudge_is_a_hundredth_up_to_one db now memory db' p0 :
  _persist_to_long_term db now memory = Ok db' →
  dict_get (metadata memory) "sender" = Some (email p0) →
  email p0 ≠ "" →
  p0 ∈ sender_profiles db →
  mkProfile (email p0) (total_messages p0 + 1)%Z (Some now)
            (if PrimFloat.ltb (profile_importance_score p0 + 0.01) 1.0
             then (profile_importance_score p0 + 0.01)%float else 1.0%float)
    ∈ sender_profiles db'.
Proof.
  intros Hok Hsender Hne Hp0. unfold _persist_to_long_term in Hok.
  rewrite Hsender in Hok. rewrite bool_decide_false in Hok by done.
  assert (p0 ∈ filter (λ p, email p = email p0) (sender_profiles db)) as Hin.
  { by apply list_elem_of_filter. }
  destruct (filter _ (sender_profiles db)) as [|q [|q' qs]];
    [by apply elem_of_nil in Hin | | done].
  injection Hok as <-. cbn [sender_profiles].
  apply list_elem_of_fmap. exists p0. split; last done.
  by rewrite bool_decide_true.
Qed.

Lemma X28_profile_nudge_is_a_hundredth_up_to_one_witness :
  let memory := (resident "scenario_3" 0.8 1).2 in
  let db := mkDatabase [] [mkProfile "ann@example.org" 3 None 0.5;
                           mkProfile "bob@example.org" 7 None 0.995] in
  let db' :=
    mkDatabase [long_term_row memory]
               [mkProfile "ann@example.org" 4 (Some 1000000%Z) (0.5 + 0.01)%float;
                mkProfile "bob@example.org" 7 None 0.995] in
  _persist_to_long_term db 1000000%Z memory = Ok db'
  ∧ _persist_to_long_term (database crowded) 1000000%Z memory
    = Ok (mkDatabase [long_term_row memory]
                     [mkProfile "ann@example.org" 4 (Some 1000000%Z) 1.0])
  ∧ mkProfile "ann@example.org" 4 (Some 1000000%Z) (0.5 + 0.01)%float ∈ sender_profiles db'.
Proof.
  cbv zeta. split; [by vm_compute|]. split; [by vm_compute|].
  apply (X28_profile_nudge_is_a_hundredth_up_to_one
           (mkDatabase [] [mkProfile "ann@example.org" 3 None 0.5;
                           mkProfile "bob@example.org" 7 None 0.995])
           1000000%Z (resident "scenario_3" 0.8 1).2 _
           (mkProfile "ann@example.org" 3 None 0.5)).
  - by vm_compute.
  - done.
  - done.
  - apply elem_of_cons. by left.
Defined.

(** ** What a store leaves alone *)

(** X22: a store writes nothing but the working tier and the links. It
    leaves the durable store, the controller and the keys of the short-term
    tier as they are, and when the embedding call raises it changes nothing
    at all and raises the same exception. A resident that stays in the
    working tier keeps its place relative to the others, its id,
    importance, access count and embedding; its connections are only
    appended to, never rewritten. *)
Theorem X22_store_only_appends sys message_id content importance created now :
  let sys' := (store_interaction sys message_id content importance created now).1 in
  database sys' = database sys
  ∧ memory_controller sys' = memory_controller sys
  ∧ fst <$> short_term_memory sys' = fst <$> short_term_memory sys
  ∧ (∀ e, created = Raise e →
          store_interaction sys message_id content importance created now
          = (sys, Raise e))
  ∧ (∀ emb i m,
       created = Ok emb → kept sys !! i = Some m →
       ∃ m', working_memory sys' !! i = Some m'
             ∧ node_id m' = node_id m
             ∧ importance_score m' = importance_score m
             ∧ access_count m' = access_count m
             ∧ embedding m' = embedding m
             ∧ connections m `prefix_of` connections m').
Proof.
  cbv zeta.
  pose proof (store_interaction_fields sys message_id content importance created now)
    as (Hc & Hdb & Hkeys & _).
  simpl in Hc, Hdb, Hkeys. split; [done|]. split; [done|]. split; [done|]. split.
  - by intros e ->.
  - intros emb i m -> Hi. rewrite store_interaction_spec.
    destruct emb as [e|]; simpl.
    + exists (linked ("mem_" +:+ message_id) e m). split.
      * rewrite lookup_app_l by (rewrite length_fmap; by eapply lookup_lt_Some).
        by rewrite list_lookup_fmap, Hi.
      * unfold linked. destruct (link_of _ e m) as [[k s]|]; simpl;
          repeat split; try done. by apply prefix_app_r.
    + exists m. split; [|done].
      rewrite lookup_app_l by (by eapply lookup_lt_Some). done.
Qed.

Lemma memory_map_get_Some short_term (seed_memories : list candidate) memory_id c :
  memory_map_get short_term seed_memories memory_id = Some c →
  (assoc_get memory_id short_term = None ∧ c ∈ seed_memories
   ∧ node_id c.2 = memory_id)
  ∨ (∃ node, c = (InShortTerm memory_id, node)
             ∧ assoc_get memory_id short_term = Some node).
Proof.
  unfold memory_map_get.
  destruct (assoc_get memory_id short_term) as [node|].
  - intros [= <-]. right. by exists node.
  - intros Hfind. left. apply find_some in Hfind as [Hin Hid].
    split; [done|]. split.
    + by apply elem_of_reverse, list_elem_of_In.
    + by apply bool_decide_eq_true in Hid.
Qed.

Lemma spreading_activation_entry short_term seed_memories initial_activations d c v :
  (c, v) ∈ _spreading_activation short_term seed_memories initial_activations d →
  ∃ scores memory_id,
    final_scores short_term d (zip seed_memories initial_activations) = Some scores
    ∧ (memory_id, v) ∈ scores
    ∧ memory_map_get short_term seed_memories memory_id = Some c.
Proof.
  unfold _spreading_activation.
  destruct (final_scores_total short_term d (zip seed_memories initial_activations))
    as [scores Hscores].
  rewrite Hscores. simpl. rewrite sorted_desc_perm.
  intros ([memory_id v'] & Hin & Hentry)%list_elem_of_omap.
  destruct (memory_map_get short_term seed_memories memory_id) as [c'|] eqn:Hget;
    last done.
  injection Hentry as -> ->. by exists scores, memory_id.
Qed.

(** X23: spreading activation returns no node from outside. Each entry of
    the list that [_spreading_activation] returns is one of the seeds or a
    resident of the short-term tier; a neighbour that is neither gets a score
    but is not returned. While the short-term tier is empty, as it is in every
    state that the operations produce, the list holds seeds only. *)
Theorem X23_spreading_returns_seeds_or_short_term short_term seed_memories
    initial_activations d c v :
  (c, v) ∈ _spreading_activation short_term seed_memories initial_activations d →
  (c ∈ seed_memories
   ∨ ∃ key node, c = (InShortTerm key, node) ∧ assoc_get key short_term = Some node)
  ∧ (short_term = [] → c ∈ seed_memories).
Proof.
  intros (scores & memory_id & _ & _ & Hget)%spreading_activation_entry.
  apply memory_map_get_Some in Hget as [(_ & Hin & _)|(node & -> & Hnode)].
  - split; [by left | done].
  - split; [right; by exists memory_id, node|].
    intros ->. done.
Qed.

Lemma X23_spreading_returns_seeds_or_short_term_witness :
  let a := (InWorking 0, fresh_node "a" [] 0.5 None 0%Z) in
  (a ∈ [a]
   ∨ ∃ key node, a = (InShortTerm key, node) ∧ assoc_get key [] = Some node)
  ∧ (@nil (string * MemoryNode) = [] → a ∈ [a]).
Proof.
  apply (X23_spreading_returns_seeds_or_short_term
           [] [(InWorking 0, fresh_node "a" [] 0.5 None 0%Z)] [0.9%float]
           0.7%float _ 0.9%float).
  vm_compute. apply list_elem_of_singleton. reflexivity.
Defined.

(** ** One retrieval, one access *)

Lemma elem_of_assoc_set_keys {V : Type} (k x : string) (v : V) (d : list (string * V)) :
  x ∈ (assoc_set k v d).*1 ↔ x = k ∨ x ∈ d.*1.
Proof.
  induction d as [|[k0 v0] d IH]; simpl.
  - rewrite list_elem_of_singleton. split; [by left|]. intros [?|H]; [done|].
    by apply elem_of_nil in H.
  - destruct (bool_decide_reflect (k0 = k)) as [->|Hne]; simpl.
    + rewrite !elem_of_cons. tauto.
    + rewrite !elem_of_cons, IH. tauto.
Qed.

Lemma assoc_set_NoDup {V : Type} (k : string) (v : V) (d : list (string * V)) :
  NoDup d.*1 → NoDup (assoc_set k v d).*1.
Proof.
  induction d as [|[k0 v0] d IH]; simpl.
  - intros _. apply NoDup_singleton.
  - rewrite NoDup_cons. intros [Hout Hnodup].
    destruct (bool_decide_reflect (k0 = k)) as [->|Hne]; simpl; apply NoDup_cons.
    + done.
    + split; [|by apply IH]. rewrite elem_of_assoc_set_keys. intros [?|?]; done.
Qed.

Lemma spread_links_NoDup short_term a d links scores queue :
  NoDup scores.*1 → NoDup (spread_links short_term a d links scores queue).1.*1.
Proof.
  revert scores queue.
  induction links as [|[cid strength] rest IH]; intros scores queue Hnd; first done.
  rewrite spread_links_cons. cbv zeta.
  destruct (fgt _ 0.1); [apply IH, assoc_set_NoDup, Hnd | by apply IH].
Qed.

Lemma spread_loop_NoDup fuel short_term d queue visited scores scores' :
  spread_loop fuel short_term d queue visited scores = Some scores' →
  NoDup scores.*1 → NoDup scores'.*1.
Proof.
  revert queue visited scores.
  induction fuel as [|fuel IH]; intros queue visited scores Hloop Hnd.
  { destruct queue; [by injection Hloop as <- | done]. }
  destruct queue as [|[[o m] a] queue]; first by injection Hloop as <-.
  cbn [spread_loop] in Hloop. rewrite spread_step_eq in Hloop.
  destruct (bool_decide (node_id m ∈ visited)); first by eapply IH.
  eapply IH; [exact Hloop|]. by apply spread_links_NoDup.
Qed.

Lemma initial_scores_NoDup (seeds : list (candidate * float)) :
  NoDup (initial_scores seeds).*1.
Proof.
  unfold initial_scores.
  assert (∀ acc : list (string * float),
            NoDup acc.*1 →
            NoDup (foldl (fun d '((_, m), a) => assoc_set (node_id m) a d)
                         acc seeds).*1) as H.
  { induction seeds as [|[[o m] a] seeds IH]; intros acc Hacc; simpl; first done.
    by apply IH, assoc_set_NoDup. }
  apply H. simpl. apply NoDup_nil_2.
Qed.

Lemma omap_NoDup_keys {V B : Type} (h : string → option B) (d : list (string * V)) :
  NoDup d.*1 →
  (∀ k1 k2 b, h k1 = Some b → h k2 = Some b → k1 = k2) →
  NoDup (omap (λ kv, h kv.1) d).
Proof.
  intros Hnd Hinj. induction d as [|[k v] d IH]; first apply NoDup_nil_2.
  apply NoDup_cons in Hnd as [Hout Hnd].
  change (omap (λ kv, h kv.1) ((k, v) :: d))
    with (match h k with
          | Some b => b :: omap (λ kv, h kv.1) d
          | None => omap (λ kv, h kv.1) d
          end).
  destruct (h k) as [b|] eqn:Hk; last by apply IH.
  apply NoDup_cons. split; last by apply IH.
  intros ([k' v'] & Hin & Hk')%list_elem_of_omap. simpl in Hk'.
  apply Hout. rewrite (Hinj k k' b Hk Hk').
  apply list_elem_of_fmap. by exists (k', v').
Qed.

Lemma omap_cons {A B : Type} (f : A → option B) (x : A) (l : list A) :
  omap f (x :: l) = match f x with Some y => y :: omap f l | None => omap f l end.
Proof. done. Qed.

Lemma omap_omap {A B C : Type} (f : A → option B) (g : B → option C) (l : list A) :
  omap g (omap f l) = omap (λ x, f x ≫= g) l.
Proof.
  induction l as [|x l IH]; first done.
  rewrite (omap_cons f), (omap_cons (λ x, f x ≫= g)).
  destruct (f x) as [y|]; last done.
  rewrite (omap_cons g). simpl. by rewrite IH.
Qed.

Lemma sublist_omap {A B : Type} (f : A → option B) (l1 l2 : list A) :
  l1 `sublist_of` l2 → omap f l1 `sublist_of` omap f l2.
Proof.
  induction 1 as [|x l1 l2 _ IH|x l1 l2 _ IH]; first done.
  - change (omap f (x :: l1))
      with (match f x with Some y => y :: omap f l1 | None => omap f l1 end).
    change (omap f (x :: l2))
      with (match f x with Some y => y :: omap f l2 | None => omap f l2 end).
    destruct (f x); [by constructor | done].
  - change (omap f (x :: l2))
      with (match f x with Some y => y :: omap f l2 | None => omap f l2 end).
    destruct (f x); [by constructor | done].
Qed.

(** The places of the working deque among the entries that
    [_spreading_activation] returns are all different, when each place is
    the place of one node among the seeds. *)
Lemma spreading_activation_places short_term seed_memories initial_activations d :
  (∀ i m m', (InWorking i, m) ∈ seed_memories → (InWorking i, m') ∈ seed_memories →
             m = m') →
  NoDup (omap (λ x : candidate * float, working_index x.1.1)
              (_spreading_activation short_term seed_memories initial_activations d)).
Proof.
  intros Hseeds. unfold _spreading_activation.
  destruct (final_scores_total short_term d (zip seed_memories initial_activations))
    as [scores Hscores].
  rewrite Hscores. simpl. rewrite sorted_desc_perm, omap_omap.
  pose proof (spread_loop_NoDup _ _ _ _ _ _ _ Hscores (initial_scores_NoDup _)) as Hnd.
  rewrite (list_omap_ext _
             (λ kv, memory_map_get short_term seed_memories kv.1
                    ≫= λ c, working_index c.1) _ scores).
  - apply (omap_NoDup_keys
             (λ k, memory_map_get short_term seed_memories k ≫= λ c, working_index c.1));
      first done.
    intros k1 k2 i H1 H2.
    destruct (memory_map_get short_term seed_memories k1) as [[o1 m1]|] eqn:E1;
      last done.
    destruct (memory_map_get short_term seed_memories k2) as [[o2 m2]|] eqn:E2;
      last done.
    simpl in H1, H2. destruct o1 as [i1| |]; try done. destruct o2 as [i2| |]; try done.
    injection H1 as ->. injection H2 as ->.
    apply memory_map_get_Some in E1 as [(_ & Hin1 & Hid1)|(? & ? & _)]; last done.
    apply memory_map_get_Some in E2 as [(_ & Hin2 & Hid2)|(? & ? & _)]; last done.
    simpl in Hid1, Hid2. by rewrite <- Hid1, <- Hid2, (Hseeds i m1 m2 Hin1 Hin2).
  - apply Forall2_same_length_lookup_2; first done.
    intros j [k1 v1] [k2 v2] H1 H2. assert (k1 = k2) as -> by congruence. simpl.
    by destruct (memory_map_get short_term seed_memories k2).
Qed.

Lemma touch_all_count now (returned : list (candidate * float)) sys i :
  access_count
    <$> working_memory (foldl (fun s '((o, _), _) => touch_at now s o) sys returned) !! i
  = (λ m, (access_count m
           + Z.of_nat (length (filter (λ j, j = i)
                                      (omap (λ x : candidate * float,
                                               working_index x.1.1) returned))))%Z)
      <$> working_memory sys !! i.
Proof.
  revert sys. induction returned as [|[[o m0] a] returned IH]; intros sys.
  { simpl. destruct (working_memory sys !! i); simpl; f_equal; lia. }
  cbn [foldl]. rewrite IH. clear IH.
  change (omap (λ x : candidate * float, working_index x.1.1) (((o, m0), a) :: returned))
    with (match working_index o with
          | Some j => j :: omap (λ x : candidate * float, working_index x.1.1) returned
          | None => omap (λ x : candidate * float, working_index x.1.1) returned
          end).
  destruct o as [j|key|]; simpl; try done.
  rewrite list_lookup_alter, filter_cons.
  destruct (decide (j = i)) as [->|Hne].
  - destruct (working_memory sys !! i); simpl; f_equal. lia.
  - done.
Qed.

Lemma NoDup_count_le (i : nat) (l : list nat) :
  NoDup l → length (filter (λ j, j = i) l) ≤ 1.
Proof.
  assert (∀ l : list nat, i ∉ l → filter (λ j, j = i) l = []) as Hnone.
  { intros l'. induction l' as [|j l' IH']; first done.
    rewrite not_elem_of_cons. intros [Hne Hout].
    rewrite filter_cons_False by done. by apply IH'. }
  induction 1 as [|j l Hout _ IH]; first (simpl; lia).
  rewrite filter_cons. destruct (decide (j = i)) as [->|]; last done.
  rewrite Hnone by done. simpl. lia.
Qed.

(** X24: one retrieval, at most one access. In any state, a call of
    [retrieve_relevant_memories] raises the access count of a node of the
    working tier by one or leaves it as it is: no node is counted twice in
    one call, also when several nodes share an id. *)
Theorem X24_one_access_per_retrieval swallows sys query k db_up now :
  let sys' := (retrieve_relevant_memories swallows sys query k db_up now).1 in
  Forall2 (λ m m', access_count m' = access_count m
                   ∨ access_count m' = (access_count m + 1)%Z)
          (working_memory sys) (working_memory sys').
Proof.
  cbv zeta.
  assert (∀ l : list MemoryNode,
            Forall2 (λ m m', access_count m' = access_count m
                             ∨ access_count m' = (access_count m + 1)%Z) l l) as Hrefl.
  { intros l. induction l; constructor; [by left | done]. }
  pose proof (retrieve_fields swallows sys query k db_up now) as (_ & _ & _ & _ & Hsame).
  specialize (Hsame _ node_id (λ _ _, eq_refl)). simpl in Hsame.
  apply (f_equal length) in Hsame. rewrite !length_fmap in Hsame.
  revert Hsame.
  destruct (retrieve_cases swallows sys query k db_up now)
    as [[e ->]|(q & candidates0 & _ & Hfrom0 & ->)]; simpl; first (intros _; apply Hrefl).
  set (tiers := working_candidates sys q ++ short_term_candidates sys q) in *.
  assert (∀ candidates : list (candidate * float),
            (∀ c, c ∈ candidates → c ∈ tiers ∨ c.1.1 = Detached) →
            length (working_memory
                      (foldl (fun s '((o, _), _) => touch_at now s o) sys
                         (take k (_spreading_activation (short_term_memory sys)
                                    (take (k * 2) (sorted_desc snd candidates)).*1
                                    (take (k * 2) (sorted_desc snd candidates)).*2 0.7))))
            = length (working_memory sys) →
            Forall2 (λ m m', access_count m' = access_count m
                             ∨ access_count m' = (access_count m + 1)%Z)
                    (working_memory sys)
                    (working_memory
                       (foldl (fun s '((o, _), _) => touch_at now s o) sys
                          (take k (_spreading_activation (short_term_memory sys)
                                     (take (k * 2) (sorted_desc snd candidates)).*1
                                     (take (k * 2) (sorted_desc snd candidates)).*2
                                     0.7))))) as Hmain.
  { intros candidates Hfrom Hlen.
    apply Forall2_same_length_lookup_2; first done.
    intros i m m' Hm Hm'.
    pose proof (touch_all_count now
                  (take k (_spreading_activation (short_term_memory sys)
                             (take (k * 2) (sorted_desc snd candidates)).*1
                             (take (k * 2) (sorted_desc snd candidates)).*2 0.7))
                  sys i) as Hcount.
    rewrite Hm, Hm' in Hcount. simpl in Hcount. injection Hcount as Hcount.
    match type of Hcount with
    | _ = (_ + Z.of_nat (length (filter _ ?idxs)))%Z =>
        assert (NoDup idxs) as Hnd
    end.
    { eapply sublist_NoDup; last (apply sublist_omap, sublist_take).
      apply spreading_activation_places.
      intros j m1 m2 H1 H2.
      assert (∀ m0, (InWorking j, m0) ∈ (take (k * 2) (sorted_desc snd candidates)).*1 →
                    working_memory sys !! j = Some m0) as Hwf.
      { intros m0 ([c s] & Hc & Hin)%list_elem_of_fmap. simpl in Hc. subst c.
        pose proof (elem_of_sublist _ _ _ Hin (sublist_take _ _)) as Hin'.
        rewrite sorted_desc_perm in Hin'.
        destruct (Hfrom _ Hin') as [Htier|Hdet]; last done.
        apply elem_of_app in Htier as [Hw|Hs].
        - apply working_candidates_spec in Hw as (i0 & m3 & e & [= -> ->] & Hw & _).
          done.
        - by apply short_term_candidates_spec in Hs as (? & ? & ? & [=] & _). }
      pose proof (Hwf _ H1). pose proof (Hwf _ H2). congruence. }
    pose proof (NoDup_count_le i _ Hnd) as Hle.
    match type of Hle with
    | length ?l ≤ 1 => destruct l as [|? [|? ?]]; simpl in Hle, Hcount
    end; [left | right | lia]; lia. }
  by apply Hmain.
Qed.

(** ** The dimension of the embeddings *)

Lemma embedding_linked new_id e m : embedding (linked new_id e m) = embedding m.
Proof. unfold linked. by destruct (link_of new_id e m) as [[? ?]|]. Qed.

Lemma step_uniform_dimension swallows n sys op :
  tiers_shape sys → of_dimension n op →
  uniform_dimension n sys → uniform_dimension n (step swallows sys op).
Proof.
  intros Hshape Hop Hsys.
  pose proof (step_shape swallows sys op Hshape) as (Hshort' & _).
  destruct Hshape as (Hshort & _).
  unfold uniform_dimension in *. rewrite Hshort'. rewrite Hshort in Hsys.
  cbn [fmap list_fmap] in *. rewrite app_nil_r in *.
  destruct op as [message_id content importance created now|query k db_up now
                 |now commit_ok]; cbn [step] in *.
  - destruct created as [emb|err]; last done.
    rewrite store_interaction_spec. cbv zeta.
    assert (∀ m, m ∈ kept sys → m ∈ working_memory sys) as Hkept.
    { intros m Hm. apply (elem_of_sublist _ _ _ Hm), sublist_drop. }
    destruct emb as [e0|]; cbn [fst working_memory].
    + intros m e [(m0 & -> & Hm0)%list_elem_of_fmap|Hm%list_elem_of_singleton]%elem_of_app.
      * rewrite embedding_linked. by apply Hsys, Hkept.
      * subst m. cbn. intros [= <-]. exact Hop.
    + intros m e [Hm|Hm%list_elem_of_singleton]%elem_of_app.
      * by apply Hsys, Hkept.
      * by subst m.
  - pose proof (retrieve_fields swallows sys query k db_up now) as (_ & _ & _ & _ & Hsame).
    specialize (Hsame _ embedding (λ _ _, eq_refl)). cbv zeta in Hsame.
    intros m e Hm Hemb.
    assert (Some e ∈ embedding <$> working_memory sys) as Hin.
    { rewrite <- Hsame, <- Hemb. by apply list_elem_of_fmap_2. }
    apply list_elem_of_fmap in Hin as (m0 & Hemb0 & Hm0). by apply (Hsys m0 e Hm0).
  - pose proof (consolidate_frame sys now commit_ok) as (Hw & _). cbv zeta in Hw.
    by rewrite Hw.
Qed.

(** X27: the tiers hold embeddings of one dimension. When every vector that
    the embedding service returns to a store has [n] items, every embedding
    of the working and short-term tiers has [n] items in every state that
    the operations produce: the dot products that a store or a retrieval
    takes between a vector of [n] items and the embedding of a resident node
    are taken on arrays of equal length. *)
Theorem X27_embeddings_of_one_dimension swallows n now0 db ops :
  Forall (of_dimension n) ops →
  uniform_dimension n (run swallows (new_system now0 db) ops).
Proof.
  unfold run. induction ops as [|op ops IH] using rev_ind; intros Hops.
  - intros m e Hm. by apply elem_of_nil in Hm.
  - apply Forall_app in Hops as [Hops Hop]. apply Forall_inv in Hop.
    rewrite foldl_app. cbn [foldl].
    apply step_uniform_dimension; [|exact Hop|by apply IH].
    apply (reachable_shape swallows), reachable_run.
Qed.

Lemma X27_embeddings_of_one_dimension_witness :
  Forall (of_dimension 5)
    [StoreInteraction "a" [] 0.5 (Ok (Some [1; 0; 0; 0; 0]%float)) 0%Z;
     StoreInteraction "b" [] 0.5 (Ok (Some [17; 10; 3; 1; 1]%float)) 1000000%Z;
     StoreInteraction "c" [] 0.5 (Ok (Some [1; 0; 1; 1; -1]%float)) 2000000%Z]
  ∧ uniform_dimension 5 scenario_2.
Proof.
  assert (Forall (of_dimension 5)
            [StoreInteraction "a" [] 0.5 (Ok (Some [1; 0; 0; 0; 0]%float)) 0%Z;
             StoreInteraction "b" [] 0.5 (Ok (Some [17; 10; 3; 1; 1]%float)) 1000000%Z;
             StoreInteraction "c" [] 0.5 (Ok (Some [1; 0; 1; 1; -1]%float)) 2000000%Z])
    as Hops by (repeat constructor).
  split; [done|].
  apply (X27_embeddings_of_one_dimension false 5 0%Z empty_db _ Hops).
Defined.
